(** * siftHelper: the SiftClient core (src/sift_client.ts)

    A shallow embedding of the transport, the paginator, the metadata cache,
    the record resolver, the subtree walker and the chain resolver of
    [SiftClient], and the properties the specification states about them.

    Conventions.
    - A JavaScript value of type [string | undefined | null] is an
      [option string]; [None] stands for [undefined] and [null] alike.
    - JavaScript numbers that are only counted or compared are [Z]; the
      delays handed to [setTimeout] are exact rationals ([Q]).
    - The remote service, [Math.random] and [Date.now] form the [World]; the
      asynchronous methods are computations in the monad [M], which threads
      the world and carries thrown errors. *)

From Stdlib Require Import ssreflect ZArith QArith Ascii String List Bool Lia.
From stdpp Require Import base gmap sets list strings.

Local Close Scope Q_scope.
Local Open Scope string_scope.
Local Open Scope list_scope.
Local Open Scope Z_scope.

(** ** Data model *)

Inductive Method := GET | POST.

Inductive Comparison :=
  eq_ | neq | gt | gte | lt | lte | in_ | nin | exists_ | notExists | contains.

Record Condition := {
  field : string;
  comparison : Comparison;
  value : option string
}.

Record SearchPostBody := {
  page : option Z;
  pageSize : option Z;
  filter : option Condition
}.

Record FieldMeta := {
  objectKey : string;
  name : string;
  type : string
}.

(** [PersonBase]: the fields the client reads, plus [displayName] to tell
    apart two records that carry the same id. *)
Record PersonBase := {
  id : option string;
  displayName : option string;
  teamLeaderId : option string;
  directReportCount : option Z;
  reportingPath : option (list string)
}.

Record SearchResponse := {
  data : option (list PersonBase);
  links_next : option string
}.

(** The JSON bodies of the three endpoints; [resp?.data] of the person and
    of the fields endpoint may be missing. *)
Inductive Json :=
| JPerson (d : option PersonBase)
| JSearch (r : SearchResponse)
| JFields (d : option (list FieldMeta)).

(** What [JSON.stringify(body ?? {})] serialises. *)
Inductive Payload :=
| PEmpty
| PSearch (b : SearchPostBody).

Record Request := {
  method : Method;
  url : string;
  headers : gmap string string;
  payload : option Payload
}.

(** The value of the [retry-after] response header as [Number(...)] sees
    it: absent ([Number(null)] is 0), a numeric text, or any other text
    ([NaN]). *)
Inductive RetryAfter :=
| RaAbsent
| RaNumber (q : Q)
| RaOther.

Record Resp := {
  status : Z;
  statusText : string;
  retry_after : RetryAfter;
  text : option string;       (* [None]: [res.text()] rejects *)
  json : option Json          (* [None]: [res.json()] rejects *)
}.

Inductive FetchOutcome :=
| NetFail (msg : string)      (* [fetch] rejects: network failure or abort *)
| Response (res : Resp).

Inductive Error :=
| CallerError (msg : string)
| HttpError (m : Method) (u : string) (st : Z) (stText body : string)
| FetchError (msg : string)
| JsonError
| TypeError
| UnknownError.

(** ** The world and the monad of asynchronous computations *)

Record World := {
  server : list Request -> FetchOutcome; (* answer to the newest request, given all requests so far *)
  sent : list Request;                   (* requests handed to [fetch], newest first *)
  randoms : nat -> Q;                    (* the successive values of [Math.random()] *)
  drawn : nat;
  slept : list Q;                        (* delays handed to [setTimeout], newest first *)
  now : Z                                (* [Date.now()] *)
}.

Inductive Outcome (A : Type) :=
| Ok (a : A)
| Throw (e : Error)
| Diverge.
Arguments Ok {A} a.
Arguments Throw {A} e.
Arguments Diverge {A}.

Definition M (A : Type) : Type := World -> Outcome A * World.

Definition ret {A} (a : A) : M A := fun w => (Ok a, w).
Definition throw {A} (e : Error) : M A := fun w => (Throw e, w).
Definition diverge {A} : M A := fun w => (Diverge, w).
Definition bind {A B} (c : M A) (k : A -> M B) : M B := fun w =>
  match c w with
  | (Ok a, w') => k a w'
  | (Throw e, w') => (Throw e, w')
  | (Diverge, w') => (Diverge, w')
  end.
(** [promise.catch(handler)] *)
Definition catch {A} (c : M A) (h : Error -> M A) : M A := fun w =>
  match c w with
  | (Throw e, w') => h e w'
  | r => r
  end.

Notation "x <- c ;; k" := (bind c (fun x => k))
  (at level 100, c at next level, right associativity).
Notation "c ;;; k" := (bind c (fun _ => k))
  (at level 100, right associativity).

Definition fetch (req : Request) : M FetchOutcome := fun w =>
  let h := req :: sent w in
  (Ok (server w h),
   {| server := server w; sent := h; randoms := randoms w; drawn := drawn w;
      slept := slept w; now := now w |}).

Definition Math_random : M Q := fun w =>
  (Ok (randoms w (drawn w)),
   {| server := server w; sent := sent w; randoms := randoms w;
      drawn := S (drawn w); slept := slept w; now := now w |}).

(** [await new Promise(r => setTimeout(r, d))] *)
Definition sleep (d : Q) : M unit := fun w =>
  (Ok tt,
   {| server := server w; sent := sent w; randoms := randoms w; drawn := drawn w;
      slept := d :: slept w; now := now w |}).

Definition Date_now : M Z := fun w => (Ok (now w), w).

(** ** SiftClient *)

Record SiftClient := {
  baseUrl : string;
  dataToken : string;
  mediaToken : option string;
  timeoutMs : Z;
  fieldsTtlMs : Z;
  fieldsCache : option (Z * list FieldMeta)   (* fetchedAt, items *)
}.

Definition truthy (s : option string) : bool :=
  match s with
  | Some s => negb (String.eqb s "")
  | None => false
  end.

Module ClientOptions.
Record t := {
  dataToken : option string;
  mediaToken : option string;
  baseUrl : option string;
  timeoutMs : option Z;
  fieldsTtlMs : option Z
}.
End ClientOptions.

(** [s.replace(/\/$/, '')] *)
Fixpoint strip_trailing_slash (s : string) : string :=
  match s with
  | EmptyString => EmptyString
  | String a EmptyString => if Ascii.eqb a "/" then EmptyString else s
  | String a s' => String a (strip_trailing_slash s')
  end.

(** The constructor; the [fetch] implementation is the world's. *)
Definition new_SiftClient (opts : ClientOptions.t) : Error + SiftClient :=
  if negb (truthy (ClientOptions.dataToken opts))
  then inl (CallerError "SiftClient: dataToken is required")
  else inr
    {| baseUrl :=
         strip_trailing_slash
           (if truthy (ClientOptions.baseUrl opts)
            then default "" (ClientOptions.baseUrl opts)
            else "https://api.justsift.com/v1");
       dataToken := default "" (ClientOptions.dataToken opts);
       mediaToken := ClientOptions.mediaToken opts;
       timeoutMs := default 15000 (ClientOptions.timeoutMs opts);
       fieldsTtlMs := default (10 * 60 * 1000) (ClientOptions.fieldsTtlMs opts);
       fieldsCache := None |}.

(** *** Transport: requestJsonByUrl *)

Definition maxAttempts : Z := 3.

Definition res_ok (res : Resp) : bool := (200 <=? status res) && (status res <=? 299).

(** [Number(res.headers.get('retry-after')) || Math.pow(2, attempt) * 250] *)
Definition retryAfter (res : Resp) (attempt : Z) : Q :=
  let backoff := inject_Z (2 ^ attempt * 250) in
  match retry_after res with
  | RaAbsent => backoff
  | RaNumber q => if Qeq_bool q 0 then backoff else q
  | RaOther => backoff
  end.

(** [Math.pow(2, attempt) * 200 + Math.random() * 100] *)
Definition jittered (attempt : Z) (r : Q) : Q :=
  (inject_Z (2 ^ attempt * 200) + r * inject_Z 100)%Q.

(** The [while (attempt < maxAttempts)] loop. [fuel] bounds the iterations;
    three suffice (lemma [request_loop_total]). The local [on_catch] is the
    [catch (err)] block, which every exception of the [try] body reaches,
    the [throw new Error(...)] of a failed status included. *)
Fixpoint request_loop (fuel : nat) (req : Request) (attempt : Z)
    (lastErr : option Error) : M (option Json) :=
  if attempt <? maxAttempts then
    match fuel with
    | O => diverge
    | S fuel' =>
      let attempt := attempt + 1 in
      let on_catch (err : Error) : M (option Json) :=
        if attempt >=? maxAttempts then throw err
        else
          r <- Math_random ;;
          sleep (jittered attempt r) ;;;
          request_loop fuel' req attempt (Some err) in
      out <- fetch req ;;
      match out with
      | NetFail msg => on_catch (FetchError msg)
      | Response res =>
        if status res =? 204 then ret None
        else if negb (res_ok res) then
          if ((status res =? 429) || (status res >=? 500)) && (attempt <? maxAttempts)
          then
            sleep (retryAfter res attempt) ;;;
            request_loop fuel' req attempt lastErr
          else
            on_catch (HttpError (method req) (url req) (status res) (statusText res)
                        (default "" (text res)))
        else
          match json res with
          | Some j => ret (Some j)
          | None => on_catch JsonError
          end
      end
    end
  else throw (default UnknownError lastErr).

Definition mkHeaders (c : SiftClient) (m : Method) : gmap string string :=
  let headers : gmap string string :=
    <["Accept" := "application/json"]>
      {["Authorization" := "Bearer " +:+ dataToken c]} in
  match m with
  | POST => <["Content-Type" := "application/json"]> headers
  | GET => headers
  end.

(** The timer of the [AbortController] belongs to the world: when it fires,
    [fetch] rejects ([NetFail]). *)
Definition requestJsonByUrl (c : SiftClient) (m : Method) (u : string)
    (body : option SearchPostBody) : M (option Json) :=
  let payload :=
    match m with
    | POST => Some (match body with Some b => PSearch b | None => PEmpty end)
    | GET => None
    end in
  request_loop (Z.to_nat maxAttempts)
    {| method := m; url := u; headers := mkHeaders c m; payload := payload |} 0 None.

Definition requestJson (c : SiftClient) (m : Method) (path : string)
    (body : option SearchPostBody) : M (option Json) :=
  requestJsonByUrl c m (baseUrl c +:+ path) body.

(** *** Builtins *)

(** [encodeURIComponent], on strings read as UTF-8 byte sequences: every
    byte outside [A-Z a-z 0-9 - _ . ! ~ * ' ( )] is percent-encoded. *)
Definition unreserved (a : ascii) : bool :=
  let n := nat_of_ascii a in
  ((65 <=? n) && (n <=? 90) || (97 <=? n) && (n <=? 122) || (48 <=? n) && (n <=? 57)
   || bool_decide (a ∈ list_ascii_of_string "-_.!~*'()"))%nat.

Definition hex_digit (n : nat) : ascii :=
  nth n (list_ascii_of_string "0123456789ABCDEF") "0"%char.

Fixpoint encodeURIComponent (s : string) : string :=
  match s with
  | EmptyString => EmptyString
  | String a s' =>
    if unreserved a then String a (encodeURIComponent s')
    else
      let n := nat_of_ascii a in
      String "%"%char
        (String (hex_digit (n / 16)%nat)
           (String (hex_digit (n mod 16)%nat) (encodeURIComponent s')))
  end.

(** [Array.from(new Set(arr))]: the distinct elements in first-occurrence
    order. *)
Fixpoint dedupe_from (seen : gset string) (arr : list string) : list string :=
  match arr with
  | [] => []
  | x :: arr' =>
    if bool_decide (x ∈ seen) then dedupe_from seen arr'
    else x :: dedupe_from ({[x]} ∪ seen) arr'
  end.

Definition dedupe (arr : list string) : list string := dedupe_from ∅ arr.

(** [x.id ?? ''] *)
Definition id_or_empty (x : PersonBase) : string := default "" (id x).

(** The [for (const x of arr)] loop of [dedupeById], from the state
    ([seen], [out]) it has reached. *)
Fixpoint dedupeById_loop (arr : list PersonBase) (seen : gset string)
    (out : list PersonBase) : list PersonBase :=
  match arr with
  | [] => out
  | x :: arr' =>
    let id_ := id_or_empty x in
    if (String.eqb id_ "") || bool_decide (id_ ∈ seen)
    then dedupeById_loop arr' seen out
    else dedupeById_loop arr' ({[id_]} ∪ seen) (out ++ [x])
  end.

Definition dedupeById (arr : list PersonBase) : list PersonBase :=
  dedupeById_loop arr ∅ [].

(** *** Core endpoints *)

(** The unchecked casts [as { data: T }], [as SearchResponse<T>] and
    [as { data: FieldMeta[] }]: a body of another endpoint's shape carries
    none of the properties read. *)
Definition person_data (resp : option Json) : option PersonBase :=
  match resp with
  | Some (JPerson d) => d
  | _ => None
  end.

Definition fields_data (resp : option Json) : list FieldMeta :=
  match resp with
  | Some (JFields (Some items)) => items
  | _ => []
  end.

Definition cast_search (resp : option Json) : option SearchResponse :=
  match resp with
  | Some (JSearch r) => Some r
  | Some _ => Some {| data := None; links_next := None |}
  | None => None
  end.

(** Reading [resp.data] when [resp] is [undefined] (a 204) throws. *)
Definition search_response (resp : option Json) : M SearchResponse :=
  match cast_search resp with
  | Some r => ret r
  | None => throw TypeError
  end.

(** [resp.data || []] *)
Definition page_data (resp : SearchResponse) : list PersonBase := default [] (data resp).

Definition getPerson (c : SiftClient) (idOrEmail : option string)
    : M (option PersonBase) :=
  if negb (truthy idOrEmail) then throw (CallerError "getPerson: idOrEmail is required")
  else
    let encoded := encodeURIComponent (default "" idOrEmail) in
    resp <- requestJson c GET ("/people/" +:+ encoded) None ;;
    ret (person_data resp).

(** [this.fieldsCache && (now - this.fieldsCache.fetchedAt) < this.fieldsTtlMs] *)
Definition cache_fresh (c : SiftClient) (now_ : Z) : bool :=
  match fieldsCache c with
  | Some (fetchedAt, _) => now_ - fetchedAt <? fieldsTtlMs c
  | None => false
  end.

(** [getFields] assigns [this.fieldsCache]; the client after the call is
    returned next to the result. *)
Definition getFields (c : SiftClient) (forceRefresh : bool)
    : M (list FieldMeta * SiftClient) :=
  now_ <- Date_now ;;
  if negb forceRefresh && cache_fresh c now_ then
    ret (match fieldsCache c with Some (_, items) => items | None => [] end, c)
  else
    resp <- requestJson c GET "/fields/person" None ;;
    let items := fields_data resp in
    ret (items,
         {| baseUrl := baseUrl c; dataToken := dataToken c; mediaToken := mediaToken c;
            timeoutMs := timeoutMs c; fieldsTtlMs := fieldsTtlMs c;
            fieldsCache := Some (now_, items) |}).

Definition searchPeoplePost (c : SiftClient) (body : SearchPostBody) : M (option Json) :=
  requestJson c POST "/search/people" (Some body).

Definition followSearchNext (c : SiftClient) (nextUrl : string) : M (option Json) :=
  requestJsonByUrl c GET nextUrl None.

(** *** makeMediaUrl *)

Inductive MediaKind := profile_photo | background_photo.
Inductive PreferredPhotoType := custom | official.
Inductive Fit := crop | scale.

Record MediaOpts := {
  preferredType : option PreferredPhotoType;
  height : option Z;
  width : option Z;
  fit : option Fit;
  tokenInQuery : bool
}.

(** The WHATWG [URL] object: what precedes the query, and [searchParams]. *)
Record URL := {
  href_base : string;
  searchParams : list (string * string)
}.

(** [url.searchParams.set(k, v)]: the first entry named [k] takes the value
    and the later ones go; without such an entry the pair is appended. *)
Fixpoint params_set (k v : string) (ps : list (string * string)) : list (string * string) :=
  match ps with
  | [] => [(k, v)]
  | (k', v') :: ps' =>
    if String.eqb k' k then (k, v) :: List.filter (fun kv => negb (String.eqb kv.1 k)) ps'
    else (k', v') :: params_set k v ps'
  end.

Definition searchParams_set (k v : string) (u : URL) : URL :=
  {| href_base := href_base u; searchParams := params_set k v (searchParams u) |}.

Definition kind_string (k : MediaKind) : string :=
  match k with profile_photo => "profile-photo" | background_photo => "background-photo" end.
Definition preferred_string (p : PreferredPhotoType) : string :=
  match p with custom => "custom" | official => "official" end.
Definition fit_string (f : Fit) : string :=
  match f with crop => "crop" | scale => "scale" end.

Section MediaUrl.
(** The parser [new URL(...)], the serialiser [url.toString()] and
    [String(n)] for numbers are the platform's. *)
Variable URL_new : string -> URL.
Variable URL_toString : URL -> string.
Variable String_of_number : Z -> string.

Definition set_if {A} (o : option A) (k : string) (f : A -> string) (u : URL) : URL :=
  match o with
  | Some a => searchParams_set k (f a) u
  | None => u
  end.

Definition makeMediaUrl (c : SiftClient) (idOrEmail : string) (kind : MediaKind)
    (opts : MediaOpts) : string :=
  let encoded := encodeURIComponent idOrEmail in
  let url := URL_new (baseUrl c +:+ "/media/people/" +:+ encoded +:+ "/" +:+ kind_string kind) in
  let url := set_if (preferredType opts) "preferredType" preferred_string url in
  let url := set_if (height opts) "height" String_of_number url in
  let url := set_if (width opts) "width" String_of_number url in
  let url := set_if (fit opts) "fit" fit_string url in
  let url :=
    if tokenInQuery opts && truthy (mediaToken c)
    then searchParams_set "token" (default "" (mediaToken c)) url
    else url in
  URL_toString url.
End MediaUrl.

(** *** getDirectReports *)

(** [Math.min(Math.max(1, pageSize), 100)] *)
Definition clamp_pageSize (pageSize : Z) : Z := Z.min (Z.max 1 pageSize) 100.

(** The [while (resp.links?.next)] loop; [fuel] bounds the number of
    continuation pages followed. *)
Fixpoint follow_pages (fuel : nat) (c : SiftClient) (resp : SearchResponse)
    (out : list PersonBase) : M (list PersonBase) :=
  if truthy (links_next resp) then
    match fuel with
    | O => diverge
    | S fuel' =>
      j <- followSearchNext c (default "" (links_next resp)) ;;
      resp' <- search_response j ;;
      follow_pages fuel' c resp' (out ++ page_data resp')
    end
  else ret out.

Definition teamLeader_filter (managerId : option string) : Condition :=
  {| field := "teamLeaderId"; comparison := eq_; value := managerId |}.

Definition search_body (managerId : option string) (pageSize : Z) : SearchPostBody :=
  {| page := Some 1; pageSize := Some (clamp_pageSize pageSize);
     filter := Some (teamLeader_filter managerId) |}.

(** The pages in arrival order, before [dedupeById]. *)
Definition collect_pages (fuel : nat) (c : SiftClient) (managerId : option string)
    (pageSize : Z) : M (list PersonBase) :=
  j <- searchPeoplePost c (search_body managerId pageSize) ;;
  resp <- search_response j ;;
  follow_pages fuel c resp (page_data resp).

Definition getDirectReports (fuel : nat) (c : SiftClient) (managerId : option string)
    (pageSize : Z) : M (list PersonBase) :=
  if negb (truthy managerId) then throw (CallerError "getDirectReports: managerId is required")
  else
    out <- collect_pages fuel c managerId pageSize ;;
    ret (dedupeById out).

(** The pages that the loop of [getDirectReports] goes through after the
    page [resp], from the world [w] to the world [w']: each one is the
    answer to a GET of the [next] link of the page before it, and the last
    one carries no [next] link. *)
Inductive page_chain (c : SiftClient)
    : World -> SearchResponse -> list SearchResponse -> World -> Prop :=
| chain_last w resp :
    truthy (links_next resp) = false ->
    page_chain c w resp [] w
| chain_next w resp j resp' w1 rest w2 :
    truthy (links_next resp) = true ->
    followSearchNext c (default "" (links_next resp)) w = (Ok j, w1) ->
    cast_search j = Some resp' ->
    page_chain c w1 resp' rest w2 ->
    page_chain c w resp (resp' :: rest) w2.

(** *** getOrgSubtree *)

Module Opts.
Record t := {
  includeManager : bool;
  maxDepth : option Z;
  maxNodes : option Z;
  pageSize : option Z
}.
End Opts.

Module QueueItem.
Record t := {
  leaderId : option string;
  id : option string;
  depth : Z
}.
End QueueItem.

Record Edge := {
  leaderId : option string;
  personId : option string
}.

Module Stats.
Record t := {
  expanded : Z;
  enqueued : Z;
  apiCalls : Z;
  depthReached : Z;
  truncated : bool
}.
End Stats.

Record OrgSubtreeResult := {
  manager : option PersonBase;
  nodes : list PersonBase;
  edges : list Edge;
  stats : Stats.t
}.

(** [Map<string, T>]: the entries in insertion order; a key is a [p.id].
    [set] on a key that is present replaces its value in place. *)
Definition Map_has (k : option string) (m : list (option string * PersonBase)) : bool :=
  bool_decide (k ∈ m.*1).

Definition Map_set (k : option string) (v : PersonBase)
    (m : list (option string * PersonBase)) : list (option string * PersonBase) :=
  if Map_has k m
  then map (fun kv : option string * PersonBase => if bool_decide (kv.1 = k) then (k, v) else kv) m
  else m ++ [(k, v)].

Definition Map_size (m : list (option string * PersonBase)) : Z := Z.of_nat (length m).

Definition Map_values (m : list (option string * PersonBase)) : list PersonBase := m.*2.

(** The local variables of [getOrgSubtree]. [origins] and [pushes] are
    ghost: [origins] records, for each edge, the queue item being expanded
    when the edge was pushed, and [pushes] counts the [queue.push] calls.
    The code never reads them. *)
Module W.
Record t := {
  nodesMap : list (option string * PersonBase);
  edges : list Edge;
  queue : list QueueItem.t;
  apiCalls : Z;
  expanded : Z;
  depthReached : Z;
  origins : list (option string * Z);
  pushes : Z
}.

Definition init : t :=
  {| nodesMap := []; edges := []; queue := []; apiCalls := 0; expanded := 0;
     depthReached := 0; origins := []; pushes := 0 |}.

Definition set_node (k : option string) (v : PersonBase) (st : t) : t :=
  {| nodesMap := Map_set k v (nodesMap st); edges := edges st; queue := queue st;
     apiCalls := apiCalls st; expanded := expanded st; depthReached := depthReached st;
     origins := origins st; pushes := pushes st |}.

Definition push_edge (e : Edge) (origin : option string * Z) (st : t) : t :=
  {| nodesMap := nodesMap st; edges := edges st ++ [e]; queue := queue st;
     apiCalls := apiCalls st; expanded := expanded st; depthReached := depthReached st;
     origins := origins st ++ [origin]; pushes := pushes st |}.

Definition push_queue (q : QueueItem.t) (st : t) : t :=
  {| nodesMap := nodesMap st; edges := edges st; queue := queue st ++ [q];
     apiCalls := apiCalls st; expanded := expanded st; depthReached := depthReached st;
     origins := origins st; pushes := pushes st + 1 |}.

Definition set_queue (q : list QueueItem.t) (st : t) : t :=
  {| nodesMap := nodesMap st; edges := edges st; queue := q;
     apiCalls := apiCalls st; expanded := expanded st; depthReached := depthReached st;
     origins := origins st; pushes := pushes st |}.

Definition set_depthReached (d : Z) (st : t) : t :=
  {| nodesMap := nodesMap st; edges := edges st; queue := queue st;
     apiCalls := apiCalls st; expanded := expanded st; depthReached := d;
     origins := origins st; pushes := pushes st |}.

Definition incr_apiCalls (st : t) : t :=
  {| nodesMap := nodesMap st; edges := edges st; queue := queue st;
     apiCalls := apiCalls st + 1; expanded := expanded st; depthReached := depthReached st;
     origins := origins st; pushes := pushes st |}.

Definition incr_expanded (st : t) : t :=
  {| nodesMap := nodesMap st; edges := edges st; queue := queue st;
     apiCalls := apiCalls st; expanded := expanded st + 1; depthReached := depthReached st;
     origins := origins st; pushes := pushes st |}.
End W.

(** How the [for (const p of drs)] loop ends: by the [return] inside it,
    or by running through the batch. *)
Inductive Batch :=
| Returned (st : W.t)
| Completed (st : W.t).

(** [{ leaderId: p.teamLeaderId ?? null, personId: p.id }] *)
Definition edge_of (p : PersonBase) : Edge :=
  {| leaderId := teamLeaderId p; personId := id p |}.

Fixpoint for_drs (maxNodes_ : Z) (item : QueueItem.t) (drs : list PersonBase)
    (st : W.t) : Batch :=
  match drs with
  | [] => Completed st
  | p :: drs' =>
    let depth := QueueItem.depth item in
    let st := W.push_edge (edge_of p) (QueueItem.id item, depth) st in
    if negb (Map_has (id p) (W.nodesMap st)) then
      let st := W.set_node (id p) p st in
      if Map_size (W.nodesMap st) >=? maxNodes_ then Returned st
      else
        let hasReports := default 0 (directReportCount p) >? 0 in
        let st :=
          if hasReports
          then W.push_queue {| QueueItem.leaderId := teamLeaderId p;
                               QueueItem.id := id p;
                               QueueItem.depth := depth + 1 |} st
          else st in
        for_drs maxNodes_ item drs' st
    else for_drs maxNodes_ item drs' st
  end.

(** Every edge has its origin, and every origin was expanded at a depth
    below [D]. *)
Definition origins_below (D : Z) (st : W.t) : Prop :=
  length (W.origins st) = length (W.edges st) /\
  Forall (fun o : option string * Z => o.2 < D) (W.origins st).

(** No item waiting in the queue is deeper than [D] (or than the root). *)
Definition queue_within (D : Z) (st : W.t) : Prop :=
  Forall (fun q => QueueItem.depth q <= Z.max 0 D) (W.queue st).

(** [expanded++; depthReached = Math.max(depthReached, depth + 1)] *)
Definition expanded_one (depth : Z) (st : W.t) : W.t :=
  let st := W.incr_expanded st in
  W.set_depthReached (Z.max (W.depthReached st) (depth + 1)) st.

(** The node map is keyed by the id of its values, without repetition. *)
Definition keyed_by_id (st : W.t) : Prop :=
  NoDup (W.nodesMap st).*1 /\
  Forall (fun kv : option string * PersonBase => kv.1 = id kv.2) (W.nodesMap st).

(** The [while (queue.length > 0)] loop. [fuel] bounds its iterations and
    [pfuel] the continuation pages of each [getDirectReports]. The boolean
    tells which of the two [return] statements was taken. *)
Fixpoint bfs_loop (fuel pfuel : nat) (c : SiftClient) (maxDepth_ maxNodes_ pageSize_ : Z)
    (st : W.t) : M (W.t * bool) :=
  match W.queue st with
  | [] => ret (st, false)
  | item :: rest =>
    match fuel with
    | O => diverge
    | S fuel' =>
      let st := W.set_queue rest st in
      let depth := QueueItem.depth item in
      if depth >=? maxDepth_ then
        bfs_loop fuel' pfuel c maxDepth_ maxNodes_ pageSize_
          (W.set_depthReached (Z.max (W.depthReached st) depth) st)
      else
        let st := W.incr_apiCalls st in
        drs <- getDirectReports pfuel c (QueueItem.id item) pageSize_ ;;
        match for_drs maxNodes_ item drs (expanded_one depth st) with
        | Returned st' => ret (st', true)
        | Completed st' => bfs_loop fuel' pfuel c maxDepth_ maxNodes_ pageSize_ st'
        end
    end
  end.

Definition mkResult (manager_ : option PersonBase) (st : W.t) (truncated_ : bool)
    : OrgSubtreeResult :=
  {| manager := manager_;
     nodes := Map_values (W.nodesMap st);
     edges := W.edges st;
     stats := {| Stats.expanded := W.expanded st;
                 Stats.enqueued := Map_size (W.nodesMap st);
                 Stats.apiCalls := W.apiCalls st;
                 Stats.depthReached := W.depthReached st;
                 Stats.truncated := truncated_ |} |}.

Definition eff_maxDepth (opts : Opts.t) : Z := default 6 (Opts.maxDepth opts).
Definition eff_maxNodes (opts : Opts.t) : Z := Z.max 1 (default 1000 (Opts.maxNodes opts)).
Definition eff_pageSize (opts : Opts.t) : Z :=
  Z.min (Z.max 1 (default 100 (Opts.pageSize opts))) 100.

(** [manager?.id ?? managerIdOrEmail] *)
Definition root_id (manager_ : option PersonBase) (managerIdOrEmail : string)
    : option string :=
  match manager_ with
  | Some m => match id m with Some i => Some i | None => Some managerIdOrEmail end
  | None => Some managerIdOrEmail
  end.

(** [opts.includeManager && manager && manager.id] *)
Definition seeded (manager_ : option PersonBase) (opts : Opts.t) : bool :=
  match manager_ with
  | Some m => Opts.includeManager opts && truthy (id m)
  | None => false
  end.

(** The state in which the [while] loop is entered. *)
Definition walk_start (manager_ : option PersonBase) (managerIdOrEmail : string)
    (opts : Opts.t) : W.t :=
  let st := W.init in
  let st :=
    match manager_ with
    | Some m => if seeded manager_ opts then W.set_node (id m) m st else st
    | None => st
    end in
  W.push_queue {| QueueItem.leaderId := None;
                  QueueItem.id := root_id manager_ managerIdOrEmail;
                  QueueItem.depth := 0 |} st.

(** [getOrgSubtree], returning the walker's final variables too. *)
Definition getOrgSubtree_walk (fuel pfuel : nat) (c : SiftClient)
    (managerIdOrEmail : string) (opts : Opts.t)
    : M (option PersonBase * W.t * bool) :=
  manager_ <- catch (getPerson c (Some managerIdOrEmail)) (fun _ => ret None) ;;
  r <- bfs_loop fuel pfuel c (eff_maxDepth opts) (eff_maxNodes opts) (eff_pageSize opts)
         (walk_start manager_ managerIdOrEmail opts) ;;
  ret (manager_, r.1, r.2).

Definition getOrgSubtree (fuel pfuel : nat) (c : SiftClient)
    (managerIdOrEmail : string) (opts : Opts.t) : M OrgSubtreeResult :=
  r <- getOrgSubtree_walk fuel pfuel c managerIdOrEmail opts ;;
  ret (mkResult r.1.1 r.1.2 r.2).

(** *** getOrgChain *)

(** [Promise.all(tasks)]. The tasks settle in the order [sched], a list of
    positions; the resolved array is filled by position, whatever the order
    of settlement, and the first rejection rejects the whole. A position
    that never settles leaves the promise pending. *)
Fixpoint settle {A} (sched : list nat) (tasks : list (M A)) (slots : list (option A))
    : M (list (option A)) :=
  match sched with
  | [] => ret slots
  | i :: sched' =>
    match tasks !! i with
    | Some task => a <- task ;; settle sched' tasks (<[i := Some a]> slots)
    | None => settle sched' tasks slots
    end
  end.

Fixpoint all_settled {A} (slots : list (option A)) : option (list A) :=
  match slots with
  | [] => Some []
  | Some a :: slots' =>
    match all_settled slots' with Some l => Some (a :: l) | None => None end
  | None :: _ => None
  end.

Definition Promise_all {A} (sched : list nat) (tasks : list (M A)) : M (list A) :=
  slots <- settle sched tasks (replicate (length tasks) None) ;;
  match all_settled slots with
  | Some l => ret l
  | None => diverge
  end.

(** The slots after the tasks of [sched] have settled, when the task at
    position [i] resolves to [f] of the [i]-th key. *)
Fixpoint settled {A} (f : string -> A) (keys : list string) (sched : list nat)
    (slots : list (option A)) : list (option A) :=
  match sched with
  | [] => slots
  | i :: sched' =>
    match keys !! i with
    | Some key => settled f keys sched' (<[i := Some (f key)]> slots)
    | None => settled f keys sched' slots
    end
  end.

Definition getOrgChain (sched : list nat) (c : SiftClient) (idOrEmail : option string)
    (includeSelf : bool) : M (list (option PersonBase)) :=
  person <- getPerson c idOrEmail ;;
  match person with
  | None => throw TypeError           (* [person.reportingPath] of [undefined] *)
  | Some p =>
    let ids := default [] (reportingPath p) in
    let unique := dedupe ids in
    leaders <- Promise_all sched (map (fun i => getPerson c (Some i)) unique) ;;
    ret (if includeSelf then leaders ++ [Some p] else leaders)
  end.

(** ** Reading a run *)

Definition result {A} (m : M A) (w : World) : Outcome A := (m w).1.
Definition after {A} (m : M A) (w : World) : World := (m w).2.

(** The number of requests handed to [fetch] during a run. *)
Definition attempts {A} (m : M A) (w : World) : nat :=
  (length (sent (after m w)) - length (sent w))%nat.

(** [w'] is reached from [w] by sending the requests [new] (newest first). *)
Definition sends (new : list Request) (w w' : World) : Prop :=
  sent w' = new ++ sent w /\ server w' = server w /\ randoms w' = randoms w /\ now w' = now w.

(** ** Properties of servers and of computations *)

(** The client [c] with another media token. *)
Definition with_mediaToken (c : SiftClient) (token : option string) : SiftClient :=
  {| baseUrl := baseUrl c; dataToken := dataToken c; mediaToken := token;
     timeoutMs := timeoutMs c; fieldsTtlMs := fieldsTtlMs c; fieldsCache := fieldsCache c |}.

(** A server whose answer depends on the request alone, not on the
    requests made before it. *)
Definition stable (srv : list Request -> FetchOutcome) : Prop :=
  forall r h h', srv (r :: h) = srv (r :: h').

(** Two worlds served by the same stable server. *)
Definition same_server (w1 w2 : World) : Prop :=
  stable (server w1) /\ server w2 = server w1.

(** A computation whose outcome is the same in any two such worlds. *)
Definition world_blind {A} (m : M A) : Prop :=
  forall w1 w2, same_server w1 w2 ->
    (m w1).1 = (m w2).1 /\ same_server (m w1).2 (m w2).2.

(** The request carries the headers that the client [c] builds. *)
Definition carries (c : SiftClient) (r : Request) : Prop :=
  headers r = mkHeaders c (method r).

(** Every request that the computation hands to [fetch] satisfies [P]. *)
Definition requests {A} (P : Request -> Prop) (m : M A) : Prop :=
  forall w, exists new, sends new w (m w).2 /\ Forall P new.

(** A server none of whose search pages carries a truthy [next] link. *)
Definition single_page (srv : list Request -> FetchOutcome) : Prop :=
  forall h res r, srv h = Response res -> json res = Some (JSearch r) ->
    truthy (links_next r) = false.

(** A computation that leaves the server of the world as it is. *)
Definition keeps_server {A} (m : M A) : Prop :=
  forall w, server (m w).2 = server w.

(** What is left to do in the walk: the items queued, and the room under
    the node cap. *)
Definition walk_measure (N : Z) (st : W.t) : nat :=
  (length (W.queue st) + Z.to_nat (N - Map_size (W.nodesMap st)))%nat.

(** ** Concrete worlds *)

(** A server that answers the [k]-th request with the [k]-th entry of a
    script, and with [dflt] once the script is used up. *)
Definition scripted (script : list FetchOutcome) (dflt : FetchOutcome)
    : list Request -> FetchOutcome :=
  fun h => nth (length h - 1) script dflt.

Definition world_of (srv : list Request -> FetchOutcome) (rnd : Q) : World :=
  {| server := srv; sent := []; randoms := fun _ => rnd; drawn := 0; slept := [];
     now := 0 |}.

Definition plain (st : Z) (stText : string) (body : string) (j : option Json) : Resp :=
  {| status := st; statusText := stText; retry_after := RaAbsent; text := Some body;
     json := j |}.

Definition client0 : SiftClient :=
  {| baseUrl := "https://api.justsift.com/v1"; dataToken := "data-token";
     mediaToken := Some "media-token"; timeoutMs := 15000; fieldsTtlMs := 600000;
     fieldsCache := None |}.

Definition not_found : FetchOutcome := Response (plain 404 "Not Found" "missing" None).
Definition unavailable : FetchOutcome := Response (plain 503 "Service Unavailable" "" None).
Definition ok_person (p : PersonBase) : FetchOutcome :=
  Response (plain 200 "OK" "" (Some (JPerson (Some p)))).

Definition person (i : string) (leader : option string) (reports : Z) : PersonBase :=
  {| id := Some i; displayName := None; teamLeaderId := leader;
     directReportCount := Some reports; reportingPath := None |}.

Definition backoff_world_503 : World :=
  world_of (scripted
              [Response {| status := 503; statusText := "Service Unavailable";
                           retry_after := RaNumber (inject_Z 1200); text := Some "";
                           json := None |}]
              (ok_person (person "p1" None 0))) (1 # 2).

Definition backoff_world_reset : World :=
  world_of (scripted [NetFail "connection reset"] (ok_person (person "p1" None 0))) (1 # 2).

Definition backoff_request : Request :=
  {| method := GET; url := "https://api.justsift.com/v1/people/p1";
     headers := mkHeaders client0 GET; payload := None |}.

Definition department_field : FieldMeta :=
  {| objectKey := "department"; name := "Department"; type := "string" |}.

Definition fields_world (t : Z) : World :=
  {| server := scripted [] (Response (plain 200 "OK" "" (Some (JFields (Some [department_field])))));
     sent := []; randoms := fun _ => 0%Q; drawn := 0; slept := []; now := t |}.

Definition plain_url (s : string) : URL := {| href_base := s; searchParams := [] |}.

Definition photo_opts (token : bool) : MediaOpts :=
  {| preferredType := Some official; height := Some 128; width := None; fit := None;
     tokenInQuery := token |}.

(** A directory service over a fixed list of people: GET /people/<key>
    answers the person with that id (404 without one), and the structured
    search answers, in one page, the people whose [teamLeaderId] is the
    value of the filter. Any other request fails at the network level. *)
Definition directory (base : string) (people : list PersonBase)
    : list Request -> FetchOutcome :=
  fun h =>
    match h with
    | [] => NetFail "no request"
    | r :: _ =>
      match method r, payload r with
      | GET, _ =>
        match List.find (fun p => String.eqb (url r)
                 (base +:+ "/people/" +:+ encodeURIComponent (id_or_empty p))) people with
        | Some p => ok_person p
        | None => not_found
        end
      | POST, Some (PSearch b) =>
        match filter b with
        | Some cond =>
          Response (plain 200 "OK" ""
            (Some (JSearch
               {| data := Some (List.filter
                    (fun p => bool_decide (teamLeaderId p = value cond)) people);
                  links_next := None |})))
        | None => NetFail "no filter"
        end
      | POST, _ => NetFail "no body"
      end
    end.

(** The organisation of the specification's scenario: the root has the
    direct subordinates A and B, A has A1 and A2, B has none. *)
Definition scenario_people : list PersonBase :=
  [ person "root" None 2;
    person "A" (Some "root") 2; person "B" (Some "root") 0;
    person "A1" (Some "A") 0; person "A2" (Some "A") 0 ].

Definition scenario_world : World :=
  world_of (directory (baseUrl client0) scenario_people) 0.

Definition scenario_opts (seed : bool) (depth nodes_ : option Z) : Opts.t :=
  {| Opts.includeManager := seed; Opts.maxDepth := depth; Opts.maxNodes := nodes_;
     Opts.pageSize := None |}.

(** The server of the unit test of pagination: the first page holds a and
    b and a [next] link, the second page repeats b and adds c. *)
Definition two_pages : list Request -> FetchOutcome :=
  fun h =>
    match h with
    | [] => NetFail "no request"
    | r :: _ =>
      match method r with
      | POST =>
        Response (plain 200 "OK" ""
          (Some (JSearch {| data := Some [person "a" (Some "mgr") 0; person "b" (Some "mgr") 0];
                            links_next := Some "https://api.justsift.com/v1/search/people?page=2" |})))
      | GET =>
        Response (plain 200 "OK" ""
          (Some (JSearch {| data := Some [person "b" (Some "mgr") 0; person "c" (Some "mgr") 0];
                            links_next := None |})))
      end
    end.

(** What a stable server makes of a person lookup. *)
Definition person_of (c : SiftClient) (srv : list Request -> FetchOutcome) (i : string)
    : option PersonBase :=
  match (getPerson c (Some i) (world_of srv 0)).1 with
  | Ok p => p
  | _ => None
  end.

(** The people of the unit test of [getOrgChain]. *)
Definition chain_people : list PersonBase :=
  [ {| id := Some "p1"; displayName := None; teamLeaderId := Some "l2";
       directReportCount := Some 0; reportingPath := Some ["l1"; "l2"] |};
    {| id := Some "l1"; displayName := Some "Leader 1"; teamLeaderId := None;
       directReportCount := Some 1; reportingPath := None |};
    {| id := Some "l2"; displayName := Some "Leader 2"; teamLeaderId := Some "l1";
       directReportCount := Some 1; reportingPath := Some ["l1"] |} ].

(** ** Reading the transport *)

(** The request that [requestJsonByUrl] hands to [fetch]. *)
Definition mkRequest (c : SiftClient) (m : Method) (u : string)
    (body : option SearchPostBody) : Request :=
  {| method := m; url := u; headers := mkHeaders c m;
     payload := match m with
                | POST => Some (match body with Some b => PSearch b | None => PEmpty end)
                | GET => None
                end |}.

(** The answer of the server of [w] to the [i]-th of a run of identical
    requests [req] that starts in [w]. *)
Definition answer (w : World) (req : Request) (i : nat) : FetchOutcome :=
  server w (replicate i req ++ sent w).

(** The exception that an answer raises inside the [try] block of the
    transport, if it raises one: a rejected [fetch], a status outside 2xx,
    or a body that is not JSON. *)
Definition failure (req : Request) (out : FetchOutcome) : option Error :=
  match out with
  | NetFail msg => Some (FetchError msg)
  | Response res =>
    if status res =? 204 then None
    else if negb (res_ok res)
    then Some (HttpError (method req) (url req) (status res) (statusText res)
                 (default "" (text res)))
    else match json res with Some _ => None | None => Some JsonError end
  end.

(** What the transport returns for an answer that raises nothing. *)
Definition body_of (out : FetchOutcome) : option Json :=
  match out with
  | NetFail _ => None
  | Response res => if status res =? 204 then None else json res
  end.

(** What a run of [n] attempts of the transport loop has done, from the
    world [w] and the count [attempt] to the world [w'] and the outcome
    [o]: the same request went out [n] times, with a sleep between two
    attempts, every answer but the last raised, and the last answer decided
    the outcome. *)
Definition ran (req : Request) (attempt : Z) (w : World) (o : Outcome (option Json))
    (w' : World) (n : nat) : Prop :=
  (1 <= n)%nat /\ attempt + Z.of_nat n <= maxAttempts /\
  sent w' = replicate n req ++ sent w /\
  server w' = server w /\
  length (slept w') = (length (slept w) + n - 1)%nat /\
  (forall i, (1 <= i < n)%nat -> failure req (answer w req i) <> None) /\
  match failure req (answer w req n) with
  | None => o = Ok (body_of (answer w req n))
  | Some e => attempt + Z.of_nat n = maxAttempts /\ o = Throw e
  end.

(** A request of the traversal helpers: a GET without a body, or the
    structured search for the direct subordinates of one leader whose id
    is not empty, first page, with a page size from 1 to 100. *)
Definition walker_request (c : SiftClient) (r : Request) : Prop :=
  match method r with
  | GET => payload r = None
  | POST =>
    url r = baseUrl c +:+ "/search/people" /\
    exists key ps, truthy key = true /\ 1 <= ps <= 100 /\
      payload r = Some (PSearch {| page := Some 1; pageSize := Some ps;
                                   filter := Some (teamLeader_filter key) |})
  end.

(** What the walk has left of its budget, [s0] being the number of nodes
    it started with: every item expanded or waiting was pushed, and every
    push but the first followed a node added under the cap [N]. *)
Definition walk_budget (N s0 : Z) (st : W.t) : Prop :=
  W.expanded st + Z.of_nat (length (W.queue st)) <= W.pushes st /\
  W.pushes st <= 1 + (Map_size (W.nodesMap st) - s0) /\
  (Map_size (W.nodesMap st) = s0 \/ Map_size (W.nodesMap st) < N) /\
  0 <= s0 <= Map_size (W.nodesMap st).

(** The counters of the walk: one [getDirectReports] call per expansion,
    and a depth reached between 0 and the depth cap. *)
Definition walk_counters (D : Z) (st : W.t) : Prop :=
  W.apiCalls st = W.expanded st /\ 0 <= W.expanded st /\
  0 <= W.depthReached st <= Z.max 0 D.

(** [e.personId], read as a string. *)
Definition target (e : Edge) : string := default "" (personId e).

(** The nodes that [getOrgSubtree] starts with: the manager, when it is
    asked for, was found and has an id. *)
Definition seed_nodes (manager_ : option PersonBase) (opts : Opts.t) : list PersonBase :=
  match manager_ with
  | Some m => if seeded manager_ opts then [m] else []
  | None => []
  end.

(** The node map holds the seed and then, in the order of their first
    appearance, the targets of the edges that are not in the seed; every
    key is the id of its value and is not empty, and so is the target of
    every edge. *)
Definition nodes_follow_edges (seed : list PersonBase) (st : W.t) : Prop :=
  exists added,
    W.nodesMap st = ((fun p => (id p, p)) <$> seed) ++ added /\
    Forall (fun kv : option string * PersonBase => kv.1 = id kv.2 /\ truthy kv.1 = true)
      (W.nodesMap st) /\
    Forall (fun e => truthy (personId e) = true) (W.edges st) /\
    id_or_empty <$> added.*2 =
      dedupe_from (list_to_set (id_or_empty <$> seed)) (target <$> W.edges st).

(** The number of POST requests among [l]. *)
Definition posts (l : list Request) : Z :=
  Z.of_nat (length (List.filter
                      (fun r => match method r with POST => true | GET => false end) l)).

(** People whose reporting path names a superior that the directory does
    not hold. *)
Definition broken_chain_people : list PersonBase :=
  [ {| id := Some "p1"; displayName := None; teamLeaderId := Some "gone";
       directReportCount := Some 0; reportingPath := Some ["l1"; "gone"] |};
    {| id := Some "l1"; displayName := Some "Leader 1"; teamLeaderId := None;
       directReportCount := Some 1; reportingPath := None |} ].

(** A server every answer of which is a search page that carries a [next]
    link. *)
Definition always_next (srv : list Request -> FetchOutcome) : Prop :=
  forall h, exists res r,
    srv h = Response res /\ status res <> 204 /\ res_ok res = true /\
    json res = Some (JSearch r) /\ truthy (links_next r) = true.

(** Such a server: the same page, with the same link, for ever. *)
Definition endless : list Request -> FetchOutcome :=
  fun _ =>
    Response (plain 200 "OK" ""
      (Some (JSearch {| data := Some [person "a" (Some "mgr") 0];
                        links_next := Some "https://api.justsift.com/v1/search/people?page=2" |}))).

(** Two people who report to each other. *)
Definition cycle_people : list PersonBase :=
  [ person "a" (Some "b") 1; person "b" (Some "a") 1 ].

(** * The wrappers (src/chatbot_sift_client.ts, src/skills_client.ts)

    Both wrappers hold the [SiftClient] they were given; its metadata cache
    travels with them. *)

(** ** ChatbotSiftClient: the field list *)

Module Chatbot.
Record t := {
  client : SiftClient;
  fieldsCache : option (list FieldMeta)    (* [FieldMeta[] | null] *)
}.

(** The constructor. *)
Definition new (c : SiftClient) : t := {| client := c; fieldsCache := None |}.

(** [getAvailableFields]: an array, even an empty one, is truthy. The
    wrapper after the call is returned next to the result. *)
Definition getAvailableFields (s : t) : M (list FieldMeta * t) :=
  match fieldsCache s with
  | Some items => ret (items, s)
  | None =>
    r <- getFields (client s) false ;;
    ret (r.1, {| client := r.2; fieldsCache := Some r.1 |})
  end.
End Chatbot.

(** ** SkillsClient: the schema and the canonical names *)

Module Skills.
Record SkillsSchema := {
  skillsNameKey : option string;
  skillsLevelKey : option string;
  skillsFeaturedKey : option string;
  languageSkillsKey : option string;
  languageLevelKey : option string
}.

Record t := {
  client : SiftClient;
  schema : option SkillsSchema
}.

(** The constructor. *)
Definition new (c : SiftClient) : t := {| client := c; schema := None |}.

(** The [for (const candidate of candidates)] loop of [findFieldKey]. *)
Fixpoint findFieldKey_loop (fields : list FieldMeta) (candidates : list string)
    : option string :=
  match candidates with
  | [] => None
  | candidate :: rest =>
    match List.find (fun f => String.eqb (objectKey f) candidate) fields with
    | Some _ => Some candidate
    | None => findFieldKey_loop fields rest
    end
  end.

(** [candidates[0]] is [undefined] for an empty array. *)
Definition findFieldKey (fields : list FieldMeta) (candidates : list string)
    : option string :=
  match findFieldKey_loop fields candidates with
  | Some candidate => Some candidate
  | None => head candidates
  end.

(** [initialize]; the client after the call is returned. *)
Definition initialize (s : t) : M t :=
  match schema s with
  | Some _ => ret s
  | None =>
    r <- getFields (client s) false ;;
    let fields := r.1 in
    ret {| client := r.2;
           schema := Some
             {| skillsNameKey := findFieldKey fields ["skills.name"];
                skillsLevelKey := findFieldKey fields ["skills.level"];
                skillsFeaturedKey := findFieldKey fields ["skills.isFeatured"];
                languageSkillsKey := findFieldKey fields ["languages.proficiency.skills"];
                languageLevelKey := findFieldKey fields ["languages.proficiency.level"] |} |}
  end.

(** The alias table, in the insertion order of the [Map]. *)
Definition skillAliases : list (string * list string) :=
  [ ("javascript", ["js"; "node"; "nodejs"; "node.js"]);
    ("typescript", ["ts"]);
    ("python", ["py"]);
    ("c#", ["csharp"; "c-sharp"; "c sharp"; "dotnet"; ".net"]);
    ("c++", ["cpp"; "cplusplus"]);
    ("objective-c", ["objc"; "objective c"]);
    ("react", ["reactjs"; "react.js"]);
    ("angular", ["angularjs"]);
    ("vue", ["vuejs"; "vue.js"]);
    ("next.js", ["nextjs"; "next"]);
    ("express", ["expressjs"; "express.js"]);
    ("postgresql", ["postgres"; "psql"]);
    ("mysql", ["my sql"]);
    ("mongodb", ["mongo"]);
    ("amazon web services", ["aws"]);
    ("google cloud platform", ["gcp"; "google cloud"]);
    ("microsoft azure", ["azure"]);
    ("kubernetes", ["k8s"]);
    ("docker", ["containerization"]);
    ("machine learning", ["ml"; "artificial intelligence"; "ai"]);
    ("user experience", ["ux"]);
    ("user interface", ["ui"]);
    ("search engine optimization", ["seo"]) ].

(** [aliases.includes(normalized) || canonical === normalized] *)
Definition alias_hit (normalized : string) (entry : string * list string) : bool :=
  existsb (String.eqb normalized) entry.2 || String.eqb entry.1 normalized.

(** The [operator] argument of [buildSkillFilters]. *)
Inductive Operator := op_and | op_or.

(** What [buildSkillFilters] pushes for one skill: the condition itself, or
    an [or] group of several. *)
Inductive SkillFilter :=
| FCondition (cond : Condition)
| FOr (conds : list Condition).

Section Canonical.
(** [String.prototype.toLowerCase], [String.prototype.trim] and the two
    regular-expression replacements are the platform's. *)
Variable toLowerCase : string -> string.
Variable trim : string -> string.
Variable remove_special : string -> string.      (* [.replace(/[^\w\s+.-]/g, '')] *)
Variable collapse_whitespace : string -> string. (* [.replace(/\s+/g, ' ')] *)

Definition canonicalizeSkill (skill : string) : list string :=
  let normalized := trim (toLowerCase skill) in
  match List.find (alias_hit normalized) skillAliases with
  | Some entry => [entry.1]
  | None => [trim (collapse_whitespace (remove_special normalized))]
  end.

(** The body of the [for (const skill of skills)] loop. *)
Definition skill_filters (key : string) (skill : string) : list SkillFilter :=
  let canonicalSkills := canonicalizeSkill skill in
  let skillFilters :=
    map (fun canonical => {| field := key; comparison := eq_; value := Some canonical |})
      canonicalSkills in
  match skillFilters with
  | [] => []
  | [f] => [FCondition f]
  | _ => [FOr skillFilters]
  end.

(** [buildSkillFilters]; the body does not read [operator]. *)
Definition buildSkillFilters (s : t) (skills : list string) (operator : Operator)
    : list SkillFilter :=
  match schema s with
  | Some sch =>
    if truthy (skillsNameKey sch)
    then concat (map (skill_filters (default "" (skillsNameKey sch))) skills)
    else []
  | None => []
  end.
End Canonical.
End Skills.

(** ** Reading the delays *)

(** The sum of a list of delays. *)
Definition total_delay (ds : list Q) : Q := fold_right Qplus 0%Q ds.

(** A server none of whose responses names a delay: the [retry-after]
    header is absent, not a number, or zero. *)
Definition names_no_delay (srv : list Request -> FetchOutcome) : Prop :=
  forall h res q, srv h = Response res -> retry_after res = RaNumber q -> (q == 0)%Q.

(** [Math.random()] answers in the interval from 0 (included) to 1
    (excluded). *)
Definition unit_randoms (rnd : nat -> Q) : Prop :=
  forall n, (0 <= rnd n)%Q /\ (rnd n < 1)%Q.

(** The longest that the transport can still sleep from the count
    [attempt] on: 500 ms after the first attempt, 1000 ms after the
    second. *)
Definition delay_left (attempt : Z) : Z :=
  if attempt <? 1 then 1500 else if attempt <? 2 then 1000 else 0.

(** ** Reading a media URL *)

(** The entries of a query named [key]. *)
Definition params_get (key : string) (ps : list (string * string)) : list (string * string) :=
  List.filter (fun kv : string * string => String.eqb kv.1 key) ps.

(** The value that [makeMediaUrl] gives the query parameter [key], when it
    sets that parameter at all. *)
Definition media_param (String_of_number : Z -> string) (c : SiftClient)
    (opts : MediaOpts) (key : string) : option string :=
  if String.eqb key "token"
  then (if tokenInQuery opts && truthy (mediaToken c) then mediaToken c else None)
  else if String.eqb key "fit" then fit_string <$> fit opts
  else if String.eqb key "width" then String_of_number <$> width opts
  else if String.eqb key "height" then String_of_number <$> height opts
  else if String.eqb key "preferredType" then preferred_string <$> preferredType opts
  else None.

(** ** Reading the order of the walk *)

(** A list of depths that never goes down. *)
Definition nondecreasing (l : list Z) : Prop :=
  forall i j a b, (i <= j)%nat -> l !! i = Some a -> l !! j = Some b -> a <= b.

(** The depths at which the edges were recorded, edge by edge. *)
Definition edge_depths (st : W.t) : list Z := (W.origins st).*2.

(** The depths of the items waiting in the queue. *)
Definition queue_depths (st : W.t) : list Z := QueueItem.depth <$> W.queue st.

(** The walk goes level by level: the edges so far were recorded at depths
    that never went down and never exceeded the depth of an item still
    waiting; the queue is sorted by depth and spans two levels at most. *)
Definition level_order (st : W.t) : Prop :=
  nondecreasing (edge_depths st) /\ nondecreasing (queue_depths st) /\
  (forall o q, o ∈ edge_depths st -> q ∈ queue_depths st -> o <= q) /\
  (forall q1 q2, q1 ∈ queue_depths st -> q2 ∈ queue_depths st -> q2 <= q1 + 1).

(** The same while the batch of an item of depth [d] is processed. *)
Definition level_order_at (d : Z) (st : W.t) : Prop :=
  nondecreasing (edge_depths st) /\ nondecreasing (queue_depths st) /\
  Forall (fun o => o <= d) (edge_depths st) /\
  Forall (fun q => d <= q <= d + 1) (queue_depths st).

(** The constructor options with another [baseUrl]. *)
Definition with_baseUrl (opts : ClientOptions.t) (u : option string) : ClientOptions.t :=
  {| ClientOptions.dataToken := ClientOptions.dataToken opts;
     ClientOptions.mediaToken := ClientOptions.mediaToken opts;
     ClientOptions.baseUrl := u;
     ClientOptions.timeoutMs := ClientOptions.timeoutMs opts;
     ClientOptions.fieldsTtlMs := ClientOptions.fieldsTtlMs opts |}.

(** ** Worlds *)

Lemma sends_refl w : sends [] w w.
Proof. by rw /sends. Qed.

Lemma sends_trans new1 new2 w1 w2 w3 :
  sends new1 w1 w2 -> sends new2 w2 w3 -> sends (new2 ++ new1) w1 w3.
Proof.
  intros (Hs1 & Hv1 & Hr1 & Hn1) (Hs2 & Hv2 & Hr2 & Hn2).
  rw /sends Hs2 Hs1 Hv2 Hv1 Hr2 Hr1 Hn2 Hn1 app_assoc //.
Qed.

Lemma sends_fetch req w : sends [req] w (after (fetch req) w).
Proof. by rw /sends. Qed.

Lemma sends_sleep d w : sends [] w (after (sleep d) w).
Proof. by rw /sends. Qed.

Lemma sends_random w : sends [] w (after Math_random w).
Proof. by rw /sends. Qed.

(** ** Transport *)

(** The loop sends the same request at every attempt, at most [fuel] times. *)
Lemma request_loop_sends fuel : forall req attempt lastErr w,
  exists n, (n <= fuel)%nat /\
    sends (replicate n req) w (after (request_loop fuel req attempt lastErr) w).
Proof.
  induction fuel as [|fuel IH]; intros req attempt lastErr w; rw /after /=.
  - exists 0%nat. split; [lia|]. destruct (attempt <? maxAttempts); apply sends_refl.
  - destruct (attempt <? maxAttempts); [|exists 0%nat; split; [lia|apply sends_refl]].
    rw {1}/bind {1}/fetch /=.
    set (w1 := {| server := server w; sent := req :: sent w |}).
    assert (Hw1 : sends [req] w w1) by done.
    assert (Hone : exists n, (n <= S fuel)%nat /\ sends (replicate n req) w w1).
    { exists 1%nat. split; [lia|done]. }
    assert (Hcatch : forall err, exists n, (n <= S fuel)%nat /\
      sends (replicate n req) w
        ((if attempt + 1 >=? maxAttempts then throw err
          else r <- Math_random ;; (sleep (jittered (attempt + 1) r) ;;;
               request_loop fuel req (attempt + 1) (Some err))) w1).2).
    { intros err. destruct (attempt + 1 >=? maxAttempts); [done|].
      rw /bind /=.
      match goal with |- context [request_loop fuel req ?a ?l ?w2] =>
        destruct (IH req a l w2) as (n & Hn & Hs); set (w3 := w2) in * end.
      exists (S n). split; [lia|].
      replace (replicate (S n) req) with (replicate n req ++ [req]);
        last by rw -replicate_cons_app.
      rw /after in Hs. destruct (request_loop _ _ _ _ w3) as [[?|?|] w4]; simpl in *;
        (eapply sends_trans; [|exact Hs]; done). }
    destruct (server w (req :: sent w)) as [msg|res]; [apply Hcatch|].
    destruct (status res =? 204); [done|].
    destruct (negb (res_ok res)).
    + destruct ((status res =? 429) || (status res >=? 500)); simpl; [|apply Hcatch].
      destruct (attempt + 1 <? maxAttempts); [|apply Hcatch].
      rw /bind /=.
      match goal with |- context [request_loop fuel req ?a ?l ?w2] =>
        destruct (IH req a l w2) as (n & Hn & Hs); set (w3 := w2) in * end.
      exists (S n). split; [lia|].
      replace (replicate (S n) req) with (replicate n req ++ [req]);
        last by rw -replicate_cons_app.
      rw /after in Hs. destruct (request_loop _ _ _ _ w3) as [[?|?|] w4]; simpl in *;
        (eapply sends_trans; [|exact Hs]; done).
    + destruct (json res); [done|apply Hcatch].
Qed.

(** Three units of fuel are enough: the loop never runs out. *)
Lemma request_loop_total fuel : forall req attempt lastErr w,
  maxAttempts - attempt <= Z.of_nat fuel ->
  result (request_loop fuel req attempt lastErr) w <> Diverge.
Proof.
  induction fuel as [|fuel IH]; intros req attempt lastErr w Hfuel; rw /result /=.
  - destruct (attempt <? maxAttempts) eqn:Hlt; [rw /maxAttempts in Hfuel Hlt; lia|done].
  - destruct (attempt <? maxAttempts) eqn:Hlt; [|done].
    rw {1}/bind {1}/fetch /=.
    assert (Hrec : forall l w', (request_loop fuel req (attempt + 1) l w').1 <> Diverge).
    { intros l w'. apply (IH req (attempt + 1) l w'). lia. }
    assert (Hcatch : forall err w1,
      ((if attempt + 1 >=? maxAttempts then throw err
        else r <- Math_random ;; (sleep (jittered (attempt + 1) r) ;;;
             request_loop fuel req (attempt + 1) (Some err))) w1).1 <> Diverge).
    { intros err w1. destruct (attempt + 1 >=? maxAttempts); [done|].
      rw /bind /=.
      match goal with |- context [request_loop fuel req ?a ?l ?w2] =>
        specialize (Hrec l w2); destruct (request_loop fuel req a l w2) as [[?|?|] ?] end;
        done. }
    destruct (server w (req :: sent w)) as [msg|res]; [apply Hcatch|].
    destruct (status res =? 204); [done|].
    destruct (negb (res_ok res)).
    + destruct ((status res =? 429) || (status res >=? 500)); simpl; [|apply Hcatch].
      destruct (attempt + 1 <? maxAttempts); [|apply Hcatch].
      rw /bind /=.
      match goal with |- context [request_loop fuel req ?a ?l ?w2] =>
        specialize (Hrec l w2); destruct (request_loop fuel req a l w2) as [[?|?|] ?] end;
        done.
    + destruct (json res); [done|apply Hcatch].
Qed.

(** The first iteration always calls [fetch]. *)
Lemma request_loop_first fuel req lastErr w :
  exists new, sends (new ++ [req]) w (after (request_loop (S fuel) req 0 lastErr) w).
Proof.
  rw /after /=. rw {1}/bind {1}/fetch /=.
  set (w1 := {| server := server w; sent := req :: sent w |}).
  assert (Hw1 : sends [req] w w1) by done.
  assert (Hrec : forall l w2, sends [] w1 w2 ->
    exists new, sends (new ++ [req]) w (request_loop fuel req (0 + 1) l w2).2).
  { intros l w2 Hw2.
    destruct (request_loop_sends fuel req (0 + 1) l w2) as (n & _ & Hs).
    exists (replicate n req).
    eapply sends_trans; [|exact Hs]. eapply (sends_trans [req] []); done. }
  assert (Hcatch : forall err, exists new, sends (new ++ [req]) w
    ((if 0 + 1 >=? maxAttempts then throw err
      else r <- Math_random ;; (sleep (jittered (0 + 1) r) ;;;
           request_loop fuel req (0 + 1) (Some err))) w1).2).
  { intros err. simpl. rw /bind /=. apply Hrec. done. }
  destruct (server w (req :: sent w)) as [msg|res]; [apply Hcatch|].
  destruct (status res =? 204); [by exists []|].
  destruct (negb (res_ok res)).
  - destruct ((status res =? 429) || (status res >=? 500)); simpl; [|apply Hcatch].
    rw /bind /=. apply Hrec. done.
  - destruct (json res); [by exists []|apply Hcatch].
Qed.

(** Every call of [requestJsonByUrl] hands one and the same request to
    [fetch], between one and three times, and settles. *)
Lemma requestJsonByUrl_sends c m u body w :
  exists n req, (1 <= n <= 3)%nat /\
    method req = m /\ url req = u /\ headers req = mkHeaders c m /\
    sends (replicate n req) w (after (requestJsonByUrl c m u body) w).
Proof.
  rw /requestJsonByUrl.
  match goal with |- context [request_loop _ ?r 0 None] => set (req := r) end.
  destruct (request_loop_sends (Z.to_nat maxAttempts) req 0 None w) as (n & Hn & Hs).
  destruct (request_loop_first 2 req None w) as (new & Hnew).
  exists n, req. split; [|by repeat (split; [done|])].
  change (Z.to_nat maxAttempts) with 3%nat in Hn, Hs. split; [|exact Hn].
  destruct n; [|lia].
  destruct Hs as [Hs _], Hnew as [Hnew _]. rw /after in Hs Hnew.
  rw Hs /= in Hnew. apply (f_equal length) in Hnew.
  rw !length_app /= in Hnew. lia.
Qed.

Lemma requestJsonByUrl_total c m u body w :
  result (requestJsonByUrl c m u body) w <> Diverge.
Proof. apply request_loop_total. done. Qed.

(** A body that the transport returns is the body of a response of the
    server. *)
Lemma request_loop_answer fuel : forall req attempt lastErr w j w',
  request_loop fuel req attempt lastErr w = (Ok (Some j), w') ->
  exists h res, server w h = Response res /\ json res = Some j.
Proof.
  induction fuel as [|fuel IH]; intros req attempt lastErr w j w'; simpl.
  - by destruct (attempt <? maxAttempts).
  - destruct (attempt <? maxAttempts); [|done].
    rw {1}/bind {1}/fetch /=.
    assert (Hcatch : forall err w1, server w1 = server w ->
      (if attempt + 1 >=? maxAttempts then throw err
       else r <- Math_random ;; (sleep (jittered (attempt + 1) r) ;;;
            request_loop fuel req (attempt + 1) (Some err))) w1 = (Ok (Some j), w') ->
      exists h res, server w h = Response res /\ json res = Some j).
    { intros err w1 Hw1. destruct (attempt + 1 >=? maxAttempts); [done|].
      rw /bind /=. intros (h & res & Hh & Hres)%IH. simpl in Hh. rw Hw1 in Hh. eauto. }
    destruct (server w (req :: sent w)) as [msg|res] eqn:Hsrv; [by apply Hcatch|].
    destruct (status res =? 204); [done|].
    destruct (negb (res_ok res)).
    + destruct (((status res =? 429) || (status res >=? 500)) &&
                (attempt + 1 <? maxAttempts)); [|by apply Hcatch].
      rw /bind /=. intros (h & res' & Hh & Hres)%IH. eauto.
    + destruct (json res) as [j'|] eqn:Hj; [|by apply Hcatch].
      intros [= <- <-]. eauto.
Qed.

Lemma getPerson_server c key w : server (after (getPerson c key) w) = server w.
Proof.
  rw /after /getPerson. destruct (negb (truthy key)); [done|].
  rw /bind /requestJson.
  destruct (requestJsonByUrl_sends c GET (baseUrl c +:+ "/people/" +:+
              encodeURIComponent (default "" key)) None w)
    as (n & req & _ & _ & _ & _ & _ & Hsrv & _).
  rw /after in Hsrv. by destruct (requestJsonByUrl c GET _ None w) as [[?|?|] ?].
Qed.

(** Two 503 responses and then a 200: success at the third attempt. *)
Lemma request_503_503_200 :
  let w := world_of (scripted [unavailable; unavailable] (ok_person (person "p1" None 0)))
             (1 # 2) in
  let call := requestJsonByUrl client0 GET "https://api.justsift.com/v1/people/p1" None in
  result call w = Ok (Some (JPerson (Some (person "p1" None 0)))) /\
  attempts call w = 3%nat /\
  slept (after call w) = [inject_Z 1000; inject_Z 500].
Proof. vm_compute. done. Qed.

(** C2 (divergence of the code). The [throw] for a failed status sits
    inside the [try] block, so the [catch] meant for network failures takes
    it: a 404 is retried. With a server that always answers 404 the call
    fails only after three attempts, and with a 404 followed by a 200 it
    succeeds at the second attempt. *)
Theorem request_404_is_retried :
  let u := "https://api.justsift.com/v1/people/nobody" in
  let call := requestJsonByUrl client0 GET u None in
  (let w := world_of (scripted [] not_found) (1 # 2) in
   result call w = Throw (HttpError GET u 404 "Not Found" "missing") /\
   attempts call w = 3%nat) /\
  (let w := world_of (scripted [not_found] (ok_person (person "nobody" None 0))) (1 # 2) in
   result call w = Ok (Some (JPerson (Some (person "nobody" None 0)))) /\
   attempts call w = 2%nat).
Proof. vm_compute. done. Qed.

(** ** Backoff *)

(** C6 (counterexample). A 503 without [retry-after] is followed by a delay
    of exactly 250 * 2^1 = 500 ms whatever [Math.random] would return, and
    no random number is drawn: the status path has no jitter. After a
    network failure the base unit is 200 ms, not 250 ms: with
    [Math.random() = 1/2] the delay is 450 ms. *)
Lemma backoff_status_path_has_no_jitter :
  let u := "https://api.justsift.com/v1/people/p1" in
  let call := requestJsonByUrl client0 GET u None in
  let answer := ok_person (person "p1" None 0) in
  (let w r := world_of (scripted [unavailable] answer) r in
   slept (after call (w (1 # 4)%Q)) = [inject_Z 500] /\
   slept (after call (w (3 # 4)%Q)) = [inject_Z 500] /\
   drawn (after call (w (1 # 4)%Q)) = 0%nat) /\
  (let w := world_of (scripted [NetFail "connection reset"] answer) (1 # 2) in
   map Qred (slept (after call w)) = [inject_Z 450] /\
   drawn (after call w) = 1%nat).
Proof. vm_compute. done. Qed.

Lemma transient_not_ok res :
  status res = 429 \/ 500 <= status res ->
  (status res =? 204) = false /\ negb (res_ok res) = true /\
  (status res =? 429) || (status res >=? 500) = true.
Proof.
  intros Hst. rw /res_ok. repeat split.
  - lia.
  - apply negb_true_iff, andb_false_iff. lia.
  - apply orb_true_iff. lia.
Qed.

(** C6 (amended). On an attempt that is not the last one:
    - a 429 or 5xx response is followed by a delay of [retryAfter]: the
      numeric value of the [retry-after] header when it is a number other
      than 0, and otherwise exactly 250 * 2^attempt ms, without jitter;
    - a network-level failure is followed by a delay of
      200 * 2^attempt + 100 * [Math.random()] ms.
    In both cases the loop then makes the next attempt. *)
Theorem backoff_delay fuel req attempt lastErr w :
  attempt + 1 < maxAttempts ->
  (forall res, server w (req :: sent w) = Response res ->
     status res = 429 \/ 500 <= status res ->
     let d := retryAfter res (attempt + 1) in
     request_loop (S fuel) req attempt lastErr w =
       request_loop fuel req (attempt + 1) lastErr
         (after (sleep d) (after (fetch req) w)) /\
     (forall q, retry_after res = RaNumber q -> ~ (q == 0)%Q -> d = q) /\
     (retry_after res = RaAbsent \/ retry_after res = RaOther \/
      (exists q, retry_after res = RaNumber q /\ (q == 0)%Q) ->
      d = inject_Z (2 ^ (attempt + 1) * 250))) /\
  (forall msg, server w (req :: sent w) = NetFail msg ->
     let r := randoms w (drawn w) in
     let d := jittered (attempt + 1) r in
     request_loop (S fuel) req attempt lastErr w =
       request_loop fuel req (attempt + 1) (Some (FetchError msg))
         (after (sleep d) (after Math_random (after (fetch req) w))) /\
     (d == inject_Z (2 ^ (attempt + 1) * 200) + r * inject_Z 100)%Q).
Proof.
  intros Hatt.
  assert (Hlt : (attempt <? maxAttempts) = true) by lia.
  assert (Hlt1 : (attempt + 1 <? maxAttempts) = true) by lia.
  assert (Hge1 : (attempt + 1 >=? maxAttempts) = false) by lia.
  split.
  - intros res Hres Hst d. split; [|split].
    + destruct (transient_not_ok res Hst) as (H204 & Hok & Htr).
      rw /= Hlt {1}/bind {1}/fetch /= Hres H204 Hok Htr Hlt1 /=. done.
    + intros q Hq Hq0. rw /d /retryAfter Hq.
      destruct (Qeq_bool q 0) eqn:Hb; [|done].
      by apply Qeq_bool_iff in Hb.
    + intros [Hra|[Hra|(q & Hra & Hq0)]]; rw /d /retryAfter Hra //.
      by apply Qeq_bool_iff in Hq0 as ->.
  - intros msg Hres r d. split; [|done].
    rw /= Hlt {1}/bind {1}/fetch /= Hres Hge1. done.
Qed.

Lemma backoff_delay_witness :
  slept (after (request_loop 3 backoff_request 0 None) backoff_world_503)
    = [inject_Z 1200] /\
  map Qred (slept (after (request_loop 3 backoff_request 0 None) backoff_world_reset))
    = [inject_Z 450].
Proof.
  split.
  - destruct (backoff_delay 2 backoff_request 0 None backoff_world_503) as [Hst _];
      [done|].
    destruct (Hst _ eq_refl) as (Heq & _); [by right|].
    rw /after Heq. vm_compute. done.
  - destruct (backoff_delay 2 backoff_request 0 None backoff_world_reset) as [_ Hnet];
      [done|].
    destruct (Hnet _ eq_refl) as (Heq & _).
    rw /after Heq. vm_compute. done.
Defined.

(** ** Caller errors *)

(** C8. An empty or missing key makes [getPerson], and an empty or missing
    [managerId] makes [getDirectReports], throw at once: the world is left
    as it was, so no request has been handed to [fetch]. *)
Theorem caller_error_before_network c key fuel pageSize_ w :
  truthy key = false ->
  getPerson c key w = (Throw (CallerError "getPerson: idOrEmail is required"), w) /\
  getDirectReports fuel c key pageSize_ w =
    (Throw (CallerError "getDirectReports: managerId is required"), w).
Proof. intros Hkey. rw /getPerson /getDirectReports Hkey /=. done. Qed.

Lemma caller_error_before_network_witness :
  (getPerson client0 None (world_of (scripted [] not_found) 0)).2
    = world_of (scripted [] not_found) 0 /\
  (getDirectReports 5 client0 (Some "") 100 (world_of (scripted [] not_found) 0)).1
    = Throw (CallerError "getDirectReports: managerId is required").
Proof.
  split.
  - by rw (proj1 (caller_error_before_network client0 None 0 0 _ eq_refl)).
  - by rw (proj2 (caller_error_before_network client0 (Some "") 5 100 _ eq_refl)).
Defined.

(** ** Metadata cache *)

(** C7 (counterexample). Two calls of [getFields(false)] within the TTL can
    cost more than one
    network fetch: when the service answers the first fetch of
    /fields/person with a 503 and the second with the field list, the first
    call fetches twice (the retry of the transport), the second call not at
    all, and both return the same list. *)
Lemma getFields_first_fetch_is_retried :
  let w := world_of (scripted [unavailable]
                       (Response (plain 200 "OK" ""
                          (Some (JFields (Some [department_field])))))) 0 in
  exists c1 w1,
    getFields client0 false w = (Ok ([department_field], c1), w1) /\
    attempts (getFields client0 false) w = 2%nat /\
    now w1 - now w < fieldsTtlMs client0 /\
    getFields c1 false w1 = (Ok ([department_field], c1), w1) /\
    attempts (getFields c1 false) w1 = 0%nat /\
    (attempts (getFields client0 false) w + attempts (getFields c1 false) w1)%nat = 2%nat.
Proof.
  intros w. eexists _, _.
  split; [vm_compute; reflexivity|].
  repeat split; vm_compute; reflexivity.
Qed.

(** C7 (amended). When a call [getFields(false)] that finds no fresh snapshot
    succeeds, it performs one transport request (GET /fields/person, handed
    to [fetch] between one and three times), and every later call
    [getFields(false)] made while the age of that snapshot is below the TTL
    returns the same items without touching the world: no request at all.
    [getFields(true)] always hands a request to [fetch] and, when it
    succeeds, leaves a cache that is exactly the new snapshot. A client
    built without [fieldsTtlMs] has a TTL of 10 minutes and no snapshot. *)
Theorem getFields_cache_ttl :
  (forall c items c1 w1 w1',
     cache_fresh c (now w1) = false ->
     getFields c false w1 = (Ok (items, c1), w1') ->
     (exists n req, (1 <= n <= 3)%nat /\ method req = GET /\
        url req = baseUrl c +:+ "/fields/person" /\ sends (replicate n req) w1 w1') /\
     (forall w2, now w2 - now w1 < fieldsTtlMs c ->
        getFields c1 false w2 = (Ok (items, c1), w2))) /\
  (forall c w,
     (exists n req, (1 <= n <= 3)%nat /\ method req = GET /\
        url req = baseUrl c +:+ "/fields/person" /\
        sends (replicate n req) w (after (getFields c true) w)) /\
     (forall items c1 w', getFields c true w = (Ok (items, c1), w') ->
        fieldsCache c1 = Some (now w, items) /\ fieldsTtlMs c1 = fieldsTtlMs c /\
        dataToken c1 = dataToken c /\ baseUrl c1 = baseUrl c)) /\
  (forall opts c, new_SiftClient opts = inr c ->
     fieldsCache c = None /\
     (ClientOptions.fieldsTtlMs opts = None -> fieldsTtlMs c = 600000)).
Proof.
  split; [|split].
  - intros c items c1 w1 w1' Hstale. rw /getFields {1}/bind /= Hstale /=.
    rw /requestJson /bind.
    destruct (requestJsonByUrl_sends c GET (baseUrl c +:+ "/fields/person") None w1)
      as (n & req & Hn & Hm & Hu & _ & Hs).
    rw /after in Hs.
    destruct (requestJsonByUrl c GET _ None w1) as [[resp| |] w] eqn:Hreq; [|done|done].
    intros [= <- <- <-]. split; [by exists n, req|].
    intros w2 Hage. rw /Date_now /cache_fresh /=.
    by replace (now w2 - now w1 <? fieldsTtlMs c) with true by lia.
  - intros c w. rw /getFields {1 2}/bind /= /requestJson /bind.
    destruct (requestJsonByUrl_sends c GET (baseUrl c +:+ "/fields/person") None w)
      as (n & req & Hn & Hm & Hu & _ & Hs).
    rw /after in Hs |- *.
    destruct (requestJsonByUrl c GET _ None w) as [[resp| |] w0] eqn:Hreq; simpl;
      (split; [by exists n, req|]); intros items c1 w'; rw Hreq /=; [|done|done].
    by intros [= <- <- <-].
  - intros opts c. rw /new_SiftClient.
    destruct (negb (truthy (ClientOptions.dataToken opts))); [done|].
    intros [= <-]. split; [done|]. by intros ->.
Qed.

Lemma getFields_cache_ttl_witness :
  getFields client0 false (fields_world 1000) =
    (Ok ([department_field],
         {| baseUrl := baseUrl client0; dataToken := dataToken client0;
            mediaToken := mediaToken client0; timeoutMs := 15000; fieldsTtlMs := 600000;
            fieldsCache := Some (1000, [department_field]) |}),
     after (getFields client0 false) (fields_world 1000)) /\
  (getFields {| baseUrl := baseUrl client0; dataToken := dataToken client0;
                mediaToken := mediaToken client0; timeoutMs := 15000;
                fieldsTtlMs := 600000;
                fieldsCache := Some (1000, [department_field]) |}
     false (world_of (scripted [] not_found) 0)).1 =
  Ok ([department_field],
      {| baseUrl := baseUrl client0; dataToken := dataToken client0;
         mediaToken := mediaToken client0; timeoutMs := 15000; fieldsTtlMs := 600000;
         fieldsCache := Some (1000, [department_field]) |}).
Proof.
  assert (Hfirst : getFields client0 false (fields_world 1000) =
    (Ok ([department_field],
         {| baseUrl := baseUrl client0; dataToken := dataToken client0;
            mediaToken := mediaToken client0; timeoutMs := 15000; fieldsTtlMs := 600000;
            fieldsCache := Some (1000, [department_field]) |}),
     after (getFields client0 false) (fields_world 1000))) by (vm_compute; done).
  split; [exact Hfirst|].
  destruct (proj1 getFields_cache_ttl client0 _ _ _ _ eq_refl Hfirst) as [_ Hsecond].
  rw (Hsecond (world_of (scripted [] not_found) 0)); done.
Defined.

(** ** dedupeById *)

Lemma truthy_id x : truthy (id x) = true <-> id_or_empty x <> "".
Proof.
  rw /truthy /id_or_empty. destruct (id x) as [s|]; simpl; [|done].
  rw negb_true_iff. split.
  - by intros Hs%String.eqb_neq.
  - by intros Hs%String.eqb_neq.
Qed.

Lemma id_or_empty_eq x y :
  id_or_empty x <> "" -> id_or_empty y = id_or_empty x -> id y = id x.
Proof.
  rw /id_or_empty. destruct (id x) as [s|], (id y) as [t|]; simpl; congruence.
Qed.

Lemma dedupeById_loop_out arr : forall seen out,
  dedupeById_loop arr seen out = out ++ dedupeById_loop arr seen [].
Proof.
  induction arr as [|x arr IH]; intros seen out; simpl.
  - by rw app_nil_r.
  - destruct (String.eqb (id_or_empty x) "" || bool_decide (id_or_empty x ∈ seen));
      [apply IH|].
    rw (IH _ (out ++ [x])) (IH _ ([] ++ [x])) -app_assoc //.
Qed.

Lemma dedupeById_loop_skip x arr seen :
  id_or_empty x = "" \/ id_or_empty x ∈ seen ->
  dedupeById_loop (x :: arr) seen [] = dedupeById_loop arr seen [].
Proof.
  intros Hskip. simpl.
  destruct (String.eqb (id_or_empty x) "") eqn:He; [done|].
  apply String.eqb_neq in He. destruct Hskip as [?|Hin]; [done|].
  by rw bool_decide_eq_true_2.
Qed.

Lemma dedupeById_loop_keep x arr seen :
  id_or_empty x <> "" -> id_or_empty x ∉ seen ->
  dedupeById_loop (x :: arr) seen [] =
    x :: dedupeById_loop arr ({[id_or_empty x]} ∪ seen) [].
Proof.
  intros Hne Hnin. simpl.
  apply String.eqb_neq in Hne. rw Hne bool_decide_eq_false_2 //=.
  by rw dedupeById_loop_out.
Qed.

Lemma dedupeById_loop_cases x (seen : gset string) :
  (id_or_empty x = "" \/ id_or_empty x ∈ seen) \/
  (id_or_empty x <> "" /\ id_or_empty x ∉ seen).
Proof.
  destruct (decide (id_or_empty x = "")); [by left; left|].
  destruct (decide (id_or_empty x ∈ seen)); [by left; right|by right].
Qed.

(** Every entity kept has a non-empty id that was not seen before, and no
    entity before it in the input carries that id. *)
Lemma dedupeById_loop_first arr : forall seen x,
  x ∈ dedupeById_loop arr seen [] ->
  id_or_empty x <> "" /\ (id_or_empty x ∉ seen) /\
  exists pre post, arr = pre ++ (x :: post) /\
    forall y, y ∈ pre -> id_or_empty y <> id_or_empty x.
Proof.
  induction arr as [|x0 arr IH]; intros seen x Hx; [by apply elem_of_nil in Hx|].
  destruct (dedupeById_loop_cases x0 seen) as [Hskip|[Hne Hnin]].
  - rw dedupeById_loop_skip // in Hx.
    destruct (IH _ _ Hx) as (Hxne & Hxnin & pre & post & -> & Hpre).
    split; [done|]. split; [done|]. exists (x0 :: pre), post. split; [done|].
    intros y [->|Hy]%elem_of_cons; [|by apply Hpre].
    destruct Hskip as [He|Hin]; congruence.
  - rw dedupeById_loop_keep // in Hx. apply elem_of_cons in Hx as [->|Hx].
    + split; [done|]. split; [done|]. exists [], arr. split; [done|].
      by intros y Hy%elem_of_nil.
    + destruct (IH _ _ Hx) as (Hxne & Hxnin & pre & post & -> & Hpre).
      apply not_elem_of_union in Hxnin as [Hx0%not_elem_of_singleton Hxnin].
      split; [done|]. split; [done|]. exists (x0 :: pre), post. split; [done|].
      intros y [->|Hy]%elem_of_cons; [congruence|by apply Hpre].
Qed.

Lemma dedupeById_loop_NoDup arr : forall seen,
  NoDup (id_or_empty <$> dedupeById_loop arr seen []).
Proof.
  induction arr as [|x0 arr IH]; intros seen; [constructor|].
  destruct (dedupeById_loop_cases x0 seen) as [Hskip|[Hne Hnin]].
  - rw dedupeById_loop_skip //.
  - rw dedupeById_loop_keep // fmap_cons. apply NoDup_cons. split; [|apply IH].
    intros (y & Hy & Hin)%list_elem_of_fmap.
    apply dedupeById_loop_first in Hin as (_ & Hnin' & _).
    apply not_elem_of_union in Hnin' as [Hy0%not_elem_of_singleton _]. congruence.
Qed.

(** Every non-empty id of the input that was not seen before is the id of
    an entity kept. *)
Lemma dedupeById_loop_complete arr : forall seen y,
  y ∈ arr -> id_or_empty y <> "" -> id_or_empty y ∉ seen ->
  exists x, x ∈ dedupeById_loop arr seen [] /\ id_or_empty x = id_or_empty y.
Proof.
  induction arr as [|x0 arr IH]; intros seen y Hy Hne Hnin; [by apply elem_of_nil in Hy|].
  destruct (dedupeById_loop_cases x0 seen) as [Hskip|[Hne0 Hnin0]].
  - rw dedupeById_loop_skip //. apply elem_of_cons in Hy as [->|Hy]; [|by apply IH].
    destruct Hskip; done.
  - rw dedupeById_loop_keep //.
    destruct (decide (id_or_empty y = id_or_empty x0)) as [Heq|Hneq].
    + exists x0. split; [by left|done].
    + apply elem_of_cons in Hy as [->|Hy]; [done|].
      destruct (IH ({[id_or_empty x0]} ∪ seen) y Hy Hne) as (x & Hx & Hxy).
      { apply not_elem_of_union. split; [by apply not_elem_of_singleton|done]. }
      exists x. split; [by right|done].
Qed.

Lemma dedupeById_loop_sublist arr : forall seen,
  sublist (dedupeById_loop arr seen []) arr.
Proof.
  induction arr as [|x0 arr IH]; intros seen; [constructor|].
  destruct (dedupeById_loop_cases x0 seen) as [Hskip|[Hne Hnin]].
  - rw dedupeById_loop_skip //. by apply sublist_cons.
  - rw dedupeById_loop_keep //. by apply sublist_skip.
Qed.

(** What [dedupeById] returns: a sub-sequence of the input without
    duplicate ids, made of the first entity of every non-empty id. *)
Lemma dedupeById_spec arr :
  NoDup (id <$> dedupeById arr) /\
  sublist (dedupeById arr) arr /\
  (forall x, x ∈ dedupeById arr ->
     truthy (id x) = true /\
     exists pre post, arr = pre ++ (x :: post) /\ forall y, y ∈ pre -> id y <> id x) /\
  (forall y, y ∈ arr -> truthy (id y) = true ->
     exists x, x ∈ dedupeById arr /\ id x = id y).
Proof.
  rw /dedupeById. split; [|split; [|split]].
  - apply (NoDup_fmap_1 (default "")). rw -list_fmap_compose.
    apply dedupeById_loop_NoDup.
  - apply dedupeById_loop_sublist.
  - intros x Hx.
    apply dedupeById_loop_first in Hx as (Hne & _ & pre & post & -> & Hpre).
    split; [by apply truthy_id|]. exists pre, post. split; [done|].
    intros y Hy Heq. apply (Hpre y Hy). by rw /id_or_empty Heq.
  - intros y Hy Hty. apply truthy_id in Hty.
    destruct (dedupeById_loop_complete arr ∅ y Hy Hty) as (x & Hx & Hxy);
      [apply not_elem_of_empty|].
    exists x. split; [done|]. by apply id_or_empty_eq.
Qed.

(** ** Pagination *)

Lemma follow_pages_sound c fuel : forall resp out w res w',
  follow_pages fuel c resp out w = (Ok res, w') ->
  exists rest, page_chain c w resp rest w' /\
    res = out ++ concat (page_data <$> rest) /\ (length rest <= fuel)%nat.
Proof.
  induction fuel as [|fuel IH]; intros resp out w res w'.
  - simpl. destruct (truthy (links_next resp)) eqn:Hnext; [done|].
    intros [= <- <-]. exists []. rw app_nil_r. split; [by apply chain_last|done].
  - simpl. destruct (truthy (links_next resp)) eqn:Hnext.
    + rw {1}/bind.
      destruct (followSearchNext c _ w) as [[j| |] w1] eqn:Hget; [|done|done].
      rw {1}/bind /search_response.
      destruct (cast_search j) as [resp'|] eqn:Hcast; [|done]. simpl.
      intros (rest & Hchain & -> & Hlen)%IH.
      exists (resp' :: rest). split; [by econstructor|].
      rw /= app_assoc. split; [done|lia].
    + intros [= <- <-]. exists []. rw app_nil_r.
      split; [by apply chain_last|]. split; [done|simpl; lia].
Qed.

(** Enough fuel: one unit for each continuation page that the server
    serves. *)
Lemma follow_pages_complete c w resp rest w' :
  page_chain c w resp rest w' ->
  forall fuel out, (length rest <= fuel)%nat ->
    follow_pages fuel c resp out w = (Ok (out ++ concat (page_data <$> rest)), w').
Proof.
  induction 1 as [w resp Hlast|w resp j resp' w1 rest w2 Hnext Hget Hcast _ IH];
    intros fuel out Hfuel.
  - destruct fuel; rw /= Hlast app_nil_r //.
  - destruct fuel as [|fuel]; [simpl in Hfuel; lia|].
    rw /= Hnext {1}/bind Hget {1}/bind /search_response Hcast /=.
    rw IH; [simpl in Hfuel; lia|]. by rw /= app_assoc.
Qed.

Lemma page_chain_sends c w resp rest w' :
  page_chain c w resp rest w' ->
  exists gets, sends gets w w' /\
    Forall (fun q => method q = GET /\ headers q = mkHeaders c GET) gets.
Proof.
  induction 1 as [w resp Hlast|w resp j resp' w1 rest w2 Hnext Hget Hcast _ IH].
  - exists []. split; [apply sends_refl|constructor].
  - destruct IH as (gets & Hs & Hgets).
    destruct (requestJsonByUrl_sends c GET (default "" (links_next resp)) None w)
      as (n & req & _ & Hm & _ & Hh & Hs1).
    rw /followSearchNext in Hget. rw /after Hget /= in Hs1.
    exists (gets ++ replicate n req). split; [by eapply sends_trans|].
    apply Forall_app. split; [done|]. by apply Forall_replicate.
Qed.

(** C3 (counterexample). A page that carries an entity whose id is the
    empty string: that id is encountered, and no entity with it is kept. *)
Lemma empty_id_is_dropped :
  let ghost := {| id := Some ""; displayName := Some "Ghost"; teamLeaderId := Some "mgr";
                  directReportCount := None; reportingPath := None |} in
  let page := {| data := Some [ghost; person "a" (Some "mgr") 0]; links_next := None |} in
  let w := world_of (scripted [] (Response (plain 200 "OK" "" (Some (JSearch page))))) 0 in
  ghost ∈ page_data page /\
  result (getDirectReports 5 client0 (Some "mgr") 100) w = Ok [person "a" (Some "mgr") 0] /\
  id ghost ∉ id <$> [person "a" (Some "mgr") 0].
Proof.
  split; [by left|]. split; [vm_compute; done|].
  by intros [= ]%list_elem_of_singleton.
Qed.

(** C3 (amended). A call of [getDirectReports] with a non-empty [managerId]
    that returns has made one structured POST search (page 1, the clamped
    page size, the filter [teamLeaderId eq managerId]), then one GET for
    the [next] link of each page until a page without one, and nothing
    else. It returns [dedupeById] of the items in page-arrival order: no
    two entities of the result share an id, the order of arrival is kept,
    every entity of the result has a non-empty id and is the first one
    encountered with it, and every non-empty id encountered is the id of
    an entity of the result. Entities whose id is empty or missing are
    dropped. *)
Theorem getDirectReports_spec fuel c managerId pageSize_ w res w' :
  getDirectReports fuel c managerId pageSize_ w = (Ok res, w') ->
  truthy managerId = true /\
  exists j first rest w1,
    searchPeoplePost c (search_body managerId pageSize_) w = (Ok j, w1) /\
    cast_search j = Some first /\
    page_chain c w1 first rest w' /\
    (exists n post gets, (1 <= n <= 3)%nat /\
       sent w' = gets ++ replicate n post ++ sent w /\
       method post = POST /\ url post = baseUrl c +:+ "/search/people" /\
       payload post = Some (PSearch (search_body managerId pageSize_)) /\
       Forall (fun q => method q = GET /\ headers q = mkHeaders c GET) gets) /\
    let out := concat (page_data <$> first :: rest) in
    res = dedupeById out /\
    NoDup (id <$> res) /\
    sublist res out /\
    (forall x, x ∈ res ->
       truthy (id x) = true /\
       exists pre post, out = pre ++ (x :: post) /\ forall y, y ∈ pre -> id y <> id x) /\
    (forall y, y ∈ out -> truthy (id y) = true -> exists x, x ∈ res /\ id x = id y).
Proof.
  rw /getDirectReports. destruct (truthy managerId) eqn:Hid; [|done]. simpl.
  rw {1}/bind /collect_pages {1}/bind.
  destruct (searchPeoplePost c _ w) as [[j| |] w1] eqn:Hpost; [|done|done].
  rw {1}/bind /search_response.
  destruct (cast_search j) as [first|] eqn:Hcast; [|done]. simpl.
  destruct (follow_pages fuel c first (page_data first) w1) as [[out| |] w2] eqn:Hfollow;
    [|done|done].
  intros [= <- <-]. split; [done|].
  apply follow_pages_sound in Hfollow as (rest & Hchain & -> & _).
  exists j, first, rest, w1. split; [done|]. split; [done|]. split; [done|]. split.
  - destruct (page_chain_sends _ _ _ _ _ Hchain) as (gets & (Hs2 & _) & Hgets).
    destruct (requestJsonByUrl_sends c POST (baseUrl c +:+ "/search/people")
                (Some (search_body managerId pageSize_)) w)
      as (n & post & Hn & Hm & Hu & _ & Hs1).
    assert (Hp : payload post = Some (PSearch (search_body managerId pageSize_))).
    { destruct Hs1 as [Hs1 _]. rw /after /requestJsonByUrl in Hs1.
      destruct (request_loop_sends (Z.to_nat maxAttempts)
        {| method := POST; url := baseUrl c +:+ "/search/people";
           headers := mkHeaders c POST;
           payload := Some (PSearch (search_body managerId pageSize_)) |} 0 None w)
        as (n' & _ & Hs' & _).
      rw /after Hs1 in Hs'. apply app_inv_tail in Hs'.
      destruct n as [|n]; [lia|]. destruct n'; [done|]. by injection Hs' as ->. }
    rw /searchPeoplePost /requestJson in Hpost. rw /after Hpost /= in Hs1.
    destruct Hs1 as [Hs1 _].
    exists n, post, gets. by rw Hs2 Hs1.
  - simpl. split; [done|]. apply dedupeById_spec.
Qed.

Lemma getDirectReports_spec_witness :
  exists res w',
    getDirectReports 5 client0 (Some "mgr") 2 (world_of two_pages 0) = (Ok res, w') /\
    id <$> res = [Some "a"; Some "b"; Some "c"] /\
    NoDup (id <$> res) /\
    length (sent w') = 2%nat.
Proof.
  destruct (getDirectReports 5 client0 (Some "mgr") 2 (world_of two_pages 0))
    as [[res|e|] w'] eqn:Hrun; [|vm_compute in Hrun; discriminate Hrun..].
  exists res, w'. split; [done|].
  destruct (getDirectReports_spec _ _ _ _ _ _ _ Hrun)
    as (_ & j & first & rest & w1 & _ & _ & _ & _ & _ & Hnodup & _).
  vm_compute in Hrun. injection Hrun as <- <-. split; [done|]. split; [exact Hnodup|done].
Defined.

(** Enough fuel for the pages that the server serves. *)
Lemma getDirectReports_complete fuel c key ps w j first rest w1 w' :
  truthy key = true ->
  searchPeoplePost c (search_body key ps) w = (Ok j, w1) ->
  cast_search j = Some first ->
  page_chain c w1 first rest w' ->
  (length rest <= fuel)%nat ->
  getDirectReports fuel c key ps w =
    (Ok (dedupeById (concat (page_data <$> first :: rest))), w').
Proof.
  intros Hkey Hpost Hcast Hchain Hfuel.
  rw /getDirectReports Hkey /= /bind /collect_pages /bind Hpost /search_response Hcast /=.
  by rw (follow_pages_complete _ _ _ _ _ Hchain fuel _ Hfuel).
Qed.

(** ** Subtree walker *)

Lemma Map_size_set k v m :
  Map_has k m = false -> Map_size (Map_set k v m) = Map_size m + 1.
Proof. intros Hk. rw /Map_set Hk /Map_size length_app /=. lia. Qed.

(** The batch loop keeps the node set below the cap as long as it runs,
    and returns from inside exactly when an insertion fills it. *)
Lemma for_drs_size N item drs : forall st,
  Map_size (W.nodesMap st) < N ->
  match for_drs N item drs st with
  | Returned st' => Map_size (W.nodesMap st') = N
  | Completed st' => Map_size (W.nodesMap st') < N
  end.
Proof.
  induction drs as [|p drs IH]; intros st Hsize; [done|]. simpl.
  destruct (Map_has (id p) (W.nodesMap st)) eqn:Hhas; simpl; [by apply IH|].
  rw Map_size_set //.
  destruct (Map_size (W.nodesMap st) + 1 >=? N) eqn:Hcap.
  - rw /= Map_size_set //. lia.
  - apply IH. destruct (default 0 (directReportCount p) >? 0); rw /= Map_size_set //; lia.
Qed.

(** A [return] from inside the batch loop means that the node set has
    reached the cap, whatever its size was before. *)
Lemma for_drs_returned N item drs : forall st st',
  for_drs N item drs st = Returned st' -> N <= Map_size (W.nodesMap st').
Proof.
  induction drs as [|p drs IH]; intros st st'; [done|]. simpl.
  destruct (Map_has (id p) (W.nodesMap st)) eqn:Hhas; simpl; [by apply IH|].
  destruct (Map_size (Map_set (id p) p (W.nodesMap st)) >=? N) eqn:Hcap.
  - intros [= <-]. simpl. lia.
  - apply IH.
Qed.

(** The cap trips mid-batch: the subordinates before the triggering one
    were processed in full, the triggering one has its edge and its node
    recorded, and those after it are left alone. *)
Lemma for_drs_returned_prefix N item drs : forall st st',
  for_drs N item drs st = Returned st' ->
  exists pre p post st0,
    drs = pre ++ p :: post /\
    for_drs N item pre st = Completed st0 /\
    Map_has (id p) (W.nodesMap st0) = false /\
    st' = W.set_node (id p) p
            (W.push_edge (edge_of p) (QueueItem.id item, QueueItem.depth item) st0) /\
    W.edges st' = W.edges st ++ (edge_of <$> pre ++ [p]) /\
    W.queue st' = W.queue st0.
Proof.
  induction drs as [|p drs IH]; intros st st'; [done|]. simpl.
  destruct (Map_has (id p) (W.nodesMap st)) eqn:Hhas; simpl.
  - intros (pre & q & post & st0 & -> & Hpre & Hq & Hst' & Hedges & Hqueue)%IH.
    exists (p :: pre), q, post, st0. rw /= Hhas /=. do 4 (split; [done|]).
    split; [|done]. by rw Hedges /= -app_assoc.
  - destruct (Map_size (Map_set (id p) p (W.nodesMap st)) >=? N) eqn:Hcap.
    + intros [= <-]. by exists [], p, drs, st.
    + intros (pre & q & post & st0 & -> & Hpre & Hq & Hst' & Hedges & Hqueue)%IH.
      exists (p :: pre), q, post, st0. rw /= Hhas /= Hcap. do 4 (split; [done|]).
      split; [|done]. rw Hedges.
      destruct (default 0 (directReportCount p) >? 0); by rw /= -app_assoc.
Qed.

Lemma for_drs_completed_edges N item drs : forall st st',
  for_drs N item drs st = Completed st' ->
  W.edges st' = W.edges st ++ (edge_of <$> drs).
Proof.
  induction drs as [|p drs IH]; intros st st'; simpl.
  - intros [= <-]. by rw app_nil_r.
  - destruct (Map_has (id p) (W.nodesMap st)) eqn:Hhas; simpl.
    + intros ->%IH. by rw /= -app_assoc.
    + destruct (Map_size (Map_set (id p) p (W.nodesMap st)) >=? N); [done|].
      intros ->%IH. destruct (default 0 (directReportCount p) >? 0); by rw /= -app_assoc.
Qed.

Lemma for_drs_origins N D item drs : forall st,
  QueueItem.depth item < D ->
  origins_below D st ->
  match for_drs N item drs st with
  | Returned st' | Completed st' => origins_below D st'
  end.
Proof.
  induction drs as [|p drs IH]; intros st Hd Hinv; [done|]. simpl.
  assert (Hpush : origins_below D
    (W.push_edge (edge_of p) (QueueItem.id item, QueueItem.depth item) st)).
  { destruct Hinv as [Hlen Hall]. split; simpl.
    - rw !length_app Hlen //.
    - apply Forall_app. split; [done|]. by repeat constructor. }
  destruct (Map_has (id p) (W.nodesMap st)); simpl; [by apply IH|].
  destruct (Map_size (Map_set (id p) p (W.nodesMap st)) >=? N); [done|].
  apply IH; [done|]. by destruct (default 0 (directReportCount p) >? 0).
Qed.

(** An invariant [P] of the walker's variables that the bookkeeping keeps
    and that each batch keeps or turns into [Q _ true] on the early
    return yields [Q] for the outcome of the whole loop. *)
Lemma bfs_loop_inv (P : W.t -> Prop) (Q : W.t -> bool -> Prop)
    pfuel c D N ps :
  (forall st, P st -> W.queue st = [] -> Q st false) ->
  (forall st item rest, P st -> W.queue st = item :: rest -> P (W.set_queue rest st)) ->
  (forall st d, P st -> P (W.set_depthReached d st)) ->
  (forall st, P st -> P (W.incr_apiCalls st)) ->
  (forall st, P st -> P (W.incr_expanded st)) ->
  (forall item drs st, P st -> QueueItem.depth item < D ->
     match for_drs N item drs st with
     | Returned st' => Q st' true
     | Completed st' => P st'
     end) ->
  forall fuel st w st' t w',
    P st -> bfs_loop fuel pfuel c D N ps st w = (Ok (st', t), w') -> Q st' t.
Proof.
  intros Hempty Hqueue Hdepth Hcalls Hexp Hbatch.
  induction fuel as [|fuel IH]; intros st w st' t w' HP.
  - simpl. destruct (W.queue st) eqn:Hq; [|done]. intros [= <- <- <-]. by apply Hempty.
  - simpl. destruct (W.queue st) as [|item rest] eqn:Hq.
    { intros [= <- <- <-]. by apply Hempty. }
    destruct (QueueItem.depth item >=? D) eqn:Hd.
    { apply IH. by eapply Hdepth, Hqueue. }
    rw {1}/bind.
    destruct (getDirectReports pfuel c (QueueItem.id item) ps w) as [[drs| |] w1];
      [|done|done].
    specialize (Hbatch item drs
      (expanded_one (QueueItem.depth item) (W.incr_apiCalls (W.set_queue rest st)))).
    destruct (for_drs N item drs _) as [st1|st1].
    + intros [= <- <- <-]. apply Hbatch; [|lia].
      by eapply Hdepth, Hexp, Hcalls, Hqueue.
    + apply IH, Hbatch; [|lia]. by eapply Hdepth, Hexp, Hcalls, Hqueue.
Qed.

Lemma bfs_loop_size pfuel c D N ps fuel st w st' t w' :
  Map_size (W.nodesMap st) < N ->
  bfs_loop fuel pfuel c D N ps st w = (Ok (st', t), w') ->
  if t then Map_size (W.nodesMap st') = N
  else Map_size (W.nodesMap st') < N /\ W.queue st' = [].
Proof.
  apply (bfs_loop_inv (fun st => Map_size (W.nodesMap st) < N)
           (fun st t => if t then Map_size (W.nodesMap st) = N
                        else Map_size (W.nodesMap st) < N /\ W.queue st = []));
    try done.
  intros item drs st0 Hsize _. apply (for_drs_size N item drs st0 Hsize).
Qed.

Lemma bfs_loop_truncated pfuel c D N ps fuel st w st' t w' :
  bfs_loop fuel pfuel c D N ps st w = (Ok (st', t), w') ->
  if t then N <= Map_size (W.nodesMap st') else W.queue st' = [].
Proof.
  apply (bfs_loop_inv (fun _ => True)
           (fun st t => if t then N <= Map_size (W.nodesMap st) else W.queue st = []));
    try done.
  intros item drs st0 _ _.
  destruct (for_drs N item drs st0) eqn:Hfor; [|done]. by eapply for_drs_returned.
Qed.

Lemma bfs_loop_origins pfuel c D N ps fuel st w st' t w' :
  origins_below D st ->
  bfs_loop fuel pfuel c D N ps st w = (Ok (st', t), w') ->
  origins_below D st'.
Proof.
  apply (bfs_loop_inv (origins_below D) (fun st _ => origins_below D st)); try done.
  intros item drs st0 Hinv Hd.
  pose proof (for_drs_origins N D item drs st0 Hd Hinv) as Hfor.
  by destruct (for_drs N item drs st0).
Qed.

Lemma for_drs_queue_within N D item drs : forall st,
  QueueItem.depth item < D ->
  queue_within D st ->
  match for_drs N item drs st with
  | Returned st' | Completed st' => queue_within D st'
  end.
Proof.
  induction drs as [|p drs IH]; intros st Hd Hinv; [done|]. simpl.
  destruct (Map_has (id p) (W.nodesMap st)); simpl; [by apply IH|].
  destruct (Map_size (Map_set (id p) p (W.nodesMap st)) >=? N); [done|].
  apply IH; [done|]. destruct (default 0 (directReportCount p) >? 0); [|done].
  apply Forall_app. split; [done|]. repeat constructor. simpl. lia.
Qed.

Lemma bfs_loop_queue_within pfuel c D N ps fuel st w st' t w' :
  queue_within D st ->
  bfs_loop fuel pfuel c D N ps st w = (Ok (st', t), w') ->
  queue_within D st'.
Proof.
  apply (bfs_loop_inv (queue_within D) (fun st _ => queue_within D st)); try done.
  - intros st0 item rest Hinv Hq. rw /queue_within Hq in Hinv.
    by apply Forall_cons in Hinv as [_ Hrest].
  - intros item drs st0 Hinv Hd.
    pose proof (for_drs_queue_within N D item drs st0 Hd Hinv) as Hfor.
    by destruct (for_drs N item drs st0).
Qed.

Lemma walk_start_queue_within D m root opts : queue_within D (walk_start m root opts).
Proof.
  rw /walk_start /queue_within. destruct m as [m|]; [|repeat constructor; simpl; lia].
  destruct (seeded (Some m) opts); repeat constructor; simpl; lia.
Qed.

Lemma getOrgSubtree_walk_inv fuel pfuel c root opts w m st t w' :
  getOrgSubtree_walk fuel pfuel c root opts w = (Ok (m, st, t), w') ->
  exists w0,
    bfs_loop fuel pfuel c (eff_maxDepth opts) (eff_maxNodes opts) (eff_pageSize opts)
      (walk_start m root opts) w0 = (Ok (st, t), w').
Proof.
  rw /getOrgSubtree_walk {1}/bind.
  destruct (catch _ _ w) as [[m0| |] w0]; [|done|done].
  rw {1}/bind.
  destruct (bfs_loop _ _ _ _ _ _ _ w0) as [[[st0 t0]| |] w1] eqn:Hloop; [|done|done].
  intros [= <- <- <- <-]. by exists w0.
Qed.

Lemma walk_start_size m root opts :
  Map_size (W.nodesMap (walk_start m root opts)) = if seeded m opts then 1 else 0.
Proof.
  rw /walk_start. destruct m as [m|]; [|done].
  by destruct (seeded (Some m) opts).
Qed.

Lemma walk_start_origins D m root opts : origins_below D (walk_start m root opts).
Proof.
  rw /walk_start /origins_below. destruct m as [m|]; [|done].
  by destruct (seeded (Some m) opts).
Qed.

Lemma length_Map_values m : Z.of_nat (length (Map_values m)) = Map_size m.
Proof. by rw /Map_values /Map_size length_fmap. Qed.

(** The scenario of the specification: with [maxDepth = 2] and
    [maxNodes = 100] the walk finds A, B, A1 and A2, breadth first, with
    their four edges, and is not truncated. *)
Lemma scenario_full :
  exists r,
    result (getOrgSubtree 10 5 client0 "root" (scenario_opts false (Some 2) (Some 100)))
      scenario_world = Ok r /\
    id <$> nodes r = [Some "A"; Some "B"; Some "A1"; Some "A2"] /\
    edges r = [ {| leaderId := Some "root"; personId := Some "A" |};
                {| leaderId := Some "root"; personId := Some "B" |};
                {| leaderId := Some "A"; personId := Some "A1" |};
                {| leaderId := Some "A"; personId := Some "A2" |} ] /\
    stats r = {| Stats.expanded := 2; Stats.enqueued := 4; Stats.apiCalls := 2;
                 Stats.depthReached := 2; Stats.truncated := false |}.
Proof. eexists. split; [vm_compute; reflexivity|]. by repeat split. Qed.

(** The same organisation with [maxNodes = 3]: A, B and A1, truncated. *)
Lemma scenario_truncated :
  exists r,
    result (getOrgSubtree 10 5 client0 "root" (scenario_opts false (Some 2) (Some 3)))
      scenario_world = Ok r /\
    id <$> nodes r = [Some "A"; Some "B"; Some "A1"] /\
    personId <$> edges r = [Some "A"; Some "B"; Some "A1"] /\
    Stats.truncated (stats r) = true.
Proof. eexists. split; [vm_compute; reflexivity|]. by repeat split. Qed.

(** C1 (counterexample). With [maxNodes = 0] the cap is raised to 1 by
    [Math.max(1, ...)]: the walk over the scenario returns one node, which
    is more than 0. *)
Lemma node_cap_zero_counts_as_one :
  exists r,
    result (getOrgSubtree 10 5 client0 "root" (scenario_opts false (Some 2) (Some 0)))
      scenario_world = Ok r /\
    id <$> nodes r = [Some "A"] /\
    Stats.truncated (stats r) = true /\
    ~ (Z.of_nat (length (nodes r)) <= 0).
Proof.
  eexists. split; [vm_compute; reflexivity|].
  split; [done|]. split; [done|]. simpl. lia.
Qed.

(** The seeded manager is not checked against the cap: with
    [maxNodes = 1] and [includeManager] the result holds two nodes. *)
Lemma seeded_manager_escapes_cap_one :
  exists r,
    result (getOrgSubtree 10 5 client0 "root" (scenario_opts true (Some 2) (Some 1)))
      scenario_world = Ok r /\
    id <$> nodes r = [Some "root"; Some "A"] /\
    Stats.truncated (stats r) = true.
Proof. eexists. split; [vm_compute; reflexivity|]. by split. Qed.

(** C1 (amended). Let [N' = max(1, N)] be the effective cap (N defaults to
    1000). In every result, [truncated] is true only if the node set has
    reached N', and false only if the queue was exhausted. If the manager
    was not seeded or N' is at least 2, the result has at most N' nodes,
    and [truncated] is true iff it has exactly N'. When the cap trips in a
    batch, the walk returns at once, in the world the batch was fetched
    in: the batch is processed up to the triggering subordinate, whose
    edge and node are recorded, and the rest of the batch is not. *)
Theorem subtree_node_cap :
  (forall fuel pfuel c root opts w m st t w',
     getOrgSubtree_walk fuel pfuel c root opts w = (Ok (m, st, t), w') ->
     let N' := Z.max 1 (default 1000 (Opts.maxNodes opts)) in
     let r := mkResult m st t in
     (Stats.truncated (stats r) = true -> N' <= Z.of_nat (length (nodes r))) /\
     (Stats.truncated (stats r) = false -> W.queue st = []) /\
     (seeded m opts = false \/ 2 <= N' ->
        Z.of_nat (length (nodes r)) <= N' /\
        (Stats.truncated (stats r) = true <-> Z.of_nat (length (nodes r)) = N'))) /\
  (forall fuel pfuel c D N ps st item rest drs w w1 st',
     W.queue st = item :: rest ->
     QueueItem.depth item < D ->
     getDirectReports pfuel c (QueueItem.id item) ps w = (Ok drs, w1) ->
     for_drs N item drs
       (expanded_one (QueueItem.depth item) (W.incr_apiCalls (W.set_queue rest st)))
       = Returned st' ->
     bfs_loop (S fuel) pfuel c D N ps st w = (Ok (st', true), w1) /\
     exists pre p post,
       drs = pre ++ p :: post /\
       Map_has (id p) (W.nodesMap st') = true /\
       W.edges st' = W.edges st ++ (edge_of <$> pre ++ [p])).
Proof.
  split.
  - intros fuel pfuel c root opts w m st t w' Hrun N' r.
    apply getOrgSubtree_walk_inv in Hrun as [w0 Hloop].
    rw /r /= !length_Map_values.
    pose proof (bfs_loop_truncated _ _ _ _ _ _ _ _ _ _ _ Hloop) as Htr.
    split; [by intros ->|]. split; [by intros ->|].
    intros Hdom.
    assert (Hstart : Map_size (W.nodesMap (walk_start m root opts)) < eff_maxNodes opts).
    { rw walk_start_size /eff_maxNodes. destruct Hdom as [->|Hcap]; [lia|].
      rw /N' in Hcap. destruct (seeded m opts); lia. }
    pose proof (bfs_loop_size _ _ _ _ _ _ _ _ _ _ _ Hstart Hloop) as Hsize.
    rw /eff_maxNodes -/N' in Hsize. destruct t.
    + split; [lia|]. by split.
    + split; [lia|]. split; [done|]. lia.
  - intros fuel pfuel c D N ps st item rest drs w w1 st' Hq Hd Hdrs Hfor.
    split.
    + rw /= Hq. replace (QueueItem.depth item >=? D) with false by lia.
      by rw {1}/bind Hdrs Hfor.
    + apply for_drs_returned_prefix in Hfor
        as (pre & p & post & st0 & -> & _ & _ & -> & Hedges & _).
      exists pre, p, post. split; [done|]. split; [|by rw Hedges].
      rw /= /Map_set. destruct (Map_has (id p) (W.nodesMap st0)) eqn:Hhas.
      * rw /Map_has bool_decide_eq_true -list_fmap_compose.
        apply bool_decide_eq_true in Hhas.
        apply list_elem_of_fmap in Hhas as ([k v] & -> & Hin).
        apply list_elem_of_fmap. exists (k, v). split; [|done].
        by rw /= bool_decide_eq_true_2.
      * rw /Map_has bool_decide_eq_true fmap_app. apply elem_of_app. right. by left.
Qed.

Lemma subtree_node_cap_witness :
  match result (getOrgSubtree_walk 10 5 client0 "root"
                  (scenario_opts false (Some 2) (Some 3))) scenario_world with
  | Ok (m, st, t) =>
    Z.of_nat (length (nodes (mkResult m st t))) <= 3 /\
    (Stats.truncated (stats (mkResult m st t)) = true <->
     Z.of_nat (length (nodes (mkResult m st t))) = 3)
  | _ => False
  end.
Proof.
  rw /result.
  destruct (getOrgSubtree_walk 10 5 client0 "root"
              (scenario_opts false (Some 2) (Some 3)) scenario_world)
    as [[[[m st] t]|e|] w'] eqn:Hrun; simpl;
    [|vm_compute in Hrun; discriminate Hrun..].
  destruct (proj1 subtree_node_cap _ _ _ _ _ _ _ _ _ _ Hrun) as (_ & _ & Hcap).
  apply Hcap. right. done.
Defined.

(** C4. A dequeued item whose depth has reached [maxDepth] is not
    expanded: the loop goes on in the same world (no request is made) with
    the item off the queue and [depthReached] updated, and nothing else
    changed. In every result each edge was pushed while an item of depth
    below [maxDepth] was being expanded, so no edge originates from a node
    discovered at a depth above [maxDepth]; and no item left in the queue
    is deeper than [maxDepth] (than the root, for a negative [maxDepth]). *)
Theorem subtree_depth_cap :
  (forall fuel pfuel c D N ps st item rest w,
     W.queue st = item :: rest ->
     D <= QueueItem.depth item ->
     bfs_loop (S fuel) pfuel c D N ps st w =
       bfs_loop fuel pfuel c D N ps
         (W.set_depthReached (Z.max (W.depthReached st) (QueueItem.depth item))
            (W.set_queue rest st)) w) /\
  (forall fuel pfuel c root opts w m st t w',
     getOrgSubtree_walk fuel pfuel c root opts w = (Ok (m, st, t), w') ->
     edges (mkResult m st t) = W.edges st /\
     length (W.origins st) = length (W.edges st) /\
     Forall (fun o : option string * Z => o.2 < default 6 (Opts.maxDepth opts) /\
                                          ~ (o.2 > default 6 (Opts.maxDepth opts)))
       (W.origins st) /\
     Forall (fun q => QueueItem.depth q <= Z.max 0 (default 6 (Opts.maxDepth opts)))
       (W.queue st)).
Proof.
  split.
  - intros fuel pfuel c D N ps st item rest w Hq Hd.
    rw /= Hq. by replace (QueueItem.depth item >=? D) with true by lia.
  - intros fuel pfuel c root opts w m st t w' Hrun.
    apply getOrgSubtree_walk_inv in Hrun as [w0 Hloop].
    pose proof (bfs_loop_queue_within _ _ _ _ _ _ _ _ _ _ _
                  (walk_start_queue_within _ _ _ _) Hloop) as Hqueue.
    apply bfs_loop_origins in Hloop as [Hlen Hall]; [|apply walk_start_origins].
    split; [done|]. split; [done|]. split; [|exact Hqueue].
    eapply Forall_impl; [exact Hall|]. rw /eff_maxDepth. intros o Ho. simpl in *. lia.
Qed.

Lemma subtree_depth_cap_witness :
  match result (getOrgSubtree_walk 10 5 client0 "root"
                  (scenario_opts true (Some 1) (Some 100))) scenario_world with
  | Ok (m, st, t) =>
    W.origins st = [(Some "root", 0); (Some "root", 0)] /\
    Forall (fun o : option string * Z => o.2 < 1 /\ ~ (o.2 > 1)) (W.origins st)
  | _ => False
  end.
Proof.
  rw /result.
  destruct (getOrgSubtree_walk 10 5 client0 "root"
              (scenario_opts true (Some 1) (Some 100)) scenario_world)
    as [[[[m st] t]|e|] w'] eqn:Hrun; simpl;
    [|vm_compute in Hrun; discriminate Hrun..].
  destruct (proj2 subtree_depth_cap _ _ _ _ _ _ _ _ _ _ Hrun) as (_ & _ & Hall & _).
  split; [|exact Hall].
  vm_compute in Hrun. by injection Hrun as _ <- _ _.
Defined.

Lemma for_drs_keyed N item drs : forall st,
  keyed_by_id st ->
  match for_drs N item drs st with
  | Returned st' | Completed st' => keyed_by_id st'
  end.
Proof.
  induction drs as [|p drs IH]; intros st Hinv; [done|]. simpl.
  destruct (Map_has (id p) (W.nodesMap st)) eqn:Hhas; simpl; [by apply IH|].
  assert (Hset : keyed_by_id
    (W.set_node (id p) p
       (W.push_edge (edge_of p) (QueueItem.id item, QueueItem.depth item) st))).
  { destruct Hinv as [Hnodup Hall]. rw /keyed_by_id /= /Map_set Hhas. split.
    - rw fmap_app. apply NoDup_app. split; [done|]. split; [|by apply NoDup_singleton].
      intros k Hk [= ->]%list_elem_of_singleton.
      by rw /Map_has bool_decide_eq_false in Hhas.
    - apply Forall_app. split; [done|]. by repeat constructor. }
  destruct (Map_size _ >=? N); [done|].
  apply IH. by destruct (default 0 (directReportCount p) >? 0).
Qed.

Lemma bfs_loop_keyed pfuel c D N ps fuel st w st' t w' :
  keyed_by_id st ->
  bfs_loop fuel pfuel c D N ps st w = (Ok (st', t), w') ->
  keyed_by_id st'.
Proof.
  apply (bfs_loop_inv keyed_by_id (fun st _ => keyed_by_id st)); try done.
  intros item drs st0 Hinv _.
  pose proof (for_drs_keyed N item drs st0 Hinv) as Hfor.
  by destruct (for_drs N item drs st0).
Qed.

Lemma walk_start_keyed m root opts : keyed_by_id (walk_start m root opts).
Proof.
  rw /walk_start /keyed_by_id. destruct m as [m|]; [|by split; constructor].
  destruct (seeded (Some m) opts); simpl; [|by split; constructor].
  split; [apply NoDup_singleton|by repeat constructor].
Qed.

(** C10. In every result, [stats.enqueued] is the length of [nodes], on
    the truncated return and on the normal return alike, and [nodes] holds
    no two entities with the same id: it is the size of the node set. *)
Theorem enqueued_is_node_count fuel pfuel c root opts w r w' :
  getOrgSubtree fuel pfuel c root opts w = (Ok r, w') ->
  Stats.enqueued (stats r) = Z.of_nat (length (nodes r)) /\
  NoDup (id <$> nodes r).
Proof.
  rw /getOrgSubtree {1}/bind.
  destruct (getOrgSubtree_walk fuel pfuel c root opts w) as [[[[m st] t]| |] w1] eqn:Hrun;
    [|done|done].
  intros [= <- <-]. split; [by rw /= length_Map_values|].
  apply getOrgSubtree_walk_inv in Hrun as [w0 Hloop].
  apply bfs_loop_keyed in Hloop as [Hnodup Hall]; [|apply walk_start_keyed].
  rw /= /Map_values.
  replace (id <$> (W.nodesMap st).*2) with ((W.nodesMap st).*1); [done|].
  rw -list_fmap_compose. apply list_fmap_ext.
  intros i kv Hkv. by apply (Forall_lookup_1 _ _ _ _ Hall) in Hkv.
Qed.

(** In the scenario the queue receives two items (the root and A), while
    [enqueued] is 4, the number of nodes. *)
Lemma enqueued_is_node_count_witness :
  match getOrgSubtree_walk 10 5 client0 "root"
          (scenario_opts false (Some 2) (Some 100)) scenario_world with
  | (Ok (m, st, t), _) =>
    Stats.enqueued (stats (mkResult m st t)) = 4 /\
    Z.of_nat (length (nodes (mkResult m st t))) = 4 /\
    W.pushes st = 2 /\ t = false
  | _ => False
  end /\
  match getOrgSubtree 10 5 client0 "root"
          (scenario_opts false (Some 2) (Some 3)) scenario_world with
  | (Ok r, _) =>
    Stats.enqueued (stats r) = Z.of_nat (length (nodes r)) /\
    Stats.truncated (stats r) = true
  | _ => False
  end.
Proof.
  split; [vm_compute; done|].
  destruct (getOrgSubtree 10 5 client0 "root"
              (scenario_opts false (Some 2) (Some 3)) scenario_world)
    as [[r|e|] w'] eqn:Hrun; [|vm_compute in Hrun; discriminate Hrun..].
  split; [exact (proj1 (enqueued_is_node_count _ _ _ _ _ _ _ _ Hrun))|].
  vm_compute in Hrun. by injection Hrun as <- _.
Defined.

(** ** Termination *)

Lemma keeps_ret {A} (a : A) : keeps_server (ret a).
Proof. done. Qed.

Lemma keeps_throw {A} e : keeps_server (@throw A e).
Proof. done. Qed.

Lemma keeps_bind {A B} (m : M A) (k : A -> M B) :
  keeps_server m -> (forall a, keeps_server (k a)) -> keeps_server (bind m k).
Proof.
  intros Hm Hk w. rw /bind. specialize (Hm w).
  destruct (m w) as [[a| |] w1]; simpl in *; [|done|done]. by rw Hk.
Qed.

Lemma keeps_catch {A} (m : M A) (h : Error -> M A) :
  keeps_server m -> (forall e, keeps_server (h e)) -> keeps_server (catch m h).
Proof.
  intros Hm Hh w. rw /catch. specialize (Hm w).
  destruct (m w) as [[a|e|] w1]; simpl in *; [done| |done]. by rw Hh.
Qed.

Lemma keeps_requestJsonByUrl c m u body : keeps_server (requestJsonByUrl c m u body).
Proof.
  intros w.
  by destruct (requestJsonByUrl_sends c m u body w) as (n & req & _ & _ & _ & _ & _ & Hs & _).
Qed.

Lemma keeps_follow_pages c fuel : forall resp out, keeps_server (follow_pages fuel c resp out).
Proof.
  induction fuel as [|fuel IH]; intros resp out; simpl.
  - by destruct (truthy (links_next resp)).
  - destruct (truthy (links_next resp)); [|done].
    apply keeps_bind; [apply keeps_requestJsonByUrl|]. intros j.
    apply keeps_bind; [|by intros r].
    rw /search_response. by destruct (cast_search j).
Qed.

Lemma keeps_getDirectReports fuel c key ps : keeps_server (getDirectReports fuel c key ps).
Proof.
  rw /getDirectReports. destruct (negb (truthy key)); [done|].
  apply keeps_bind; [|by intros out].
  apply keeps_bind; [apply keeps_requestJsonByUrl|]. intros j.
  apply keeps_bind; [|intros r; apply keeps_follow_pages].
  rw /search_response. by destruct (cast_search j).
Qed.

Lemma keeps_getPerson c key : keeps_server (getPerson c key).
Proof. intros w. apply getPerson_server. Qed.

(** A batch that runs through does not increase the measure. *)
Lemma for_drs_measure N item drs : forall st st',
  for_drs N item drs st = Completed st' ->
  (walk_measure N st' <= walk_measure N st)%nat.
Proof.
  induction drs as [|p drs IH]; intros st st'; simpl.
  - by intros [= <-].
  - destruct (Map_has (id p) (W.nodesMap st)) eqn:Hhas; simpl.
    + intros Hfor%IH. by rw /walk_measure /= in Hfor |- *.
    + destruct (Map_size (Map_set (id p) p (W.nodesMap st)) >=? N) eqn:Hcap; [done|].
      intros Hfor%IH. rw Map_size_set // in Hcap.
      etrans; [exact Hfor|].
      destruct (default 0 (directReportCount p) >? 0);
        rw /walk_measure /= Map_size_set // ?length_app /=; lia.
Qed.

(** The walk terminates, whatever the shape of the organisation, as long
    as each [getDirectReports] does: [walk_measure] units of fuel are
    enough. *)
Lemma bfs_loop_total srv pfuel c D N ps :
  (forall w key, server w = srv ->
     result (getDirectReports pfuel c key ps) w <> Diverge) ->
  forall fuel st w, server w = srv ->
    (walk_measure N st <= fuel)%nat ->
    result (bfs_loop fuel pfuel c D N ps st) w <> Diverge.
Proof.
  intros Hdrs. induction fuel as [|fuel IH]; intros st w Hw Hfuel; rw /result /=.
  - destruct (W.queue st) eqn:Hq; [done|]. rw /walk_measure Hq /= in Hfuel. lia.
  - destruct (W.queue st) as [|item rest] eqn:Hq; [done|].
    rw /walk_measure Hq /= in Hfuel.
    destruct (QueueItem.depth item >=? D).
    { apply IH; [done|]. rw /walk_measure /=. lia. }
    rw {1}/bind. specialize (Hdrs w (QueueItem.id item) Hw). rw /result in Hdrs.
    pose proof (keeps_getDirectReports pfuel c (QueueItem.id item) ps w) as Hsrv.
    destruct (getDirectReports pfuel c (QueueItem.id item) ps w) as [[drs| |] w1];
      [|done|done].
    destruct (for_drs N item drs _) as [st1|st1] eqn:Hfor; [done|].
    apply IH; [simpl in Hsrv; congruence|].
    apply for_drs_measure in Hfor. rw /walk_measure /= in Hfor. rw /walk_measure. lia.
Qed.

Lemma getPerson_total c key w : result (getPerson c key) w <> Diverge.
Proof.
  rw /result /getPerson. destruct (negb (truthy key)); [done|].
  rw /bind /requestJson.
  pose proof (requestJsonByUrl_total c GET
    (baseUrl c +:+ "/people/" +:+ encodeURIComponent (default "" key)) None w) as Htot.
  rw /result in Htot. by destruct (requestJsonByUrl c GET _ None w) as [[?|?|] ?].
Qed.

Lemma getOrgSubtree_total srv fuel pfuel c root opts w :
  (forall w key, server w = srv ->
     result (getDirectReports pfuel c key (eff_pageSize opts)) w <> Diverge) ->
  server w = srv ->
  (Z.to_nat (eff_maxNodes opts) + 1 <= fuel)%nat ->
  result (getOrgSubtree fuel pfuel c root opts) w <> Diverge.
Proof.
  intros Hdrs Hw Hfuel. rw /result /getOrgSubtree /getOrgSubtree_walk /bind.
  pose proof (keeps_catch (getPerson c (Some root)) (fun _ => ret None)
                (keeps_getPerson _ _) (fun _ => keeps_ret _) w) as Hsrv.
  destruct (catch (getPerson c (Some root)) (fun _ => ret None) w) as [[m| |] w0] eqn:Hm.
  - pose proof (bfs_loop_total srv pfuel c (eff_maxDepth opts) (eff_maxNodes opts)
                  (eff_pageSize opts) Hdrs fuel (walk_start m root opts) w0) as Hloop.
    rw /result in Hloop.
    destruct (bfs_loop _ _ _ _ _ _ _ w0) as [[r| |] w1]; [done|done|].
    exfalso. apply Hloop; [simpl in Hsrv; congruence| |done].
    rw /walk_measure walk_start_size.
    assert (length (W.queue (walk_start m root opts)) = 1%nat) as ->.
    { rw /walk_start. destruct m as [m|]; [|done]. by destruct (seeded (Some m) opts). }
    destruct (seeded m opts); lia.
  - done.
  - rw /catch in Hm. pose proof (getPerson_total c (Some root) w) as Htot.
    rw /result in Htot. by destruct (getPerson c (Some root) w) as [[?|?|] ?].
Qed.

(** Against a server whose search pages carry no [next] link the page
    loop is never entered: [getDirectReports] settles with any fuel. *)
Lemma getDirectReports_single_page srv pfuel c key ps w :
  single_page srv -> server w = srv ->
  result (getDirectReports pfuel c key ps) w <> Diverge.
Proof.
  intros Hsingle Hw. rw /result /getDirectReports.
  destruct (negb (truthy key)); [done|].
  rw /bind /collect_pages /bind /searchPeoplePost /requestJson.
  pose proof (requestJsonByUrl_total c POST (baseUrl c +:+ "/search/people")
                (Some (search_body key ps)) w) as Htot.
  rw /result in Htot.
  destruct (requestJsonByUrl c POST _ _ w) as [[j| |] w1] eqn:Hreq; [|done|done].
  rw /search_response. destruct (cast_search j) as [resp|] eqn:Hcast; [|done]. simpl.
  assert (Hlast : truthy (links_next resp) = false).
  { destruct j as [[d|r|d]|]; simpl in Hcast; try done; try by injection Hcast as <-.
    injection Hcast as ->.
    apply request_loop_answer in Hreq as (h & res & Hh & Hres).
    rw Hw in Hh. by eapply Hsingle. }
  destruct pfuel; by rw /= Hlast.
Qed.

Lemma directory_single_page base people : single_page (directory base people).
Proof.
  intros h res r. rw /directory. destruct h as [|q h]; [done|].
  destruct (method q).
  - destruct (List.find _ people); by intros [= <-].
  - destruct (payload q) as [[|b]|]; [done| |done].
    destruct (filter b); [|done]. by intros [= <-] [= <-].
Qed.

(** On a directory service the walk returns, or throws, once the fuel
    exceeds the effective node cap. *)
Lemma getOrgSubtree_total_directory base people fuel pfuel c root opts w :
  server w = directory base people ->
  (Z.to_nat (eff_maxNodes opts) + 1 <= fuel)%nat ->
  result (getOrgSubtree fuel pfuel c root opts) w <> Diverge.
Proof.
  intros Hw Hfuel. eapply getOrgSubtree_total; [|exact Hw|exact Hfuel].
  intros w0 key Hw0. eapply getDirectReports_single_page; [|exact Hw0].
  apply directory_single_page.
Qed.

(** ** Chain resolver *)

Lemma dedupe_from_spec arr : forall seen : gset string,
  NoDup (dedupe_from seen arr) /\
  sublist (dedupe_from seen arr) arr /\
  (forall x, x ∈ dedupe_from seen arr <-> x ∈ arr /\ x ∉ seen).
Proof.
  induction arr as [|x arr IH]; intros seen; simpl.
  - split; [constructor|]. split; [constructor|]. intros y. rw elem_of_nil. tauto.
  - destruct (decide (x ∈ seen)) as [Hin|Hnin].
    + rw bool_decide_eq_true_2 //. destruct (IH seen) as (Hnd & Hsub & Hel).
      split; [done|]. split; [by apply sublist_cons|].
      intros y. rw Hel elem_of_cons. split; [tauto|].
      intros [[->|Hy] Hys]; [done|tauto].
    + rw bool_decide_eq_false_2 //.
      destruct (IH ({[x]} ∪ seen)) as (Hnd & Hsub & Hel).
      split; [|split; [by apply sublist_skip|]].
      * apply NoDup_cons. split; [|done]. rw Hel not_elem_of_union not_elem_of_singleton.
        tauto.
      * intros y. rw !elem_of_cons Hel not_elem_of_union not_elem_of_singleton.
        destruct (decide (y = x)) as [->|Hne]; tauto.
Qed.

Lemma dedupe_from_NoDup arr : forall seen : gset string,
  NoDup arr -> (forall x, x ∈ arr -> x ∉ seen) -> dedupe_from seen arr = arr.
Proof.
  induction arr as [|x arr IH]; intros seen Hnd Hseen; [done|]. simpl.
  apply NoDup_cons in Hnd as [Hx Hnd].
  rw bool_decide_eq_false_2; [by apply Hseen; left|].
  f_equal. apply IH; [done|]. intros y Hy.
  rw not_elem_of_union not_elem_of_singleton. split; [by intros ->|].
  apply Hseen. by right.
Qed.

(** [dedupe] keeps the first occurrence of every element, in order. *)
Lemma dedupe_spec arr :
  NoDup (dedupe arr) /\ sublist (dedupe arr) arr /\
  (forall x, x ∈ dedupe arr <-> x ∈ arr) /\
  (NoDup arr -> dedupe arr = arr).
Proof.
  destruct (dedupe_from_spec arr ∅) as (Hnd & Hsub & Hel).
  split; [done|]. split; [done|]. split.
  - intros x. rw /dedupe Hel. split; [tauto|]. intros Hx. split; [done|].
    apply not_elem_of_empty.
  - intros Harr. apply dedupe_from_NoDup; [done|].
    intros x _. apply not_elem_of_empty.
Qed.

(** With a stable server the outcome of a call does not depend on the
    world the call is made in. *)
Lemma blind_ret {A} (a : A) : world_blind (ret a).
Proof. by intros w1 w2 Hw. Qed.

Lemma blind_throw {A} e : world_blind (@throw A e).
Proof. by intros w1 w2 Hw. Qed.

Lemma blind_bind {A B} (m : M A) (k : A -> M B) :
  world_blind m -> (forall a, world_blind (k a)) -> world_blind (bind m k).
Proof.
  intros Hm Hk w1 w2 Hw. rw /bind.
  destruct (Hm w1 w2 Hw) as [Hres Hw'].
  destruct (m w1) as [[a| |] w1'], (m w2) as [[a'| |] w2']; simpl in *;
    try discriminate Hres; [|split; [congruence|done]..].
  injection Hres as <-. by apply Hk.
Qed.

Lemma blind_fetch req : world_blind (fetch req).
Proof.
  intros w1 w2 [Hst Heq]. rw /fetch /= Heq. split; [|done].
  f_equal. apply Hst.
Qed.

Lemma blind_random_sleep {A} (f : Q -> Q) (k : M A) :
  world_blind k -> world_blind (r <- Math_random ;; sleep (f r) ;;; k).
Proof.
  intros Hk w1 w2 Hw. rw /bind /=. apply Hk. exact Hw.
Qed.

Lemma blind_sleep {A} d (k : M A) : world_blind k -> world_blind (sleep d ;;; k).
Proof.
  intros Hk w1 w2 Hw. rw /bind /=. apply Hk. exact Hw.
Qed.

Lemma blind_request_loop fuel : forall req attempt lastErr,
  world_blind (request_loop fuel req attempt lastErr).
Proof.
  induction fuel as [|fuel IH]; intros req attempt lastErr; simpl.
  - by destruct (attempt <? maxAttempts).
  - destruct (attempt <? maxAttempts); [|apply blind_throw].
    apply blind_bind; [apply blind_fetch|]. intros out.
    assert (Hcatch : forall err, world_blind
      (if attempt + 1 >=? maxAttempts then throw err
       else r <- Math_random ;; (sleep (jittered (attempt + 1) r) ;;;
            request_loop fuel req (attempt + 1) (Some err)))).
    { intros err. destruct (attempt + 1 >=? maxAttempts); [apply blind_throw|].
      apply (blind_random_sleep (jittered (attempt + 1))), IH. }
    destruct out as [msg|res]; [apply Hcatch|].
    destruct (status res =? 204); [apply blind_ret|].
    destruct (negb (res_ok res)).
    + destruct (((status res =? 429) || (status res >=? 500)) &&
                (attempt + 1 <? maxAttempts)); [|apply Hcatch].
      apply blind_sleep, IH.
    + destruct (json res); [apply blind_ret|apply Hcatch].
Qed.

Lemma blind_getPerson c key : world_blind (getPerson c key).
Proof.
  rw /getPerson. destruct (negb (truthy key)); [apply blind_throw|].
  apply blind_bind; [apply blind_request_loop|]. intros resp. apply blind_ret.
Qed.

Lemma getPerson_stable srv c key w :
  stable srv -> server w = srv ->
  result (getPerson c key) w = result (getPerson c key) (world_of srv 0).
Proof.
  intros Hst Hw. symmetry. apply (blind_getPerson c key (world_of srv 0) w). by split.
Qed.

Lemma settled_length {A} (f : string -> A) keys sched : forall slots,
  length (settled f keys sched slots) = length slots.
Proof.
  induction sched as [|i sched IH]; intros slots; [done|]. simpl.
  destruct (keys !! i); rw IH ?length_insert //.
Qed.

Lemma settled_lookup {A} (f : string -> A) keys sched : forall slots i key,
  length slots = length keys ->
  keys !! i = Some key ->
  settled f keys sched slots !! i =
    if bool_decide (i ∈ sched) then Some (Some (f key)) else slots !! i.
Proof.
  induction sched as [|j sched IH]; intros slots i key Hlen Hkey; [done|]. simpl.
  assert (Hi : (i < length slots)%nat) by (rw Hlen; by eapply lookup_lt_Some).
  destruct (decide (i = j)) as [<-|Hne].
  - rw Hkey (IH _ i key) ?length_insert // list_lookup_insert_eq //.
    rw (bool_decide_eq_true_2 (i ∈ i :: sched)); [by left|].
    by destruct (bool_decide (i ∈ sched)).
  - assert (Hdec : bool_decide (i ∈ j :: sched) = bool_decide (i ∈ sched)).
    { apply bool_decide_ext. rw elem_of_cons. tauto. }
    rw Hdec. destruct (keys !! j) as [kj|].
    + rw (IH _ i key) ?length_insert // list_lookup_insert_ne //.
    + by apply IH.
Qed.

Lemma all_settled_Some {A} (l : list A) : all_settled (Some <$> l) = Some l.
Proof. induction l as [|a l IH]; [done|]. by rw /= IH. Qed.

(** Once every position has settled, the slots hold the results in the
    order of the keys, whatever the order of settlement was. *)
Lemma settled_all {A} (f : string -> A) keys sched :
  sched ≡ₚ seq 0 (length keys) ->
  settled f keys sched (replicate (length keys) None) = Some <$> (f <$> keys).
Proof.
  intros Hperm. apply list_eq. intros i.
  destruct (keys !! i) as [key|] eqn:Hkey.
  - rw (settled_lookup f keys sched _ i key) ?length_replicate //.
    rw bool_decide_eq_true_2.
    { rw Hperm. apply elem_of_seq. apply lookup_lt_Some in Hkey. lia. }
    by rw !list_lookup_fmap Hkey.
  - rw !list_lookup_fmap Hkey /=. apply lookup_ge_None.
    rw settled_length length_replicate. by apply lookup_ge_None.
Qed.

Lemma settle_stable srv c keys :
  stable srv ->
  (forall i, i ∈ keys -> exists q, result (getPerson c (Some i)) (world_of srv 0) = Ok q) ->
  forall sched slots w, server w = srv ->
    exists w',
      settle sched ((fun i => getPerson c (Some i)) <$> keys) slots w =
        (Ok (settled (person_of c srv) keys sched slots), w') /\
      server w' = srv.
Proof.
  intros Hst Hall. induction sched as [|i sched IH]; intros slots w Hw.
  - by exists w.
  - rw /= list_lookup_fmap. destruct (keys !! i) as [key|] eqn:Hkey; simpl; [|by apply IH].
    destruct (Hall key) as [q Hq]; [by eapply list_elem_of_lookup_2|].
    pose proof (getPerson_stable srv c (Some key) w Hst Hw) as Hres.
    pose proof (getPerson_server c (Some key) w) as Hsrv.
    rw Hq /result in Hres. rw /after in Hsrv. rw /bind.
    destruct (getPerson c (Some key) w) as [o w1]. simpl in *. subst o.
    replace (person_of c srv key) with q; [|by rw /person_of -/(result _ _) Hq].
    apply IH. congruence.
Qed.

(** C5. With a server whose answers do not depend on the order of the
    requests, take an entity whose lookup resolves to [p] and whose
    reporting path is [path], every member of which can be looked up. Then,
    in whatever orders [sched1] and [sched2] the parallel lookups settle,
    [getOrgChain(key, false)] returns the superiors of the deduplicated
    path, in path order, and [getOrgChain(key, true)] returns the same
    sequence with [p] appended: the first is a strict prefix of the second,
    one shorter. The deduplicated path keeps the first occurrence of every
    id of the path, in order; a path without repetition is followed as it
    is. *)
Theorem getOrgChain_path_order srv c key p path sched1 sched2 w1 w2 :
  stable srv ->
  result (getPerson c key) (world_of srv 0) = Ok (Some p) ->
  default [] (reportingPath p) = path ->
  (forall i, i ∈ path -> exists q, result (getPerson c (Some i)) (world_of srv 0) = Ok q) ->
  sched1 ≡ₚ seq 0 (length (dedupe path)) ->
  sched2 ≡ₚ seq 0 (length (dedupe path)) ->
  server w1 = srv -> server w2 = srv ->
  let leaders := person_of c srv <$> dedupe path in
  result (getOrgChain sched1 c key false) w1 = Ok leaders /\
  result (getOrgChain sched2 c key true) w2 = Ok (leaders ++ [Some p]) /\
  take (length leaders) (leaders ++ [Some p]) = leaders /\
  length (leaders ++ [Some p]) = S (length leaders) /\
  last (leaders ++ [Some p]) = Some (Some p) /\
  NoDup (dedupe path) /\ sublist (dedupe path) path /\
  (forall i, i ∈ dedupe path <-> i ∈ path) /\
  (NoDup path -> leaders = person_of c srv <$> path).
Proof.
  intros Hst Hp Hpath Hall Hs1 Hs2 Hw1 Hw2 leaders.
  assert (Hrun : forall sched incl w, sched ≡ₚ seq 0 (length (dedupe path)) ->
    server w = srv ->
    result (getOrgChain sched c key incl) w =
      Ok (if incl then leaders ++ [Some p] else leaders)).
  { intros sched incl w Hsched Hw. rw /result /getOrgChain {1}/bind.
    pose proof (getPerson_stable srv c key w Hst Hw) as Hres.
    pose proof (getPerson_server c key w) as Hsrv.
    rw Hp /result in Hres. rw /after in Hsrv.
    destruct (getPerson c key w) as [o w0]. simpl in *. subst o.
    rw Hpath {1}/bind /Promise_all {1}/bind.
    destruct (settle_stable srv c (dedupe path) Hst) with (sched := sched)
      (slots := replicate (length (dedupe path)) (@None (option PersonBase))) (w := w0)
      as (w' & Hsettle & _); [|congruence|].
    { intros i Hi. apply Hall. by apply dedupe_spec. }
    rw length_fmap Hsettle settled_all // all_settled_Some //. }
  split; [by apply (Hrun sched1 false)|]. split; [by apply (Hrun sched2 true)|].
  split; [by rw take_app_length|]. split; [rw length_app /=; lia|].
  split; [by rw last_snoc|].
  destruct (dedupe_spec path) as (Hnodup & Hsub & Hel & Hid).
  do 3 (split; [done|]).
  intros Hnd. by rw /leaders Hid.
Qed.

Lemma directory_stable base people : stable (directory base people).
Proof. by intros r h h'. Qed.

Lemma getOrgChain_path_order_witness :
  let w := world_of (directory (baseUrl client0) chain_people) 0 in
  exists l1 l2 p1,
    chain_people = [p1; l1; l2] /\
    result (getOrgChain [1; 0]%nat client0 (Some "p1") false) w = Ok [Some l1; Some l2] /\
    result (getOrgChain [0; 1]%nat client0 (Some "p1") true) w
      = Ok [Some l1; Some l2; Some p1].
Proof.
  intros w. eexists _, _, _. split; [reflexivity|].
  destruct (getOrgChain_path_order (directory (baseUrl client0) chain_people) client0
              (Some "p1") _ ["l1"; "l2"] [1; 0]%nat [0; 1]%nat w w
              (directory_stable _ _) ltac:(vm_compute; reflexivity) eq_refl)
    as (Hfalse & Htrue & _).
  - intros i [->|[->|[]%elem_of_nil]%elem_of_cons]%elem_of_cons;
      eexists; vm_compute; reflexivity.
  - apply Permutation_swap.
  - reflexivity.
  - reflexivity.
  - reflexivity.
  - split; [rw Hfalse|rw Htrue]; vm_compute; reflexivity.
Defined.

(** ** Headers of every request *)

Lemma requests_ret {A} P (a : A) : requests P (ret a).
Proof. intros w. exists []. split; [apply sends_refl|constructor]. Qed.

Lemma requests_throw {A} P e : requests P (@throw A e).
Proof. intros w. exists []. split; [apply sends_refl|constructor]. Qed.

Lemma requests_diverge {A} P : requests P (@diverge A).
Proof. intros w. exists []. split; [apply sends_refl|constructor]. Qed.

Lemma requests_bind {A B} P (m : M A) (k : A -> M B) :
  requests P m -> (forall a, requests P (k a)) -> requests P (bind m k).
Proof.
  intros Hm Hk w. rw /bind. destruct (Hm w) as (new1 & Hs1 & Hp1).
  destruct (m w) as [[a| |] w1]; simpl in *; [|by exists new1..].
  destruct (Hk a w1) as (new2 & Hs2 & Hp2).
  exists (new2 ++ new1). split; [by eapply sends_trans|]. by apply Forall_app.
Qed.

Lemma requests_catch {A} P (m : M A) (h : Error -> M A) :
  requests P m -> (forall e, requests P (h e)) -> requests P (catch m h).
Proof.
  intros Hm Hh w. rw /catch. destruct (Hm w) as (new1 & Hs1 & Hp1).
  destruct (m w) as [[a|e|] w1]; simpl in *; [by exists new1| |by exists new1].
  destruct (Hh e w1) as (new2 & Hs2 & Hp2).
  exists (new2 ++ new1). split; [by eapply sends_trans|]. by apply Forall_app.
Qed.

Lemma requests_requestJsonByUrl c m u body :
  requests (carries c) (requestJsonByUrl c m u body).
Proof.
  intros w.
  destruct (requestJsonByUrl_sends c m u body w) as (n & req & _ & Hm & _ & Hh & Hs).
  exists (replicate n req). split; [done|].
  apply Forall_replicate. by rw /carries Hh Hm.
Qed.

Lemma requests_requestJson c m path body :
  requests (carries c) (requestJson c m path body).
Proof. apply requests_requestJsonByUrl. Qed.

Lemma requests_searchPeoplePost c body : requests (carries c) (searchPeoplePost c body).
Proof. apply requests_requestJsonByUrl. Qed.

Lemma requests_followSearchNext c u : requests (carries c) (followSearchNext c u).
Proof. apply requests_requestJsonByUrl. Qed.

Create HintDb requests discriminated.
#[local] Hint Resolve requests_ret requests_throw requests_diverge requests_bind
  requests_catch requests_requestJsonByUrl requests_requestJson
  requests_searchPeoplePost requests_followSearchNext : requests.

Lemma requests_search_response P j : requests P (search_response j).
Proof. rw /search_response. destruct (cast_search j); auto with requests. Qed.
#[local] Hint Resolve requests_search_response : requests.

Lemma requests_follow_pages c fuel : forall resp out,
  requests (carries c) (follow_pages fuel c resp out).
Proof.
  induction fuel as [|fuel IH]; intros resp out; simpl;
    destruct (truthy (links_next resp)); auto 6 with requests.
Qed.
#[local] Hint Resolve requests_follow_pages : requests.

Lemma requests_getDirectReports fuel c key ps :
  requests (carries c) (getDirectReports fuel c key ps).
Proof.
  rw /getDirectReports /collect_pages. destruct (negb (truthy key));
    auto 8 with requests.
Qed.

Lemma requests_getPerson c key : requests (carries c) (getPerson c key).
Proof. rw /getPerson. destruct (negb (truthy key)); auto with requests. Qed.
#[local] Hint Resolve requests_getDirectReports requests_getPerson : requests.

Lemma requests_getFields c force : requests (carries c) (getFields c force).
Proof.
  rw /getFields. apply requests_bind; [by intros w; exists []|]. intros t.
  destruct (negb force && cache_fresh c t); auto with requests.
Qed.

Lemma requests_bfs_loop pfuel c D N ps fuel : forall st,
  requests (carries c) (bfs_loop fuel pfuel c D N ps st).
Proof.
  induction fuel as [|fuel IH]; intros st; simpl.
  - destruct (W.queue st); auto with requests.
  - destruct (W.queue st) as [|item rest]; [auto with requests|].
    destruct (QueueItem.depth item >=? D); [apply IH|].
    apply requests_bind; [auto with requests|]. intros drs.
    destruct (for_drs N item drs _); auto with requests.
Qed.
#[local] Hint Resolve requests_bfs_loop : requests.

Lemma requests_getOrgSubtree fuel pfuel c root opts :
  requests (carries c) (getOrgSubtree fuel pfuel c root opts).
Proof. rw /getOrgSubtree /getOrgSubtree_walk. auto 8 with requests. Qed.

Lemma requests_settle {A} P (tasks : list (M A)) sched : forall slots,
  Forall (requests P) tasks -> requests P (settle sched tasks slots).
Proof.
  induction sched as [|i sched IH]; intros slots Htasks; simpl; [auto with requests|].
  destruct (tasks !! i) as [task|] eqn:Hi; [|by apply IH].
  apply requests_bind; [by eapply Forall_lookup_1|]. intros a. by apply IH.
Qed.

Lemma requests_getOrgChain sched c key incl :
  requests (carries c) (getOrgChain sched c key incl).
Proof.
  apply requests_bind; [apply requests_getPerson|]. intros [p|]; [|apply requests_throw].
  apply requests_bind; [|intros l; apply requests_ret].
  apply requests_bind.
  - apply requests_settle. apply Forall_fmap, Forall_forall. intros i _.
    apply requests_getPerson.
  - intros slots. destruct (all_settled slots); auto with requests.
Qed.

(** ** Credentials *)

Lemma bind_ext {A B} (m m' : M A) (k k' : A -> M B) w :
  (forall w, m w = m' w) -> (forall a w, k a w = k' a w) -> bind m k w = bind m' k' w.
Proof.
  intros Hm Hk. rw /bind Hm. destruct (m' w) as [[a| |] w1]; [apply Hk|done|done].
Qed.

(** The media token has no influence on the JSON operations. *)
Lemma follow_pages_mediaToken c token fuel : forall resp out w,
  follow_pages fuel (with_mediaToken c token) resp out w = follow_pages fuel c resp out w.
Proof.
  induction fuel as [|fuel IH]; intros resp out w; [done|]. simpl.
  destruct (truthy (links_next resp)); [|done].
  apply bind_ext; [done|]. intros j w1. apply bind_ext; [done|]. intros r w2. apply IH.
Qed.

Lemma getDirectReports_mediaToken c token fuel key ps w :
  getDirectReports fuel (with_mediaToken c token) key ps w = getDirectReports fuel c key ps w.
Proof.
  rw /getDirectReports. destruct (negb (truthy key)); [done|].
  apply bind_ext; [|done]. intros w0. rw /collect_pages.
  apply bind_ext; [done|]. intros j w1. apply bind_ext; [done|]. intros r w2.
  apply follow_pages_mediaToken.
Qed.

Lemma bfs_loop_mediaToken c token pfuel D N ps fuel : forall st w,
  bfs_loop fuel pfuel (with_mediaToken c token) D N ps st w =
  bfs_loop fuel pfuel c D N ps st w.
Proof.
  induction fuel as [|fuel IH]; intros st w; [done|]. simpl.
  destruct (W.queue st) as [|item rest]; [done|].
  destruct (QueueItem.depth item >=? D); [apply IH|].
  apply bind_ext; [intros; apply getDirectReports_mediaToken|]. intros drs w1.
  destruct (for_drs N item drs _); [done|apply IH].
Qed.

Lemma getOrgSubtree_mediaToken c token fuel pfuel root opts w :
  getOrgSubtree fuel pfuel (with_mediaToken c token) root opts w =
  getOrgSubtree fuel pfuel c root opts w.
Proof.
  apply bind_ext; [|done]. intros w0. apply bind_ext; [done|]. intros m w1.
  apply bind_ext; [|done]. intros w2. apply bfs_loop_mediaToken.
Qed.

Lemma getOrgChain_mediaToken c token sched key incl w :
  getOrgChain sched (with_mediaToken c token) key incl w = getOrgChain sched c key incl w.
Proof. done. Qed.

Lemma params_filter_out k ps :
  List.filter (fun kv : string * string => String.eqb kv.1 k)
    (List.filter (fun kv : string * string => negb (String.eqb kv.1 k)) ps) = [].
Proof.
  induction ps as [|[k2 v2] ps IH]; [done|]. simpl.
  destruct (String.eqb k2 k) eqn:Hk2; simpl; [done|]. by rw Hk2.
Qed.

Lemma params_set_only k v ps :
  List.filter (fun kv : string * string => String.eqb kv.1 k) (params_set k v ps) = [(k, v)].
Proof.
  induction ps as [|[k' v'] ps IH]; simpl.
  - by rw String.eqb_refl.
  - destruct (String.eqb k' k) eqn:Hk; simpl.
    + by rw String.eqb_refl params_filter_out.
    + by rw Hk.
Qed.

Lemma mkHeaders_authorization c m :
  mkHeaders c m !! "Authorization" = Some ("Bearer " +:+ dataToken c).
Proof.
  destruct m; rw /mkHeaders; repeat (rw lookup_insert_ne; [done|]);
    apply lookup_singleton_eq.
Qed.

Lemma mkHeaders_dom c m :
  dom (mkHeaders c m) ⊆ ({["Authorization"; "Accept"; "Content-Type"]} : gset string).
Proof.
  intros k Hk. apply elem_of_dom in Hk as [v Hk].
  destruct m; rw /mkHeaders in Hk;
    repeat (apply lookup_insert_Some in Hk as [[<- _]|[_ Hk]];
            [rw !elem_of_union !elem_of_singleton; tauto|]);
    apply lookup_singleton_Some in Hk as [<- _];
    rw !elem_of_union !elem_of_singleton; tauto.
Qed.

(** C9. Every request that the JSON transport hands to [fetch], and so
    every request of [getPerson], [getFields], [getDirectReports],
    [getOrgSubtree] and [getOrgChain], carries the headers [mkHeaders]:
    [Authorization] is the bearer data token, no header other than
    [Authorization], [Accept] and [Content-Type] is present, and the
    headers are the same for two clients that differ in their media token
    only. These operations do the same in every world when the media token
    of the client is replaced by another. [makeMediaUrl] is independent of the media token unless
    [tokenInQuery] is set and a media token is configured, and then the
    token is the value of the single [token] query parameter. *)
Theorem media_token_only_in_media_url :
  (forall c m u body w, exists n req, (1 <= n <= 3)%nat /\
     method req = m /\ url req = u /\ headers req = mkHeaders c m /\
     sends (replicate n req) w (after (requestJsonByUrl c m u body) w)) /\
  (forall c,
     (forall key, requests (carries c) (getPerson c key)) /\
     (forall force, requests (carries c) (getFields c force)) /\
     (forall fuel key ps, requests (carries c) (getDirectReports fuel c key ps)) /\
     (forall fuel pfuel root opts,
        requests (carries c) (getOrgSubtree fuel pfuel c root opts)) /\
     (forall sched key incl, requests (carries c) (getOrgChain sched c key incl))) /\
  (forall c token,
     (forall key w, getPerson (with_mediaToken c token) key w = getPerson c key w) /\
     (forall fuel key ps w,
        getDirectReports fuel (with_mediaToken c token) key ps w =
        getDirectReports fuel c key ps w) /\
     (forall fuel pfuel root opts w,
        getOrgSubtree fuel pfuel (with_mediaToken c token) root opts w =
        getOrgSubtree fuel pfuel c root opts w) /\
     (forall sched key incl w,
        getOrgChain sched (with_mediaToken c token) key incl w =
        getOrgChain sched c key incl w)) /\
  (forall c m,
     mkHeaders c m !! "Authorization" = Some ("Bearer " +:+ dataToken c) /\
     dom (mkHeaders c m) ⊆ ({["Authorization"; "Accept"; "Content-Type"]} : gset string)) /\
  (forall c c' m, dataToken c = dataToken c' -> mkHeaders c m = mkHeaders c' m) /\
  (forall URL_new URL_toString String_of_number c c' i k opts,
     baseUrl c = baseUrl c' ->
     tokenInQuery opts && truthy (mediaToken c) = false ->
     tokenInQuery opts && truthy (mediaToken c') = false ->
     makeMediaUrl URL_new URL_toString String_of_number c i k opts =
     makeMediaUrl URL_new URL_toString String_of_number c' i k opts) /\
  (forall URL_new URL_toString String_of_number c i k opts,
     tokenInQuery opts = true -> truthy (mediaToken c) = true ->
     exists u,
       makeMediaUrl URL_new URL_toString String_of_number c i k opts = URL_toString u /\
       List.filter (fun kv : string * string => String.eqb kv.1 "token") (searchParams u)
         = [("token", default "" (mediaToken c))]).
Proof.
  split; [exact requestJsonByUrl_sends|].
  split.
  { intros c. split; [intros; apply requests_getPerson|].
    split; [intros; apply requests_getFields|].
    split; [intros; apply requests_getDirectReports|].
    split; [intros; apply requests_getOrgSubtree|intros; apply requests_getOrgChain]. }
  split.
  { intros c token. split; [done|].
    split; [intros; apply getDirectReports_mediaToken|].
    split; [intros; apply getOrgSubtree_mediaToken|done]. }
  split; [intros c m; split; [apply mkHeaders_authorization|apply mkHeaders_dom]|].
  split; [intros c c' m Htok; by rw /mkHeaders Htok|].
  split.
  - intros ? ? ? c c' i k opts Hbase Hc Hc'. by rw /makeMediaUrl Hbase Hc Hc'.
  - intros ? ? ? c i k opts Hq Hm. rw /makeMediaUrl Hq Hm /=.
    eexists. split; [done|]. apply params_set_only.
Qed.

Lemma media_token_only_in_media_url_witness :
  mkHeaders client0 POST =
    mkHeaders {| baseUrl := baseUrl client0; dataToken := dataToken client0;
                 mediaToken := None; timeoutMs := 15000; fieldsTtlMs := 600000;
                 fieldsCache := None |} POST /\
  makeMediaUrl plain_url href_base (fun _ => "128") client0 "p1" profile_photo
    (photo_opts false) =
  makeMediaUrl plain_url href_base (fun _ => "128")
    {| baseUrl := baseUrl client0; dataToken := dataToken client0;
       mediaToken := Some "another-media-token"; timeoutMs := 15000;
       fieldsTtlMs := 600000; fieldsCache := None |} "p1" profile_photo (photo_opts false) /\
  exists u,
    makeMediaUrl plain_url href_base (fun _ => "128") client0 "p1" profile_photo
      (photo_opts true) = href_base u /\
    List.filter (fun kv : string * string => String.eqb kv.1 "token") (searchParams u)
      = [("token", "media-token")].
Proof.
  destruct media_token_only_in_media_url as (_ & _ & _ & _ & Hhdr & Hoff & Hon).
  split; [by apply Hhdr|]. split; [by apply Hoff|]. by apply Hon.
Defined.


(** ** The transport, attempt by attempt *)

Lemma answer_S w w2 req i :
  server w2 = server w -> sent w2 = req :: sent w ->
  answer w2 req i = answer w req (S i).
Proof.
  intros Hsrv Hsent. rw /answer Hsrv Hsent /=. f_equal.
  by rw (cons_middle req) app_assoc -replicate_cons_app.
Qed.

(** A run of the loop: it makes [n] attempts, sleeps between them, every
    answer but the last raises, and the last answer decides the outcome. *)
Lemma request_loop_run fuel : forall req attempt lastErr w o w',
  0 <= attempt < maxAttempts ->
  maxAttempts - attempt <= Z.of_nat fuel ->
  request_loop fuel req attempt lastErr w = (o, w') ->
  exists n, ran req attempt w o w' n.
Proof.
  induction fuel as [|fuel IH]; intros req attempt lastErr w o w' Hatt Hfuel;
    [rw /maxAttempts in Hatt Hfuel; lia|].
  simpl. destruct (attempt <? maxAttempts) eqn:Hlt; [|lia].
  rw {1}/bind {1}/fetch /=.
  set (w1 := {| server := server w; sent := req :: sent w |}).
  assert (Ha1 : answer w req 1 = server w (req :: sent w)) by done.
  (* the attempt ends the run *)
  assert (Hstop : forall o1,
    match failure req (answer w req 1) with
    | None => o1 = Ok (body_of (answer w req 1))
    | Some e => attempt + 1 = maxAttempts /\ o1 = Throw e
    end ->
    (o1, w1) = (o, w') -> exists n, ran req attempt w o w' n).
  { intros o1 Ho [= <- <-]. exists 1%nat. rw /ran /=.
    split; [lia|]. split; [lia|]. split; [done|]. split; [done|].
    split; [lia|]. split; [intros i Hi; lia|].
    destruct (failure req (answer w req 1)); [|done]. exact Ho. }
  (* the attempt is followed by a sleep and another run *)
  assert (Hgo : forall l w2,
    failure req (answer w req 1) <> None ->
    attempt + 1 < maxAttempts ->
    server w2 = server w -> sent w2 = req :: sent w ->
    length (slept w2) = S (length (slept w)) ->
    request_loop fuel req (attempt + 1) l w2 = (o, w') ->
    exists n, ran req attempt w o w' n).
  { intros l w2 Hfail Hmore Hsrv Hsent Hslept Hrun.
    assert (Hans : forall i, answer w2 req i = answer w req (S i))
      by (intros i; by apply answer_S).
    destruct (IH req (attempt + 1) l w2 o w') as
      (n & Hn & Hle & Hs & Hv & Hsl & Hbefore & Hlast); [lia|lia|done|].
    exists (S n). split; [lia|]. split; [lia|].
    split; [by rw Hs Hsent (cons_middle req) app_assoc -replicate_cons_app|].
    split; [congruence|]. split; [lia|].
    split.
    - intros i Hi. destruct i as [|[|i]]; [lia|done|].
      rw -Hans. apply Hbefore. lia.
    - rw -Hans. destruct (failure req (answer w2 req n)); [|done].
      destruct Hlast. split; [lia|done]. }
  rw Ha1 in Hstop Hgo.
  assert (Hcatch : forall err,
    failure req (server w (req :: sent w)) = Some err ->
    (if attempt + 1 >=? maxAttempts then throw err
     else r <- Math_random ;; (sleep (jittered (attempt + 1) r) ;;;
          request_loop fuel req (attempt + 1) (Some err))) w1 = (o, w') ->
    exists n, ran req attempt w o w' n).
  { intros err Herr. destruct (attempt + 1 >=? maxAttempts) eqn:Hge.
    - apply Hstop. rw Herr. split; [rw /maxAttempts in Hatt Hge |- *; lia|done].
    - rw /bind /=. apply Hgo; [by rw Herr|lia|done..]. }
  destruct (server w (req :: sent w)) as [msg|res] eqn:Hsrv; [by apply Hcatch|].
  destruct (status res =? 204) eqn:H204;
    [by apply Hstop; rw /failure /body_of H204|].
  destruct (negb (res_ok res)) eqn:Hok.
  - destruct (((status res =? 429) || (status res >=? 500)) &&
              (attempt + 1 <? maxAttempts)) eqn:Hretry;
      [|by apply Hcatch; rw /failure H204 Hok].
    apply andb_true_iff in Hretry as [_ Hmore].
    rw /bind /=. apply Hgo; [by rw /failure H204 Hok|lia|done..].
  - destruct (json res) as [j|] eqn:Hj.
    + by apply Hstop; rw /failure /body_of H204 Hok Hj.
    + by apply Hcatch; rw /failure H204 Hok Hj.
Qed.

Lemma requestJsonByUrl_ran c m u body w :
  let call := requestJsonByUrl c m u body in
  ran (mkRequest c m u body) 0 w (result call w) (after call w) (attempts call w).
Proof.
  intros call.
  destruct (call w) as [o w'] eqn:Hrun.
  destruct (request_loop_run 3 (mkRequest c m u body) 0 None w o w') as (n & Hn);
    [done|done|exact Hrun|].
  rw /result /after /attempts /after Hrun /=.
  replace (length (sent w') - length (sent w))%nat with n; [done|].
  destruct Hn as (_ & _ & -> & _). rw length_app length_replicate. lia.
Qed.

(** X1 (requestJsonByUrl, the retry loop). A call hands one and the same
    request to [fetch] between one and three times and sleeps exactly once
    between two consecutive attempts, never after the last. An attempt is
    followed by another one exactly when its answer raised (a rejected
    fetch, any status outside 2xx, a body that is not JSON) and it was not
    the third. *)
Theorem requestJsonByUrl_attempts c m u body w :
  let req := mkRequest c m u body in
  let call := requestJsonByUrl c m u body in
  let n := attempts call w in
  (1 <= n <= 3)%nat /\
  sent (after call w) = replicate n req ++ sent w /\
  length (slept (after call w)) = (length (slept w) + n - 1)%nat /\
  (forall i, (1 <= i < n)%nat -> failure req (answer w req i) <> None) /\
  ((n < 3)%nat -> failure req (answer w req n) = None).
Proof.
  intros req call n.
  destruct (requestJsonByUrl_ran c m u body w) as (Hn & Hle & Hs & _ & Hsl & Hbefore & Hlast).
  fold call req n in Hn, Hle, Hs, Hsl, Hbefore, Hlast.
  rw /maxAttempts in Hle.
  split; [lia|]. split; [done|]. split; [done|]. split; [done|].
  intros Hlt. destruct (failure req (answer w req n)); [|done].
  destruct Hlast as [Hlast _]. rw /maxAttempts in Hlast. lia.
Qed.

(** X2 (requestJsonByUrl, the outcome). The last answer decides the
    outcome. A call returns only when its last answer raised nothing: the
    JSON body of a 2xx response, or [undefined] for a 204. A call throws
    only after a third attempt, and what it throws is the exception of the
    third answer; the fallback "Unknown error" after the loop is never
    thrown. The call always settles. *)
Theorem requestJsonByUrl_outcome c m u body w :
  let req := mkRequest c m u body in
  let call := requestJsonByUrl c m u body in
  let n := attempts call w in
  match result call w with
  | Ok r => failure req (answer w req n) = None /\ r = body_of (answer w req n)
  | Throw e => n = 3%nat /\ failure req (answer w req 3) = Some e /\ e <> UnknownError
  | Diverge => False
  end.
Proof.
  intros req call n.
  destruct (requestJsonByUrl_ran c m u body w) as (Hn & Hle & _ & _ & _ & _ & Hlast).
  fold call req n in Hn, Hle, Hlast. rw /maxAttempts in Hle, Hlast.
  destruct (failure req (answer w req n)) as [e|] eqn:Hfail.
  - destruct Hlast as [H3 ->]. assert (n = 3%nat) as Hn3 by lia.
    split; [done|]. rw -Hn3. split; [done|].
    rw /failure in Hfail.
    destruct (answer w req n) as [msg|res]; [by injection Hfail as <-|].
    destruct (status res =? 204); [done|].
    destruct (negb (res_ok res)); [by injection Hfail as <-|].
    destruct (json res); [done|by injection Hfail as <-].
  - by rw Hlast.
Qed.

Lemma requestJsonByUrl_attempts_witness :
  let w := world_of (scripted [unavailable; not_found] (ok_person (person "p1" None 0))) 0 in
  let req := mkRequest client0 GET "https://api.justsift.com/v1/people/p1" None in
  attempts (requestJsonByUrl client0 GET "https://api.justsift.com/v1/people/p1" None) w
    = 3%nat /\
  failure req (answer w req 1) <> None /\ failure req (answer w req 2) <> None.
Proof.
  intros w req.
  pose proof (requestJsonByUrl_attempts client0 GET
                "https://api.justsift.com/v1/people/p1" None w) as H.
  cbv zeta in H. destruct H as (_ & _ & _ & Hbefore & _).
  assert (Hn : attempts (requestJsonByUrl client0 GET
                 "https://api.justsift.com/v1/people/p1" None) w = 3%nat)
    by (vm_compute; reflexivity).
  rw Hn in Hbefore. split; [exact Hn|].
  split; apply Hbefore; lia.
Defined.

(** ** The constructor *)

Lemma strip_trailing_slash_app u : strip_trailing_slash (u +:+ "/") = u.
Proof.
  induction u as [|a u IH]; [done|].
  change (String a u +:+ "/") with (String a (u +:+ "/")).
  simpl. rw IH. by destruct u.
Qed.

Lemma strip_trailing_slash_id u :
  (forall v, u <> v +:+ "/") -> strip_trailing_slash u = u.
Proof.
  induction u as [|a u IH]; [done|]. intros Hno.
  destruct u as [|b u].
  - simpl. destruct (Ascii.eqb_spec a "/") as [->|]; [|done].
    by destruct (Hno "").
  - change (strip_trailing_slash (String a (String b u)))
      with (String a (strip_trailing_slash (String b u))).
    rw IH; [|done]. intros v Hv. apply (Hno (String a v)). by rw Hv.
Qed.

Lemma append_slash_neq v : v +:+ "/" <> v.
Proof. induction v as [|a v IH]; [done|]. simpl. intros [= H]. by apply IH. Qed.

Lemma no_trailing_slash u : strip_trailing_slash u = u -> forall v, u <> v +:+ "/".
Proof.
  intros Hu v ->. rw strip_trailing_slash_app in Hu. by apply (append_slash_neq v).
Qed.

(** X3 (the constructor). With a [fetch] implementation at hand,
    [new SiftClient] throws exactly when the data token is missing or empty.
    Otherwise the client keeps the tokens as given and starts with an empty
    metadata cache. Its base URL is the default when none, or an empty
    one, is given; a given [u + "/"] becomes [u], one slash being removed
    and no more; and a given [u] that is not empty and does not end in a
    slash is kept as it is. So [u + "/"] and [u] build the same client
    when [u] is not empty and does not end in a slash, and two different
    clients when [u] is empty or ends in a slash. *)
Theorem new_SiftClient_spec opts :
  (truthy (ClientOptions.dataToken opts) = false ->
     new_SiftClient opts = inl (CallerError "SiftClient: dataToken is required")) /\
  (truthy (ClientOptions.dataToken opts) = true ->
     exists c, new_SiftClient opts = inr c /\
       Some (dataToken c) = ClientOptions.dataToken opts /\
       mediaToken c = ClientOptions.mediaToken opts /\
       fieldsCache c = None /\
       (truthy (ClientOptions.baseUrl opts) = false ->
          baseUrl c = "https://api.justsift.com/v1") /\
       (forall u, ClientOptions.baseUrl opts = Some (u +:+ "/") -> baseUrl c = u) /\
       (forall u, ClientOptions.baseUrl opts = Some u -> u <> "" ->
          (forall v, u <> v +:+ "/") -> baseUrl c = u)) /\
  (forall u, u <> "" -> (forall v, u <> v +:+ "/") ->
     new_SiftClient (with_baseUrl opts (Some (u +:+ "/"))) =
     new_SiftClient (with_baseUrl opts (Some u))) /\
  (truthy (ClientOptions.dataToken opts) = true ->
   forall u, u = "" \/ (exists v, u = v +:+ "/") ->
     new_SiftClient (with_baseUrl opts (Some (u +:+ "/"))) <>
     new_SiftClient (with_baseUrl opts (Some u))).
Proof.
  assert (Hslash : forall u, negb (String.eqb (u +:+ "/") "") = true) by by intros [|a u].
  split; [|split; [|split]].
  - rw /new_SiftClient. by intros ->.
  - rw /new_SiftClient. intros Htok. rw Htok /=.
    eexists. split; [reflexivity|]. simpl.
    split; [by destruct (ClientOptions.dataToken opts)|]. split; [done|]. split; [done|].
    split; [by intros ->|]. split.
    + intros u Hu. rw Hu /= Hslash. apply strip_trailing_slash_app.
    + intros u Hu Hne Hno. rw Hu /=.
      destruct (String.eqb_spec u ""); [done|]. simpl. by apply strip_trailing_slash_id.
  - intros u Hne Hno. rw /new_SiftClient /with_baseUrl /=.
    destruct (negb (truthy (ClientOptions.dataToken opts))); [done|].
    rw Hslash. destruct (String.eqb_spec u ""); [done|]. simpl.
    by rw strip_trailing_slash_app strip_trailing_slash_id.
  - intros Htok u Hu. rw /new_SiftClient /with_baseUrl /= Htok /= Hslash.
    rw strip_trailing_slash_app. intros [= Hbase]. destruct Hu as [->|[v ->]].
    + simpl in Hbase. discriminate Hbase.
    + rw Hslash strip_trailing_slash_app in Hbase. by apply (append_slash_neq v).
Qed.

Lemma new_SiftClient_spec_witness :
  let opts := {| ClientOptions.dataToken := Some "data-token";
                 ClientOptions.mediaToken := None;
                 ClientOptions.baseUrl := Some "https://sift.example/v1/";
                 ClientOptions.timeoutMs := None;
                 ClientOptions.fieldsTtlMs := None |} in
  (exists c, new_SiftClient opts = inr c /\ baseUrl c = "https://sift.example/v1") /\
  new_SiftClient (with_baseUrl opts (Some "https://sift.example/v1/")) =
    new_SiftClient (with_baseUrl opts (Some "https://sift.example/v1")) /\
  new_SiftClient (with_baseUrl opts (Some "/")) <> new_SiftClient (with_baseUrl opts (Some "")).
Proof.
  intros opts.
  destruct (new_SiftClient_spec opts) as (_ & H & Hsame & Hdiff).
  split; [|split].
  - destruct (H eq_refl) as (c & Hc & _ & _ & _ & _ & Hslash & _).
    exists c. split; [exact Hc|]. by apply (Hslash "https://sift.example/v1").
  - apply (Hsame "https://sift.example/v1"); [done|].
    by apply no_trailing_slash.
  - apply (Hdiff eq_refl ""). by left.
Defined.

(** ** The requests of each method *)

Lemma requests_mono {A} (P Q : Request -> Prop) (m : M A) :
  (forall r, P r -> Q r) -> requests P m -> requests Q m.
Proof.
  intros HPQ Hm w. destruct (Hm w) as (new & Hs & Hall).
  exists new. split; [done|]. eapply Forall_impl; [exact Hall|done].
Qed.

(** The transport sends nothing but the request it has built. *)
Lemma requests_mkRequest c m u body :
  requests (fun r => r = mkRequest c m u body) (requestJsonByUrl c m u body).
Proof.
  intros w.
  destruct (request_loop_sends (Z.to_nat maxAttempts) (mkRequest c m u body) 0 None w)
    as (n & _ & Hs).
  exists (replicate n (mkRequest c m u body)). split; [exact Hs|].
  by apply Forall_replicate.
Qed.

Lemma hex_digit_inj n m :
  (n < 16)%nat -> (m < 16)%nat -> hex_digit n = hex_digit m -> n = m.
Proof.
  intros Hn Hm.
  do 16 (destruct n as [|n];
    [do 16 (destruct m as [|m]; [first [done|discriminate]|]); lia|]).
  lia.
Qed.

Lemma hex_pair_inj a b :
  hex_digit (nat_of_ascii a / 16) = hex_digit (nat_of_ascii b / 16) ->
  hex_digit (nat_of_ascii a mod 16) = hex_digit (nat_of_ascii b mod 16) ->
  a = b.
Proof.
  intros Hhi Hlo.
  pose proof (nat_ascii_bounded a) as Hba. pose proof (nat_ascii_bounded b) as Hbb.
  apply hex_digit_inj in Hhi;
    [|apply Nat.Div0.div_lt_upper_bound; lia|apply Nat.Div0.div_lt_upper_bound; lia].
  apply hex_digit_inj in Hlo; [|apply Nat.mod_upper_bound; lia..].
  rw -(ascii_nat_embedding a) -(ascii_nat_embedding b). f_equal.
  rw (Nat.div_mod_eq (nat_of_ascii a) 16) (Nat.div_mod_eq (nat_of_ascii b) 16).
  by rw Hhi Hlo.
Qed.

Lemma unreserved_percent a : unreserved a = true -> a <> "%"%char.
Proof. by intros Ha ->. Qed.

Lemma encodeURIComponent_inj k : forall k',
  encodeURIComponent k = encodeURIComponent k' -> k = k'.
Proof.
  induction k as [|a k IH]; intros [|b k']; cbn [encodeURIComponent].
  - done.
  - by destruct (unreserved b).
  - by destruct (unreserved a).
  - destruct (unreserved a) eqn:Ha, (unreserved b) eqn:Hb.
    + intros [= -> Ht]. by rw (IH _ Ht).
    + intros [= -> _]. by apply unreserved_percent in Ha.
    + intros [= <- _]. by apply unreserved_percent in Hb.
    + intros [= Hhi Hlo Ht]. rw (IH _ Ht). f_equal.
      apply hex_pair_inj; [exact Hhi|exact Hlo].
Qed.

Lemma encodeURIComponent_chars k :
  Forall (fun a => unreserved a = true \/ a = "%"%char)
    (list_ascii_of_string (encodeURIComponent k)).
Proof.
  induction k as [|a k IH]; cbn [encodeURIComponent]; [constructor|].
  destruct (unreserved a) eqn:Ha; cbn [list_ascii_of_string].
  - constructor; [by left|done].
  - constructor; [by right|].
    assert (Hhex : forall n, (n < 16)%nat -> unreserved (hex_digit n) = true).
    { intros n Hn. do 16 (destruct n as [|n]; [done|]). lia. }
    pose proof (nat_ascii_bounded a) as Hba.
    constructor; [left; apply Hhex, Nat.Div0.div_lt_upper_bound; lia|].
    constructor; [left; apply Hhex, Nat.mod_upper_bound; lia|done].
Qed.

Lemma append_inj_l (p s t : string) : p +:+ s = p +:+ t -> s = t.
Proof. induction p as [|a p IH]; simpl; [done|]. intros [= H]. by apply IH. Qed.

(** X4 (getPerson, the request). Every request of a lookup is a GET
    without a body for [baseUrl + "/people/" + segment], where the segment
    encodes the key: it is not empty, it holds nothing but unreserved
    characters and percent signs (so no slash, question mark or hash can
    leave the path segment), and two different keys never give the same
    URL. *)
Theorem getPerson_request c key :
  requests (fun r => method r = GET /\ payload r = None /\
              exists k seg, key = Some k /\ seg = encodeURIComponent k /\
                url r = baseUrl c +:+ "/people/" +:+ seg /\ seg <> "" /\
                Forall (fun a => unreserved a = true \/ a = "%"%char)
                  (list_ascii_of_string seg) /\
                forall k', url r = baseUrl c +:+ "/people/" +:+ encodeURIComponent k' ->
                  k' = k)
    (getPerson c key).
Proof.
  rw /getPerson. destruct key as [k|]; [|apply requests_throw].
  destruct (truthy (Some k)) eqn:Hk; simpl; [|apply requests_throw].
  apply requests_bind; [|intros; apply requests_ret].
  eapply requests_mono; [|apply requests_mkRequest].
  intros r ->. split; [done|]. split; [done|].
  exists k, (encodeURIComponent k). split; [done|]. split; [done|]. split; [done|].
  split; [|split; [apply encodeURIComponent_chars|]].
  - destruct k as [|a k]; [done|]. simpl. by destruct (unreserved a).
  - simpl. intros k' Hk'. symmetry.
    by apply encodeURIComponent_inj, (append_inj_l "/people/"), (append_inj_l (baseUrl c)).
Qed.

Lemma walker_GET c u : requests (walker_request c) (requestJsonByUrl c GET u None).
Proof. eapply requests_mono; [|apply requests_mkRequest]. by intros r ->. Qed.

Lemma walker_POST c key ps :
  truthy key = true ->
  requests (walker_request c) (searchPeoplePost c (search_body key ps)).
Proof.
  intros Hkey. eapply requests_mono; [|apply requests_mkRequest].
  intros r ->. split; [done|]. exists key, (clamp_pageSize ps).
  split; [done|]. split; [rw /clamp_pageSize; lia|done].
Qed.

Lemma walker_follow_pages c fuel : forall resp out,
  requests (walker_request c) (follow_pages fuel c resp out).
Proof.
  induction fuel as [|fuel IH]; intros resp out; simpl;
    destruct (truthy (links_next resp)); try apply requests_ret; [apply requests_diverge|].
  apply requests_bind; [apply walker_GET|]. intros j.
  apply requests_bind; [apply requests_search_response|]. intros resp'. apply IH.
Qed.

Lemma walker_getDirectReports fuel c key ps :
  requests (walker_request c) (getDirectReports fuel c key ps).
Proof.
  rw /getDirectReports /collect_pages.
  destruct (truthy key) eqn:Hkey; simpl; [|apply requests_throw].
  apply requests_bind; [|intros; apply requests_ret].
  apply requests_bind; [by apply walker_POST|]. intros j.
  apply requests_bind; [apply requests_search_response|]. intros resp.
  apply walker_follow_pages.
Qed.

Lemma walker_getPerson c key : requests (walker_request c) (getPerson c key).
Proof.
  rw /getPerson. destruct (negb (truthy key)); [apply requests_throw|].
  apply requests_bind; [apply walker_GET|]. intros; apply requests_ret.
Qed.

Lemma walker_bfs_loop pfuel c D N ps fuel : forall st,
  requests (walker_request c) (bfs_loop fuel pfuel c D N ps st).
Proof.
  induction fuel as [|fuel IH]; intros st; simpl.
  - destruct (W.queue st); [apply requests_ret|apply requests_diverge].
  - destruct (W.queue st) as [|item rest]; [apply requests_ret|].
    destruct (QueueItem.depth item >=? D); [apply IH|].
    apply requests_bind; [apply walker_getDirectReports|]. intros drs.
    destruct (for_drs N item drs _); [apply requests_ret|apply IH].
Qed.

(** X5 (getDirectReports, getOrgSubtree, getOrgChain: the requests).
    For every identifier, every integer page size (a page size that is not
    a number is outside this development, which takes page sizes as
    integers) and whatever the server answers, the traversal helpers send
    nothing but GET requests without a body and structured searches: a
    POST to [baseUrl + "/search/people"] for page 1, with a page size
    between 1 and 100 and the filter [teamLeaderId eq id] on an id that is
    not empty. The chain resolver sends GET requests only. *)
Theorem traversal_requests c :
  (forall fuel key ps, requests (walker_request c) (getDirectReports fuel c key ps)) /\
  (forall fuel pfuel root opts,
     requests (walker_request c) (getOrgSubtree fuel pfuel c root opts)) /\
  (forall sched key incl,
     requests (fun r => method r = GET /\ payload r = None)
       (getOrgChain sched c key incl)).
Proof.
  split; [intros; apply walker_getDirectReports|]. split.
  - intros fuel pfuel root opts. rw /getOrgSubtree /getOrgSubtree_walk.
    apply requests_bind; [|intros; apply requests_ret].
    apply requests_bind;
      [apply requests_catch; [apply walker_getPerson|intros; apply requests_ret]|].
    intros m. apply requests_bind; [apply walker_bfs_loop|intros; apply requests_ret].
  - intros sched key incl.
    assert (Hget : forall k, requests (fun r => method r = GET /\ payload r = None)
                               (getPerson c k)).
    { intros k. rw /getPerson. destruct (negb (truthy k)); [apply requests_throw|].
      apply requests_bind; [|intros; apply requests_ret].
      eapply requests_mono; [|apply requests_mkRequest]. by intros r ->. }
    apply requests_bind; [apply Hget|]. intros [p|]; [|apply requests_throw].
    apply requests_bind; [|intros l; apply requests_ret].
    apply requests_bind.
    + apply requests_settle. apply Forall_fmap, Forall_forall. intros i _. apply Hget.
    + intros slots. destruct (all_settled slots); [apply requests_ret|apply requests_diverge].
Qed.

(** ** The subtree walker: counters *)

(** The loop with an invariant that may depend on the item taken from the
    queue and on the batch that [getDirectReports] returned for it. *)
Lemma bfs_loop_ind (P : W.t -> Prop) (Q : W.t -> bool -> Prop) pfuel c D N ps :
  (forall st, P st -> W.queue st = [] -> Q st false) ->
  (forall st item rest, P st -> W.queue st = item :: rest -> D <= QueueItem.depth item ->
     P (W.set_depthReached (Z.max (W.depthReached st) (QueueItem.depth item))
          (W.set_queue rest st))) ->
  (forall st item rest drs w w1, P st -> W.queue st = item :: rest ->
     QueueItem.depth item < D ->
     getDirectReports pfuel c (QueueItem.id item) ps w = (Ok drs, w1) ->
     match for_drs N item drs
             (expanded_one (QueueItem.depth item) (W.incr_apiCalls (W.set_queue rest st))) with
     | Returned st' => Q st' true
     | Completed st' => P st'
     end) ->
  forall fuel st w st' t w',
    P st -> bfs_loop fuel pfuel c D N ps st w = (Ok (st', t), w') -> Q st' t.
Proof.
  intros Hempty Hskip Hbatch.
  induction fuel as [|fuel IH]; intros st w st' t w' HP.
  - simpl. destruct (W.queue st) eqn:Hq; [|done]. intros [= <- <- <-]. by apply Hempty.
  - simpl. destruct (W.queue st) as [|item rest] eqn:Hq.
    { intros [= <- <- <-]. by apply Hempty. }
    destruct (QueueItem.depth item >=? D) eqn:Hd.
    { apply IH. apply (Hskip st item rest); [done|done|lia]. }
    rw {1}/bind.
    destruct (getDirectReports pfuel c (QueueItem.id item) ps w) as [[drs| |] w1] eqn:Hdrs;
      [|done|done].
    specialize (Hbatch st item rest drs w w1 HP Hq ltac:(lia) Hdrs).
    destruct (for_drs N item drs _) as [st1|st1].
    + by intros [= <- <- <-].
    + by apply IH.
Qed.

(** A batch leaves the counters alone. *)
Lemma for_drs_counters N item drs : forall st,
  match for_drs N item drs st with
  | Returned st' | Completed st' =>
    W.apiCalls st' = W.apiCalls st /\ W.expanded st' = W.expanded st /\
    W.depthReached st' = W.depthReached st
  end.
Proof.
  induction drs as [|p drs IH]; intros st; [done|]. simpl.
  destruct (Map_has (id p) (W.nodesMap st)); simpl.
  { match goal with |- context [for_drs N item drs ?s] =>
      specialize (IH s); by destruct (for_drs N item drs s) end. }
  destruct (Map_size (Map_set (id p) p (W.nodesMap st)) >=? N); [done|].
  destruct (default 0 (directReportCount p) >? 0);
    match goal with |- context [for_drs N item drs ?s] =>
      specialize (IH s); by destruct (for_drs N item drs s) end.
Qed.

Lemma walk_budget_pushes N s0 st : 1 <= N -> walk_budget N s0 st -> W.pushes st <= N.
Proof. rw /walk_budget. lia. Qed.

Lemma for_drs_budget N s0 item drs : forall st,
  1 <= N -> walk_budget N s0 st ->
  match for_drs N item drs st with
  | Returned st' => W.expanded st' <= N
  | Completed st' => walk_budget N s0 st'
  end.
Proof.
  induction drs as [|p drs IH]; intros st HN Hinv; [done|]. simpl.
  destruct (Map_has (id p) (W.nodesMap st)) eqn:Hhas; simpl; [by apply IH|].
  pose proof (Map_size_set (id p) p _ Hhas) as Hsize.
  destruct (Map_size (Map_set (id p) p (W.nodesMap st)) >=? N) eqn:Hcap.
  { simpl. pose proof (walk_budget_pushes N s0 st HN Hinv). rw /walk_budget in Hinv. lia. }
  apply IH; [done|]. rw /walk_budget in Hinv |- *.
  destruct (default 0 (directReportCount p) >? 0); simpl; rw ?length_app /=; lia.
Qed.

Lemma walk_start_budget N m root opts :
  walk_budget N (if seeded m opts then 1 else 0) (walk_start m root opts).
Proof.
  rw /walk_budget walk_start_size /walk_start.
  destruct m as [m|]; [|simpl; lia].
  destruct (seeded (Some m) opts); simpl; lia.
Qed.

Lemma walk_start_counters D m root opts : walk_counters D (walk_start m root opts).
Proof.
  rw /walk_counters /walk_start. destruct m as [m|]; [|simpl; lia].
  destruct (seeded (Some m) opts); simpl; lia.
Qed.

Lemma bfs_loop_counters pfuel c D N s0 ps fuel st w st' t w' :
  1 <= N ->
  walk_counters D st /\ queue_within D st /\ walk_budget N s0 st ->
  bfs_loop fuel pfuel c D N ps st w = (Ok (st', t), w') ->
  walk_counters D st' /\ W.expanded st' <= N.
Proof.
  intros HN.
  apply (bfs_loop_ind
           (fun st => walk_counters D st /\ queue_within D st /\ walk_budget N s0 st)
           (fun st _ => walk_counters D st /\ W.expanded st <= N)).
  - intros st0 (Hc & _ & Hb) _. split; [done|].
    pose proof (walk_budget_pushes N s0 st0 HN Hb). rw /walk_budget in Hb. lia.
  - intros st0 item rest (Hc & Hq & Hb) Hqueue Hd.
    rw /queue_within Hqueue in Hq. apply Forall_cons in Hq as [Hitem Hrest].
    split; [|split; [done|]].
    + rw /walk_counters /= in Hc |- *. lia.
    + rw /walk_budget /= Hqueue /= in Hb |- *. lia.
  - intros st0 item rest drs w0 w1 (Hc & Hq & Hb) Hqueue Hd _.
    rw /queue_within Hqueue in Hq. apply Forall_cons in Hq as [Hitem Hrest].
    set (st1 := expanded_one _ _).
    assert (Hc1 : walk_counters D st1) by (rw /walk_counters /= in Hc |- *; lia).
    assert (Hq1 : queue_within D st1) by done.
    assert (Hb1 : walk_budget N s0 st1)
      by (rw /walk_budget /= Hqueue /= in Hb |- *; lia).
    pose proof (for_drs_counters N item drs st1) as Hsame.
    pose proof (for_drs_budget N s0 item drs st1 HN Hb1) as Hbud.
    pose proof (for_drs_queue_within N D item drs st1 Hd Hq1) as Hwithin.
    destruct (for_drs N item drs st1) as [st2|st2];
      destruct Hsame as (Ha & He & Hdr).
    + split; [rw /walk_counters Ha He Hdr; exact Hc1|exact Hbud].
    + split; [rw /walk_counters Ha He Hdr; exact Hc1|]. by split.
Qed.

(** X6 (getOrgSubtree, the statistics). In every result, [stats.apiCalls]
    equals [stats.expanded]: it counts the [getDirectReports] calls, one per
    expanded node, not the HTTP requests. The number of expansions never
    exceeds the effective node cap [max(1, maxNodes)], and
    [stats.depthReached] lies between 0 and [max(0, maxDepth)]. *)
Theorem subtree_stats fuel pfuel c root opts w r w' :
  getOrgSubtree fuel pfuel c root opts w = (Ok r, w') ->
  Stats.apiCalls (stats r) = Stats.expanded (stats r) /\
  0 <= Stats.expanded (stats r) <= eff_maxNodes opts /\
  0 <= Stats.depthReached (stats r) <= Z.max 0 (eff_maxDepth opts).
Proof.
  rw /getOrgSubtree {1}/bind.
  destruct (getOrgSubtree_walk fuel pfuel c root opts w) as [[[[m st] t]| |] w1] eqn:Hwalk;
    [|done|done].
  intros [= <- <-]. simpl.
  apply getOrgSubtree_walk_inv in Hwalk as (w0 & Hloop).
  apply (bfs_loop_counters _ _ _ _ (if seeded m opts then 1 else 0)) in Hloop
    as ((Ha & He & Hd) & Hexp).
  - done.
  - rw /eff_maxNodes. lia.
  - split; [apply walk_start_counters|].
    split; [apply walk_start_queue_within|apply walk_start_budget].
Qed.

Lemma subtree_stats_witness :
  exists r,
    result (getOrgSubtree 10 5 client0 "root" (scenario_opts false (Some 2) (Some 100)))
      scenario_world = Ok r /\
    Stats.apiCalls (stats r) = 2 /\ Stats.expanded (stats r) = 2 /\
    Stats.apiCalls (stats r) = Stats.expanded (stats r).
Proof.
  destruct (getOrgSubtree 10 5 client0 "root" (scenario_opts false (Some 2) (Some 100))
              scenario_world) as [[r| |] w'] eqn:Hrun;
    [|vm_compute in Hrun; discriminate Hrun..].
  exists r. split; [by rw /result Hrun|].
  destruct (subtree_stats _ _ _ _ _ _ _ _ Hrun) as (Heq & _ & _).
  assert (Hexp : Stats.expanded (stats r) = 2).
  { vm_compute in Hrun. by injection Hrun as <- _. }
  split; [by rw Heq|]. split; [done|done].
Defined.

(** ** The subtree walker: nodes and edges *)

Lemma dedupe_from_snoc l x : forall seen : gset string,
  dedupe_from seen (l ++ [x]) =
  dedupe_from seen l ++ (if bool_decide (x ∈ seen \/ x ∈ l) then [] else [x]).
Proof.
  induction l as [|y l IH]; intros seen; simpl.
  - destruct (bool_decide_reflect (x ∈ seen)) as [Hx|Hx].
    + rw bool_decide_eq_true_2; [by left|done].
    + rw bool_decide_eq_false_2; [|done]. intros [?|Hnil]; [done|]. by apply elem_of_nil in Hnil.
  - destruct (bool_decide_reflect (y ∈ seen)) as [Hy|Hy].
    + rw IH. f_equal. apply (f_equal (fun b : bool => if b then [] else [x])).
      apply bool_decide_ext. rw elem_of_cons. split; [tauto|].
      intros [?|[->|?]]; tauto.
    + rw IH /=. f_equal. f_equal.
      apply (f_equal (fun b : bool => if b then [] else [x])).
      apply bool_decide_ext. rw elem_of_cons elem_of_union elem_of_singleton. tauto.
Qed.

Lemma getDirectReports_truthy fuel c key ps w drs w1 :
  getDirectReports fuel c key ps w = (Ok drs, w1) ->
  Forall (fun p => truthy (id p) = true) drs.
Proof.
  rw /getDirectReports. destruct (negb (truthy key)); [done|].
  rw {1}/bind. destruct (collect_pages fuel c key ps w) as [[out| |] w2]; [|done|done].
  intros [= <- _]. apply Forall_forall. intros x Hx.
  apply dedupeById_loop_first in Hx as (Hne & _). by apply truthy_id.
Qed.

(** Whether the id of [p] is a key of the node map, in terms of the edges. *)
Lemma nodes_follow_edges_has seed st p :
  nodes_follow_edges seed st -> truthy (id p) = true ->
  id p ∈ (W.nodesMap st).*1 <->
  id_or_empty p ∈ (list_to_set (id_or_empty <$> seed) : gset string) \/
  id_or_empty p ∈ target <$> W.edges st.
Proof.
  intros (added & Hmap & Hkeys & _ & Hadded) Hp.
  pose proof (dedupe_from_spec (target <$> W.edges st)
                (list_to_set (id_or_empty <$> seed))) as (_ & _ & Hin).
  assert (Hne : id_or_empty p <> "") by by apply truthy_id.
  split.
  - intros ([k v] & Hk & Hkv)%list_elem_of_fmap. simpl in Hk.
    rw Forall_forall in Hkeys. destruct (Hkeys _ Hkv) as [Hid _]. simpl in Hid.
    assert (Hx : id_or_empty p = id_or_empty v) by (rw /id_or_empty Hk Hid; done).
    rw Hmap in Hkv. apply elem_of_app in Hkv as [Hseed|Hadd].
    + left. apply list_elem_of_fmap in Hseed as (m & [= -> ->] & Hm).
      rw elem_of_list_to_set list_elem_of_fmap. by exists m.
    + right. apply (Hin (id_or_empty p)). rw -Hadded Hx.
      apply list_elem_of_fmap. exists v. split; [done|].
      apply list_elem_of_fmap. by exists (k, v).
  - intros Hcases.
    assert (Hv : exists v, (id v, v) ∈ W.nodesMap st /\ id_or_empty v = id_or_empty p).
    { destruct (decide (id_or_empty p ∈ (list_to_set (id_or_empty <$> seed) : gset string)))
        as [Hseed|Hseed].
      - rw elem_of_list_to_set list_elem_of_fmap in Hseed. destruct Hseed as (m & Hm & Hmem).
        exists m. split; [|done]. rw Hmap. apply elem_of_app. left.
        apply list_elem_of_fmap. by exists m.
      - destruct Hcases as [?|Hedge]; [done|].
        assert (Hd : id_or_empty p ∈ id_or_empty <$> added.*2)
          by (rw Hadded; by apply Hin).
        apply list_elem_of_fmap in Hd as (v & Hv & Hmem).
        apply list_elem_of_fmap in Hmem as ([k v'] & Hkv & Hmem). simpl in Hkv. subst v'.
        exists v. split; [|done].
        assert (Hall : (k, v) ∈ W.nodesMap st) by (rw Hmap; apply elem_of_app; by right).
        rw Forall_forall in Hkeys. destruct (Hkeys _ Hall) as [Hid _]. simpl in Hid.
        by rw -Hid. }
    destruct Hv as (v & Hmem & Hv).
    apply list_elem_of_fmap. exists (id v, v). split; [|done]. simpl.
    symmetry. by apply (id_or_empty_eq p v).
Qed.

Lemma for_drs_nodes seed N item drs : forall st,
  Forall (fun p => truthy (id p) = true) drs ->
  nodes_follow_edges seed st ->
  match for_drs N item drs st with
  | Returned st' | Completed st' => nodes_follow_edges seed st'
  end.
Proof.
  induction drs as [|p drs IH]; intros st Hdrs Hinv; [done|].
  apply Forall_cons in Hdrs as [Hp Hdrs]. simpl.
  pose proof (nodes_follow_edges_has seed st p Hinv Hp) as Hhas.
  destruct Hinv as (added & Hmap & Hkeys & Hedges & Hadded).
  assert (Hedges' : Forall (fun e => truthy (personId e) = true)
                      (W.edges st ++ [edge_of p])).
  { apply Forall_app. split; [done|]. by repeat constructor. }
  destruct (Map_has (id p) (W.nodesMap st)) eqn:Hin; simpl.
  - apply IH; [done|]. exists added. simpl. split; [done|]. split; [done|]. split; [done|].
    rw fmap_app /= dedupe_from_snoc bool_decide_eq_true_2; [|by rw app_nil_r].
    apply Hhas. by apply bool_decide_eq_true_1 in Hin.
  - assert (Hnew : nodes_follow_edges seed
      (W.set_node (id p) p
         (W.push_edge (edge_of p) (QueueItem.id item, QueueItem.depth item) st))).
    { exists (added ++ [(id p, p)]). simpl. rw /Map_set Hin Hmap app_assoc.
      split; [done|]. split.
      { rw -Hmap. apply Forall_app. split; [done|]. by repeat constructor. }
      split; [done|].
      rw !fmap_app /= dedupe_from_snoc bool_decide_eq_false_2; [|by rw Hadded].
      intros Hc. apply bool_decide_eq_false_1 in Hin. by apply Hin, Hhas. }
    destruct (Map_size (Map_set (id p) p (W.nodesMap st)) >=? N); [done|].
    apply IH; [done|].
    destruct (default 0 (directReportCount p) >? 0); [|done].
    destruct Hnew as (added' & ? & ? & ? & ?). by exists added'.
Qed.

Lemma walk_start_nodes m root opts :
  nodes_follow_edges (seed_nodes m opts) (walk_start m root opts).
Proof.
  rw /walk_start /seed_nodes. exists []. rw app_nil_r.
  destruct m as [m|]; [|by repeat split; constructor].
  destruct (seeded (Some m) opts) eqn:Hseed; [|by repeat split; constructor].
  simpl. rw /Map_set /Map_has bool_decide_eq_false_2; [by apply not_elem_of_nil|].
  simpl. split; [done|]. split; [|by split; [constructor|]].
  repeat constructor. simpl. rw /seeded in Hseed. by apply andb_true_iff in Hseed as [_ ?].
Qed.

Lemma bfs_loop_nodes seed pfuel c D N ps fuel st w st' t w' :
  nodes_follow_edges seed st ->
  bfs_loop fuel pfuel c D N ps st w = (Ok (st', t), w') ->
  nodes_follow_edges seed st'.
Proof.
  apply (bfs_loop_ind (nodes_follow_edges seed) (fun st _ => nodes_follow_edges seed st));
    try done.
  intros st0 item rest drs w0 w1 Hinv _ _ Hdrs%getDirectReports_truthy.
  set (st1 := expanded_one _ _).
  pose proof (for_drs_nodes seed N item drs st1 Hdrs Hinv) as Hfor.
  by destruct (for_drs N item drs st1).
Qed.

(** X7 (getOrgSubtree, nodes and edges). In every result the node list is
    the seeded manager (when [includeManager] is set and the lookup found a
    record with an id) followed by the distinct targets of the edges that
    are not the seed, in the order in which the edges first reach them.
    Every node has an id that is not empty, and every edge points to a
    node of the list. *)
Theorem subtree_nodes_follow_edges fuel pfuel c root opts w r w' :
  getOrgSubtree fuel pfuel c root opts w = (Ok r, w') ->
  let seed := seed_nodes (manager r) opts in
  (exists added,
     nodes r = seed ++ added /\
     id_or_empty <$> added =
       dedupe_from (list_to_set (id_or_empty <$> seed)) (target <$> edges r)) /\
  Forall (fun n => truthy (id n) = true) (nodes r) /\
  (forall e, e ∈ edges r -> exists n, n ∈ nodes r /\ id n = personId e).
Proof.
  rw /getOrgSubtree {1}/bind.
  destruct (getOrgSubtree_walk fuel pfuel c root opts w) as [[[[m st] t]| |] w1] eqn:Hwalk;
    [|done|done].
  intros [= <- <-]. simpl.
  apply getOrgSubtree_walk_inv in Hwalk as (w0 & Hloop).
  apply (bfs_loop_nodes (seed_nodes m opts)) in Hloop; [|apply walk_start_nodes].
  pose proof Hloop as (added & Hmap & Hkeys & Hedges & Hadded).
  assert (Hseed : ((fun p => (id p, p)) <$> seed_nodes m opts).*2 = seed_nodes m opts).
  { generalize (seed_nodes m opts). intros l.
    induction l as [|x l IHl]; [done|]. by rw !fmap_cons IHl. }
  split; [|split].
  - exists added.*2. split; [|done]. by rw /Map_values Hmap fmap_app Hseed.
  - rw /Map_values. apply Forall_fmap. eapply Forall_impl; [exact Hkeys|].
    intros [k v] [Hid Htr]. simpl in *. by rw -Hid.
  - intros e He.
    assert (He' : truthy (personId e) = true) by (rw Forall_forall in Hedges; by apply Hedges).
    set (p := {| id := personId e; displayName := None; teamLeaderId := None;
                 directReportCount := None; reportingPath := None |}).
    destruct (nodes_follow_edges_has (seed_nodes m opts) st p Hloop He') as [_ Hback].
    assert (Hkey : id p ∈ (W.nodesMap st).*1).
    { apply Hback. right. apply list_elem_of_fmap. by exists e. }
    apply list_elem_of_fmap in Hkey as ([k v] & Hk & Hkv).
    simpl in Hk. exists v. split; [apply list_elem_of_fmap; by exists (k, v)|].
    rw Forall_forall in Hkeys. destruct (Hkeys _ Hkv) as [Hid _]. simpl in Hid. by rw -Hid.
Qed.

Lemma subtree_nodes_follow_edges_witness :
  exists r,
    result (getOrgSubtree 10 5 client0 "root" (scenario_opts true (Some 2) (Some 100)))
      scenario_world = Ok r /\
    id <$> nodes r = [Some "root"; Some "A"; Some "B"; Some "A1"; Some "A2"] /\
    Forall (fun n => truthy (id n) = true) (nodes r).
Proof.
  destruct (getOrgSubtree 10 5 client0 "root" (scenario_opts true (Some 2) (Some 100))
              scenario_world) as [[r| |] w'] eqn:Hrun;
    [|vm_compute in Hrun; discriminate Hrun..].
  exists r. split; [by rw /result Hrun|].
  destruct (subtree_nodes_follow_edges _ _ _ _ _ _ _ _ Hrun) as (_ & Htruthy & _).
  split; [|exact Htruthy].
  vm_compute in Hrun. by injection Hrun as <- _.
Defined.

(** ** The subtree walker: edge cases *)

Lemma walk_start_queue m root opts :
  W.queue (walk_start m root opts) =
    [{| QueueItem.leaderId := None; QueueItem.id := root_id m root; QueueItem.depth := 0 |}].
Proof.
  rw /walk_start. destruct m as [m|]; [|done]. by destruct (seeded (Some m) opts).
Qed.

Lemma walk_start_nodesMap m root opts :
  W.nodesMap (walk_start m root opts) = (fun p => (id p, p)) <$> seed_nodes m opts.
Proof.
  rw /walk_start /seed_nodes. destruct m as [m|]; [|done].
  destruct (seeded (Some m) opts); [|done].
  simpl. by rw /Map_set /Map_has bool_decide_eq_false_2; [apply not_elem_of_nil|].
Qed.

Lemma walk_start_fresh m root opts :
  W.edges (walk_start m root opts) = [] /\ W.apiCalls (walk_start m root opts) = 0 /\
  W.expanded (walk_start m root opts) = 0 /\ W.depthReached (walk_start m root opts) = 0.
Proof.
  rw /walk_start. destruct m as [m|]; [|done]. by destruct (seeded (Some m) opts).
Qed.

Lemma seed_projection (seed : list PersonBase) :
  ((fun p => (id p, p)) <$> seed).*2 = seed.
Proof. induction seed as [|x l IHl]; [done|]. by rw !fmap_cons IHl. Qed.

(** A queue that holds one item at or beyond the depth cap: the loop drops
    the item and returns. *)
Lemma bfs_loop_capped fuel pfuel c D N ps st item w :
  W.queue st = [item] -> D <= QueueItem.depth item ->
  bfs_loop (S fuel) pfuel c D N ps st w =
    (Ok (W.set_depthReached (Z.max (W.depthReached st) (QueueItem.depth item))
           (W.set_queue [] st), false), w).
Proof.
  intros Hq HD. simpl. rw Hq.
  replace (QueueItem.depth item >=? D) with true by lia.
  by destruct fuel.
Qed.

(** X8 (getOrgSubtree with a depth cap of zero or less). The walk expands
    nothing and sends no search at all: after the lookup of the root it
    returns the seeded manager (if any) as the only node, no edge, zeroed
    counters and [truncated = false]. A failed lookup, or an empty
    identifier, is no error here. *)
Theorem subtree_depth_zero fuel pfuel c root opts w :
  eff_maxDepth opts <= 0 ->
  let m := match result (getPerson c (Some root)) w with Ok p => p | _ => None end in
  getOrgSubtree (S fuel) pfuel c root opts w =
    (Ok {| manager := m; nodes := seed_nodes m opts; edges := [];
           stats := {| Stats.expanded := 0;
                       Stats.enqueued := Z.of_nat (length (seed_nodes m opts));
                       Stats.apiCalls := 0; Stats.depthReached := 0;
                       Stats.truncated := false |} |},
     after (getPerson c (Some root)) w).
Proof.
  intros HD m.
  assert (Hlookup : catch (getPerson c (Some root)) (fun _ => ret None) w =
                    (Ok m, after (getPerson c (Some root)) w)).
  { subst m. pose proof (getPerson_total c (Some root) w) as Htotal.
    rw /catch /result /after in Htotal |- *.
    by destruct (getPerson c (Some root) w) as [[p|e|] w1]. }
  rw /getOrgSubtree /getOrgSubtree_walk /bind Hlookup.
  rw (bfs_loop_capped _ _ _ _ _ _ _ _ _ (walk_start_queue m root opts)); [simpl; lia|].
  destruct (walk_start_fresh m root opts) as (He & Ha & Hx & Hd).
  rw /ret /mkResult.
  cbn [W.nodesMap W.set_depthReached W.set_queue W.edges W.expanded W.apiCalls
       W.depthReached QueueItem.depth].
  rw He Ha Hx Hd walk_start_nodesMap /Map_values /Map_size.
  by rw seed_projection length_fmap.
Qed.

Lemma subtree_depth_zero_witness :
  exists r,
    getOrgSubtree 1 0 client0 "root" (scenario_opts true (Some 0) None) scenario_world =
      (Ok r, after (getPerson client0 (Some "root")) scenario_world) /\
    id <$> nodes r = [Some "root"] /\ edges r = [] /\
    length (sent (after (getPerson client0 (Some "root")) scenario_world)) = 1%nat.
Proof.
  eexists. split; [apply (subtree_depth_zero 0 0 client0 "root"); vm_compute; discriminate|].
  split; [vm_compute; reflexivity|]. split; [reflexivity|]. vm_compute. reflexivity.
Defined.

(** X9 (getOrgSubtree with an empty identifier). With a positive depth
    cap the call fails before any request is made, and the error it throws
    is the one of [getDirectReports]: the error of the root lookup is
    swallowed by its [catch], and the empty identifier reaches the first
    expansion. *)
Theorem subtree_empty_root fuel pfuel c opts w :
  0 < eff_maxDepth opts ->
  getOrgSubtree (S fuel) pfuel c "" opts w =
    (Throw (CallerError "getDirectReports: managerId is required"), w).
Proof.
  intros HD.
  rw /getOrgSubtree /getOrgSubtree_walk /bind /catch /=.
  by replace (0 >=? eff_maxDepth opts) with false by lia.
Qed.

Lemma subtree_empty_root_witness :
  getOrgSubtree 10 5 client0 "" (scenario_opts true None None) scenario_world =
    (Throw (CallerError "getDirectReports: managerId is required"), scenario_world).
Proof. apply (subtree_empty_root 9 5 client0). vm_compute. reflexivity. Defined.

(** ** The subtree walker: searches sent *)

Lemma posts_app l1 l2 : posts (l1 ++ l2) = posts l1 + posts l2.
Proof. rw /posts List.filter_app length_app. lia. Qed.

Lemma posts_replicate n r : method r = POST -> posts (replicate n r) = Z.of_nat n.
Proof.
  intros Hr. induction n as [|n IH]; [done|].
  rw /posts /= Hr /= in IH |- *. lia.
Qed.

Lemma posts_gets l : Forall (fun r => method r = GET) l -> posts l = 0.
Proof.
  induction 1 as [|r l Hr _ IH]; [done|]. rw /posts /= Hr in IH |- *. exact IH.
Qed.

Lemma gets_getPerson c key : requests (fun r => method r = GET) (getPerson c key).
Proof.
  rw /getPerson. destruct (negb (truthy key)); [apply requests_throw|].
  apply requests_bind; [|intros; apply requests_ret].
  eapply requests_mono; [|apply requests_mkRequest]. by intros r ->.
Qed.

Lemma gets_follow_pages c fuel : forall resp out,
  requests (fun r => method r = GET) (follow_pages fuel c resp out).
Proof.
  induction fuel as [|fuel IH]; intros resp out; simpl;
    destruct (truthy (links_next resp)); try apply requests_ret; [apply requests_diverge|].
  apply requests_bind.
  { eapply requests_mono; [|apply requests_mkRequest]. by intros r ->. }
  intros j. apply requests_bind; [apply requests_search_response|]. intros resp'. apply IH.
Qed.

(** A call of [getDirectReports] that returns has sent its search between
    one and three times. *)
Lemma getDirectReports_posts fuel c key ps w drs w1 :
  getDirectReports fuel c key ps w = (Ok drs, w1) ->
  exists new, sends new w w1 /\ 1 <= posts new <= 3.
Proof.
  rw /getDirectReports. destruct (negb (truthy key)); [done|].
  rw /collect_pages /bind.
  destruct (requestJsonByUrl_sends c POST (baseUrl c +:+ "/search/people")
              (Some (search_body key ps)) w) as (n & req & Hn & Hm & _ & _ & Hs).
  rw /after in Hs. rw /searchPeoplePost /requestJson.
  destruct (requestJsonByUrl c POST _ _ w) as [[j| |] w2]; [|done|done]. simpl in Hs.
  destruct (search_response j w2) as [[resp| |] w3] eqn:Hresp; [|done|done].
  assert (w3 = w2) as ->.
  { rw /search_response in Hresp. by destruct (cast_search j); injection Hresp. }
  destruct (gets_follow_pages c fuel resp (page_data resp) w2) as (gets & Hg & Hall).
  destruct (follow_pages fuel c resp (page_data resp) w2) as [[out| |] w4]; [|done|done].
  intros [= _ <-]. simpl in Hg.
  exists (gets ++ replicate n req). split; [by eapply sends_trans|].
  rw posts_app posts_gets; [done|]. rw posts_replicate; [done|]. lia.
Qed.

Lemma bfs_loop_posts pfuel c D N ps fuel : forall st w st' t w',
  bfs_loop fuel pfuel c D N ps st w = (Ok (st', t), w') ->
  exists new, sends new w w' /\
    W.apiCalls st' - W.apiCalls st <= posts new <= 3 * (W.apiCalls st' - W.apiCalls st).
Proof.
  induction fuel as [|fuel IH]; intros st w st' t w'; simpl.
  - destruct (W.queue st); [|done]. intros [= <- <- <-].
    exists []. split; [apply sends_refl|]. rw /posts /=. lia.
  - destruct (W.queue st) as [|item rest].
    { intros [= <- <- <-]. exists []. split; [apply sends_refl|]. rw /posts /=. lia. }
    destruct (QueueItem.depth item >=? D).
    { intros (new & Hs & Hp)%IH. by exists new. }
    rw {1}/bind.
    destruct (getDirectReports pfuel c (QueueItem.id item) ps w) as [[drs| |] w1] eqn:Hdrs;
      [|done|done].
    apply getDirectReports_posts in Hdrs as (new1 & Hs1 & Hp1).
    set (st1 := expanded_one _ _).
    pose proof (for_drs_counters N item drs st1) as Hsame.
    destruct (for_drs N item drs st1) as [st2|st2]; destruct Hsame as (Ha & _ & _).
    + intros [= <- <- <-]. exists new1. split; [done|]. rw Ha /=. lia.
    + intros (new2 & Hs2 & Hp2)%IH. exists (new2 ++ new1).
      split; [by eapply sends_trans|]. rw posts_app. rw Ha /= in Hp2. lia.
Qed.

(** X10 (getOrgSubtree, what [stats.apiCalls] counts). The walk of a
    result sent at least [stats.apiCalls] and at most three times
    [stats.apiCalls] POST requests: each counted call is one search, sent
    once and retried at most twice; the continuation pages and the lookup
    of the root are GET requests and are not counted. *)
Theorem subtree_posts fuel pfuel c root opts w r w' :
  getOrgSubtree fuel pfuel c root opts w = (Ok r, w') ->
  exists new, sends new w w' /\
    Stats.apiCalls (stats r) <= posts new <= 3 * Stats.apiCalls (stats r).
Proof.
  rw /getOrgSubtree /getOrgSubtree_walk /bind.
  destruct (requests_catch (fun r => method r = GET) (getPerson c (Some root))
              (fun _ => ret None) (gets_getPerson c (Some root))
              (fun e => requests_ret _ None) w) as (new0 & Hs0 & Hg0).
  destruct (catch _ _ w) as [[m| |] w0]; [|done|done]. simpl in Hs0.
  destruct (bfs_loop _ _ _ _ _ _ _ w0) as [[[st t]| |] w1] eqn:Hloop; [|done|done].
  intros [= <- <-]. simpl.
  apply bfs_loop_posts in Hloop as (new & Hs & Hp).
  destruct (walk_start_fresh m root opts) as (_ & Ha & _).
  exists (new ++ new0). split; [by eapply sends_trans|].
  rw posts_app (posts_gets new0); [done|]. rw Ha in Hp. lia.
Qed.

Lemma subtree_posts_witness :
  exists r w',
    getOrgSubtree 10 5 client0 "root" (scenario_opts false (Some 2) (Some 100))
      scenario_world = (Ok r, w') /\
    Stats.apiCalls (stats r) = 2 /\
    exists new, sends new scenario_world w' /\ 2 <= posts new <= 6.
Proof.
  destruct (getOrgSubtree 10 5 client0 "root" (scenario_opts false (Some 2) (Some 100))
              scenario_world) as [[r| |] w'] eqn:Hrun;
    [|vm_compute in Hrun; discriminate Hrun..].
  exists r, w'. split; [done|].
  assert (Hcalls : Stats.apiCalls (stats r) = 2).
  { vm_compute in Hrun. by injection Hrun as <- _. }
  split; [done|].
  destruct (subtree_posts _ _ _ _ _ _ _ _ Hrun) as (new & Hs & Hp).
  exists new. split; [done|]. rw Hcalls in Hp. lia.
Defined.

(** ** The utilities, applied twice *)

Lemma dedupeById_loop_id arr : forall seen : gset string,
  NoDup (id_or_empty <$> arr) ->
  (forall x, x ∈ arr -> id_or_empty x <> "" /\ id_or_empty x ∉ seen) ->
  dedupeById_loop arr seen [] = arr.
Proof.
  induction arr as [|x arr IH]; intros seen Hnd Hall; [done|].
  rw fmap_cons in Hnd. apply NoDup_cons in Hnd as [Hx Hnd].
  destruct (Hall x) as [Hne Hseen]; [by left|].
  rw dedupeById_loop_keep; [done|done|]. f_equal. apply IH; [done|].
  intros y Hy. destruct (Hall y) as [Hyne Hyseen]; [by right|].
  split; [done|]. rw elem_of_union elem_of_singleton. intros [Heq|?]; [|done].
  apply Hx. rw -Heq. by apply list_elem_of_fmap_2.
Qed.

(** X11 (dedupeById and dedupe). [dedupeById] returns its argument
    unchanged exactly when the ids of the argument are distinct and none is
    missing or empty; hence applying it twice is applying it once, and it
    never returns more records than it was given. [dedupe] is idempotent
    too. *)
Theorem dedupe_idempotent :
  (forall arr,
     dedupeById arr = arr <->
     NoDup (id_or_empty <$> arr) /\ Forall (fun x => truthy (id x) = true) arr) /\
  (forall arr, dedupeById (dedupeById arr) = dedupeById arr) /\
  (forall arr, (length (dedupeById arr) <= length arr)%nat) /\
  (forall arr, dedupe (dedupe arr) = dedupe arr).
Proof.
  assert (Hfix : forall arr,
    NoDup (id_or_empty <$> arr) /\ Forall (fun x => truthy (id x) = true) arr ->
    dedupeById arr = arr).
  { intros arr [Hnd Hall]. apply dedupeById_loop_id; [done|].
    intros x Hx. rw Forall_forall in Hall. split; [by apply truthy_id, Hall|].
    apply not_elem_of_empty. }
  assert (Hclean : forall arr,
    NoDup (id_or_empty <$> dedupeById arr) /\
    Forall (fun x => truthy (id x) = true) (dedupeById arr)).
  { intros arr. split; [apply dedupeById_loop_NoDup|].
    apply Forall_forall. intros x Hx.
    apply dedupeById_loop_first in Hx as (Hne & _). by apply truthy_id. }
  split; [|split; [|split]].
  - intros arr. split; [|apply Hfix]. intros Heq. rw -Heq. apply Hclean.
  - intros arr. apply Hfix, Hclean.
  - intros arr. apply sublist_length, dedupeById_loop_sublist.
  - intros arr. destruct (dedupe_spec (dedupe arr)) as (_ & _ & _ & Hnd).
    apply Hnd. by destruct (dedupe_spec arr).
Qed.

(** ** The chain resolver: edge cases and failures *)

Lemma settle_no_tasks {A} sched : forall (slots : list (option A)) w,
  settle sched [] slots w = (Ok slots, w).
Proof. induction sched as [|i sched IH]; intros slots w; [done|]. apply IH. Qed.

(** X12 (getOrgChain without superiors). When the record has no
    reporting path (none, or an empty one) the call makes no further
    lookup: it returns the empty chain, or the record alone with
    [includeSelf]. When the lookup returns no record (a 204, or a body
    without [data]) the call throws a TypeError instead of returning an
    empty chain, and an error of the lookup is passed on as it is. *)
Theorem getOrgChain_without_path sched c key incl w :
  (forall p w1, getPerson c key w = (Ok (Some p), w1) ->
     default [] (reportingPath p) = [] ->
     getOrgChain sched c key incl w = (Ok (if incl then [Some p] else []), w1)) /\
  (forall w1, getPerson c key w = (Ok None, w1) ->
     getOrgChain sched c key incl w = (Throw TypeError, w1)) /\
  (forall e w1, getPerson c key w = (Throw e, w1) ->
     getOrgChain sched c key incl w = (Throw e, w1)).
Proof.
  rw /getOrgChain /bind. split; [|split].
  - intros p w1 -> ->. rw /dedupe /= /Promise_all /bind /= settle_no_tasks /=.
    by destruct incl.
  - by intros w1 ->.
  - by intros e w1 ->.
Qed.

Lemma getOrgChain_without_path_witness :
  let w := world_of (directory (baseUrl client0) chain_people) 0 in
  exists l1, result (getOrgChain [] client0 (Some "l1") true) w = Ok [Some l1].
Proof.
  intros w.
  destruct (getPerson client0 (Some "l1") w) as [[[p|]| |] w1] eqn:Hrun;
    [|vm_compute in Hrun; discriminate Hrun..].
  destruct (getOrgChain_without_path [] client0 (Some "l1") true w) as (Hnone & _).
  exists p. rw /result (Hnone p w1 Hrun); [|done].
  vm_compute in Hrun. by injection Hrun as <- _.
Defined.

(** With a stable server, one position of the schedule whose lookup
    throws makes the parallel lookups throw, and the error is the one of a
    lookup that fails. *)
Lemma settle_fails srv c keys :
  stable srv ->
  forall sched slots w, server w = srv ->
    (exists n i e, n ∈ sched /\ keys !! n = Some i /\
       result (getPerson c (Some i)) (world_of srv 0) = Throw e) ->
    exists j e', j ∈ keys /\
      result (getPerson c (Some j)) (world_of srv 0) = Throw e' /\
      result (settle sched ((fun i => getPerson c (Some i)) <$> keys) slots) w = Throw e'.
Proof.
  intros Hst. induction sched as [|n0 sched IH]; intros slots w Hw (n & i & e & Hn & Hi & He).
  { by apply elem_of_nil in Hn. }
  rw /result /= list_lookup_fmap.
  destruct (keys !! n0) as [k|] eqn:Hk; simpl.
  - pose proof (getPerson_stable srv c (Some k) w Hst Hw) as Hres.
    pose proof (getPerson_server c (Some k) w) as Hsrv.
    pose proof (getPerson_total c (Some k) w) as Htot.
    rw /result in Hres Htot. rw /after in Hsrv. rw /bind.
    destruct (getPerson c (Some k) w) as [[a|e0|] w1]; simpl in *; [| |done].
    + apply IH; [congruence|]. apply elem_of_cons in Hn as [->|Hn].
      * rw Hk in Hi. injection Hi as <-. rw /result -Hres in He. done.
      * by exists n, i, e.
    + exists k, e0. split; [by eapply list_elem_of_lookup_2|]. by rw /result -Hres.
  - apply IH; [done|]. apply elem_of_cons in Hn as [->|Hn]; [by rw Hk in Hi|].
    by exists n, i, e.
Qed.

(** X13 (getOrgChain, all or nothing). With a server whose answers do not
    depend on the order of the requests, if the lookup of one id of the
    reporting path throws, then the whole call throws, in whatever order
    the parallel lookups settle; no partial chain is returned, and the
    error is that of a failing lookup of the path. *)
Theorem getOrgChain_all_or_nothing srv c key p w w1 sched incl i e :
  stable srv -> server w = srv ->
  getPerson c key w = (Ok (Some p), w1) ->
  sched ≡ₚ seq 0 (length (dedupe (default [] (reportingPath p)))) ->
  i ∈ default [] (reportingPath p) ->
  result (getPerson c (Some i)) (world_of srv 0) = Throw e ->
  exists j e', j ∈ default [] (reportingPath p) /\
    result (getPerson c (Some j)) (world_of srv 0) = Throw e' /\
    result (getOrgChain sched c key incl) w = Throw e'.
Proof.
  intros Hst Hw Hp Hsched Hi He.
  pose proof (getPerson_server c key w) as Hsrv. rw /after Hp /= in Hsrv.
  destruct (dedupe_spec (default [] (reportingPath p))) as (_ & _ & Hel & _).
  apply Hel in Hi. apply list_elem_of_lookup_1 in Hi as (n & Hn).
  destruct (settle_fails srv c (dedupe (default [] (reportingPath p))) Hst sched
              (replicate (length (dedupe (default [] (reportingPath p))))
                 (@None (option PersonBase))) w1) as (j & e' & Hj & Hje & Hsettle).
  { congruence. }
  { exists n, i, e. split; [|done]. rw Hsched. apply elem_of_seq.
    apply lookup_lt_Some in Hn. lia. }
  exists j, e'. split; [by apply Hel|]. split; [done|].
  rw /result /getOrgChain {1}/bind Hp {1}/bind /Promise_all {1}/bind length_fmap.
  rw /result in Hsettle.
  change (map (fun i0 => getPerson c (Some i0)) (dedupe (default [] (reportingPath p))))
    with ((fun i0 => getPerson c (Some i0)) <$> dedupe (default [] (reportingPath p))).
  destruct (settle sched _ _ w1) as [[slots| |] w2]; simpl in *.
  - discriminate Hsettle.
  - by injection Hsettle as ->.
  - discriminate Hsettle.
Qed.

Lemma getOrgChain_all_or_nothing_witness :
  let w := world_of (directory (baseUrl client0) broken_chain_people) 0 in
  result (getOrgChain [1; 0]%nat client0 (Some "p1") true) w =
    Throw (HttpError GET "https://api.justsift.com/v1/people/gone" 404 "Not Found" "missing").
Proof.
  intros w.
  destruct (getPerson client0 (Some "p1") w) as [[[p|]| |] w1] eqn:Hrun;
    [|vm_compute in Hrun; discriminate Hrun..].
  assert (Hpath : default [] (reportingPath p) = ["l1"; "gone"]).
  { vm_compute in Hrun. by injection Hrun as <- _. }
  destruct (getOrgChain_all_or_nothing (directory (baseUrl client0) broken_chain_people)
              client0 (Some "p1") p w w1 [1; 0]%nat true "gone"
              (HttpError GET "https://api.justsift.com/v1/people/gone" 404 "Not Found"
                 "missing"))
    as (j & e' & Hj & Hje & Hres).
  - apply directory_stable.
  - reflexivity.
  - exact Hrun.
  - rw Hpath. apply Permutation_swap.
  - rw Hpath. right. left.
  - vm_compute. reflexivity.
  - rw Hres. rw Hpath in Hj.
    apply elem_of_cons in Hj as [->|Hj]; [vm_compute in Hje; discriminate Hje|].
    apply list_elem_of_singleton in Hj as ->. vm_compute in Hje. by injection Hje as <-.
Defined.

(** ** Termination of the traversals *)

(** An answer that raises nothing ends the call at the first attempt. *)
Lemma requestJsonByUrl_first_ok c m u body w res j :
  server w (mkRequest c m u body :: sent w) = Response res ->
  status res <> 204 -> res_ok res = true -> json res = Some j ->
  requestJsonByUrl c m u body w = (Ok (Some j), after (fetch (mkRequest c m u body)) w).
Proof.
  intros Hsrv H204 Hok Hj. rw /requestJsonByUrl.
  change (Z.to_nat maxAttempts) with 3%nat. rw /= /bind /fetch /= Hsrv.
  replace (status res =? 204) with false by lia. by rw Hok /= Hj.
Qed.

Lemma follow_pages_unbounded srv c :
  always_next srv ->
  forall fuel resp out w, server w = srv -> truthy (links_next resp) = true ->
    (follow_pages fuel c resp out w).1 = Diverge /\
    length (sent (follow_pages fuel c resp out w).2) = (length (sent w) + fuel)%nat.
Proof.
  intros Hnext. induction fuel as [|fuel IH]; intros resp out w Hw Hresp; simpl; rw Hresp.
  - simpl. split; [done|lia].
  - rw /bind /followSearchNext.
    destruct (Hnext (mkRequest c GET (default "" (links_next resp)) None :: sent w))
      as (res & r & Hsrv & H204 & Hok & Hj & Hr).
    rw -Hw in Hsrv.
    rw (requestJsonByUrl_first_ok _ _ _ _ _ _ _ Hsrv H204 Hok Hj) /=.
    destruct (IH r (out ++ page_data r) (after (fetch (mkRequest c GET
                (default "" (links_next resp)) None)) w)) as [Hd Hlen]; [done|done|].
    split; [exact Hd|]. rw Hlen /=. lia.
Qed.

(** X14 (getDirectReports follows [next] links without a limit). Against
    a server that puts a [next] link on every page, the call never returns:
    whatever number of continuation pages it is allowed, it has fetched
    them all, one request each after the first search, and is still
    paging. *)
Theorem getDirectReports_unbounded srv c key ps w fuel :
  always_next srv -> server w = srv -> truthy key = true ->
  result (getDirectReports fuel c key ps) w = Diverge /\
  attempts (getDirectReports fuel c key ps) w = S fuel.
Proof.
  intros Hnext Hw Hkey.
  rw /result /attempts /after /getDirectReports Hkey /= /bind /collect_pages /bind.
  rw /searchPeoplePost /requestJson.
  destruct (Hnext (mkRequest c POST (baseUrl c +:+ "/search/people")
                     (Some (search_body key ps)) :: sent w))
    as (res & r & Hsrv & H204 & Hok & Hj & Hr).
  rw -Hw in Hsrv.
  rw (requestJsonByUrl_first_ok _ _ _ _ _ _ _ Hsrv H204 Hok Hj) /=.
  destruct (follow_pages_unbounded srv c Hnext fuel r (page_data r)
              (after (fetch (mkRequest c POST (baseUrl c +:+ "/search/people")
                 (Some (search_body key ps)))) w)) as [Hd Hlen]; [done|done|].
  destruct (follow_pages fuel c r (page_data r) _) as [o w1]. simpl in *. subst o.
  split; [done|]. rw Hlen /=. lia.
Qed.

Lemma getDirectReports_unbounded_witness :
  result (getDirectReports 7 client0 (Some "mgr") 100) (world_of endless 0) = Diverge /\
  attempts (getDirectReports 7 client0 (Some "mgr") 100) (world_of endless 0) = 8%nat.
Proof.
  apply (getDirectReports_unbounded endless); [|done|done].
  intros h. eexists _, _. split; [reflexivity|]. by repeat split.
Defined.

(** X15 (getOrgSubtree terminates). Against a server whose search pages
    end (none carries a [next] link), the walk returns or throws whatever
    the records say, cycles in the reporting data included: no more loop
    iterations than the effective node cap plus one are ever needed. *)
Theorem getOrgSubtree_terminates srv fuel pfuel c root opts w :
  single_page srv -> server w = srv ->
  (Z.to_nat (eff_maxNodes opts) + 1 <= fuel)%nat ->
  result (getOrgSubtree fuel pfuel c root opts) w <> Diverge.
Proof.
  intros Hsingle Hw Hfuel.
  apply (getOrgSubtree_total srv); [|done|done].
  intros w0 key Hw0. by eapply getDirectReports_single_page.
Qed.

Lemma getOrgSubtree_terminates_witness :
  let w := world_of (directory (baseUrl client0) cycle_people) 0 in
  let call := getOrgSubtree 6 0 client0 "a" (scenario_opts false None (Some 5)) in
  result call w <> Diverge /\
  exists r, result call w = Ok r /\ id <$> nodes r = [Some "b"; Some "a"] /\
    Stats.expanded (stats r) = 3.
Proof.
  intros w call. split.
  - apply (getOrgSubtree_terminates (directory (baseUrl client0) cycle_people));
      [apply directory_single_page|reflexivity|vm_compute; lia].
  - rw /result. destruct (call w) as [[r| |] w'] eqn:Hrun;
      [|vm_compute in Hrun; discriminate Hrun..].
    exists r. split; [done|]. vm_compute in Hrun. by injection Hrun as <- _.
Defined.


(** ** The wrappers *)

Lemma getFields_stale_attempts c w :
  cache_fresh c (now w) = false -> (1 <= attempts (getFields c false) w)%nat.
Proof.
  intros Hstale. rw /attempts /after /getFields /bind /Date_now /= Hstale /=.
  destruct (requestJsonByUrl_sends c GET (baseUrl c +:+ "/fields/person") None w)
    as (n & req & Hn & _ & _ & _ & Hs & _).
  rw /after /requestJson in Hs |- *.
  destruct (requestJsonByUrl c GET _ None w) as [[j| |] w1]; simpl in *;
    rw Hs length_app length_replicate; lia.
Qed.

(** X16 (ChatbotSiftClient.getAvailableFields). Once a call has returned
    a field list, the wrapper keeps it for good: every later call returns
    the same list without a request, at any time, although the metadata
    cache of the client underneath expires and a direct [getFields] at such
    a time goes to the network. The wrapper has no TTL and no way to
    refresh. *)
Theorem chatbot_fields_never_expire s items s1 w w1 :
  Chatbot.getAvailableFields s w = (Ok (items, s1), w1) ->
  Chatbot.fieldsCache s1 = Some items /\
  (forall w2, Chatbot.getAvailableFields s1 w2 = (Ok (items, s1), w2)) /\
  (forall w2, cache_fresh (Chatbot.client s1) (now w2) = false ->
     attempts (Chatbot.getAvailableFields s1) w2 = 0%nat /\
     (1 <= attempts (getFields (Chatbot.client s1) false) w2)%nat).
Proof.
  intros Hrun.
  assert (Hcache : Chatbot.fieldsCache s1 = Some items).
  { rw /Chatbot.getAvailableFields in Hrun.
    destruct (Chatbot.fieldsCache s) as [items0|] eqn:Hs.
    - injection Hrun as <- <- _. exact Hs.
    - rw /bind in Hrun.
      destruct (getFields (Chatbot.client s) false w) as [[[l c1]| |] w0]; [|done|done].
      by injection Hrun as <- <- _. }
  assert (Hagain : forall w2, Chatbot.getAvailableFields s1 w2 = (Ok (items, s1), w2)).
  { intros w2. by rw /Chatbot.getAvailableFields Hcache. }
  split; [done|]. split; [done|]. intros w2 Hstale.
  split; [|by apply getFields_stale_attempts].
  rw /attempts /after Hagain /=. lia.
Qed.

Lemma chatbot_fields_never_expire_witness :
  exists s1,
    (Chatbot.getAvailableFields (Chatbot.new client0) (fields_world 1000)).1 =
      Ok ([department_field], s1) /\
    Chatbot.getAvailableFields s1 (world_of (scripted [] not_found) 0) =
      (Ok ([department_field], s1), world_of (scripted [] not_found) 0) /\
    cache_fresh (Chatbot.client s1) 1000000000 = false.
Proof.
  destruct (Chatbot.getAvailableFields (Chatbot.new client0) (fields_world 1000))
    as [[[items s1]| |] w1] eqn:Hrun; [|vm_compute in Hrun; discriminate Hrun..].
  destruct (chatbot_fields_never_expire _ _ _ _ _ Hrun) as (_ & Hagain & _).
  assert (Hitems : items = [department_field] /\
                   cache_fresh (Chatbot.client s1) 1000000000 = false).
  { vm_compute in Hrun. by injection Hrun as <- <- _. }
  destruct Hitems as [-> Hstale].
  exists s1. split; [done|]. split; [apply Hagain|exact Hstale].
Defined.

Lemma findFieldKey_single fields candidate :
  Skills.findFieldKey fields [candidate] = Some candidate.
Proof.
  rw /Skills.findFieldKey /=. by destruct (List.find _ fields).
Qed.

Lemma findFieldKey_loop_elem fields candidates r :
  Skills.findFieldKey_loop fields candidates = Some r -> r ∈ candidates.
Proof.
  induction candidates as [|c candidates IH]; simpl; [done|].
  destruct (List.find _ fields); [intros [= ->]; by left|]. intros ?%IH. by right.
Qed.

(** X17 (SkillsClient.initialize and findFieldKey). Schema discovery
    cannot miss: [findFieldKey] answers one of its candidates, the first
    one when the service lists none of them, so with the single candidates
    that [initialize] passes, the schema it stores is the same five keys
    whatever fields the service reports. Once the schema is stored, later
    calls of [initialize] send nothing and change nothing. *)
Theorem skills_schema_is_fixed :
  (forall fields candidate, Skills.findFieldKey fields [candidate] = Some candidate) /\
  (forall fields candidates r,
     Skills.findFieldKey fields candidates = Some r -> r ∈ candidates) /\
  (forall s s1 w w1,
     Skills.initialize s w = (Ok s1, w1) ->
     Skills.schema s = None ->
     Skills.schema s1 =
       Some {| Skills.skillsNameKey := Some "skills.name";
               Skills.skillsLevelKey := Some "skills.level";
               Skills.skillsFeaturedKey := Some "skills.isFeatured";
               Skills.languageSkillsKey := Some "languages.proficiency.skills";
               Skills.languageLevelKey := Some "languages.proficiency.level" |} /\
     forall w2, Skills.initialize s1 w2 = (Ok s1, w2)).
Proof.
  split; [apply findFieldKey_single|]. split.
  - intros fields candidates r. rw /Skills.findFieldKey.
    destruct (Skills.findFieldKey_loop fields candidates) as [c|] eqn:Hloop.
    + intros [= <-]. by eapply findFieldKey_loop_elem.
    + destruct candidates; [done|]. intros [= ->]. by left.
  - intros s s1 w w1 Hrun Hnone. rw /Skills.initialize Hnone /bind in Hrun.
    destruct (getFields (Skills.client s) false w) as [[[fields c1]| |] w0]; [|done|done].
    injection Hrun as <- _. cbn [Skills.schema]. rw !findFieldKey_single.
    split; [done|]. intros w2. by rw /Skills.initialize.
Qed.

Lemma skills_schema_is_fixed_witness :
  exists s1 sch,
    (Skills.initialize (Skills.new client0) (fields_world 1000)).1 = Ok s1 /\
    Skills.schema s1 = Some sch /\
    Skills.skillsNameKey sch = Some "skills.name" /\
    Skills.initialize s1 (world_of (scripted [] not_found) 0) =
      (Ok s1, world_of (scripted [] not_found) 0).
Proof.
  destruct (Skills.initialize (Skills.new client0) (fields_world 1000))
    as [[s1| |] w1] eqn:Hrun; [|vm_compute in Hrun; discriminate Hrun..].
  destruct skills_schema_is_fixed as (_ & _ & Hinit).
  destruct (Hinit _ _ _ _ Hrun eq_refl) as [Hsch Hagain].
  eexists s1, _. split; [done|]. split; [exact Hsch|]. split; [done|apply Hagain].
Defined.

(** Every name of the alias table, canonical or alias, is found at its own
    entry: no earlier entry captures it. *)
Lemma skillAliases_unambiguous entry name :
  entry ∈ Skills.skillAliases -> name ∈ entry.1 :: entry.2 ->
  List.find (Skills.alias_hit name) Skills.skillAliases = Some entry.
Proof.
  intros Hentry Hname.
  assert (Hall : Forall (fun entry : string * list string =>
            Forall (fun name =>
                      List.find (Skills.alias_hit name) Skills.skillAliases = Some entry)
              (entry.1 :: entry.2)) Skills.skillAliases).
  { rw /Skills.skillAliases. repeat (constructor; [repeat (constructor; [reflexivity|]); constructor|]). constructor. }
  rw Forall_forall in Hall. specialize (Hall entry Hentry).
  rw Forall_forall in Hall. by apply Hall.
Qed.

(** X18 (SkillsClient.canonicalizeSkill and buildSkillFilters). A skill
    always has exactly one canonical name. A skill that normalises
    (lower case, trimmed) to a canonical name or an alias of the table gets
    the canonical name of that very entry: no name of the table is
    captured by an earlier entry. Hence [buildSkillFilters] builds one
    plain [eq] condition per skill, never an [or] group, whatever the
    operator. *)
Theorem canonical_skill_names toLowerCase trim remove_special collapse_whitespace :
  let canonical := Skills.canonicalizeSkill toLowerCase trim remove_special
                     collapse_whitespace in
  (forall skill, exists c, canonical skill = [c]) /\
  (forall entry name skill,
     entry ∈ Skills.skillAliases -> name ∈ entry.1 :: entry.2 ->
     trim (toLowerCase skill) = name -> canonical skill = [entry.1]) /\
  (forall s sch skills operator,
     Skills.schema s = Some sch -> truthy (Skills.skillsNameKey sch) = true ->
     Skills.buildSkillFilters toLowerCase trim remove_special collapse_whitespace
       s skills operator =
     map (fun skill =>
            Skills.FCondition
              {| field := default "" (Skills.skillsNameKey sch); comparison := eq_;
                 value := head (canonical skill) |}) skills).
Proof.
  intros canonical.
  assert (Hone : forall skill, exists c, canonical skill = [c]).
  { intros skill. rw /canonical /Skills.canonicalizeSkill.
    destruct (List.find _ Skills.skillAliases); by eexists. }
  split; [done|]. split.
  - intros entry name skill Hentry Hname Hnorm.
    rw /canonical /Skills.canonicalizeSkill Hnorm.
    by rw (skillAliases_unambiguous entry name Hentry Hname).
  - intros s sch skills operator Hsch Hkey. rw /Skills.buildSkillFilters Hsch Hkey.
    induction skills as [|skill skills IH]; [done|].
    rw /= IH. f_equal. rw /Skills.skill_filters.
    fold canonical. destruct (Hone skill) as [c ->]. done.
Qed.

Lemma canonical_skill_names_witness :
  Skills.canonicalizeSkill (fun s => s) (fun s => s) (fun s => s) (fun s => s) "k8s"
    = ["kubernetes"] /\
  Skills.canonicalizeSkill (fun s => s) (fun s => s) (fun s => s) (fun s => s) "next"
    = ["next.js"].
Proof.
  destruct (canonical_skill_names (fun s => s) (fun s => s) (fun s => s) (fun s => s))
    as (_ & Halias & _).
  split.
  - apply (Halias ("kubernetes", ["k8s"]) "k8s"); [|by right; left|done].
    rw /Skills.skillAliases. do 17 right. left.
  - apply (Halias ("next.js", ["nextjs"; "next"]) "next"); [|by do 2 right; left|done].
    rw /Skills.skillAliases. do 9 right. left.
Defined.

(** ** The transport: how long it sleeps *)

Lemma retryAfter_silent res attempt :
  (forall q, retry_after res = RaNumber q -> (q == 0)%Q) ->
  retryAfter res attempt = inject_Z (2 ^ attempt * 250).
Proof.
  intros Hq. rw /retryAfter. destruct (retry_after res) as [|q|]; [done| |done].
  by rw (proj2 (Qeq_bool_iff q 0) (Hq q eq_refl)).
Qed.

Lemma jittered_le attempt r :
  1 <= attempt -> (0 <= r)%Q -> (r < 1)%Q ->
  (0 <= jittered attempt r)%Q /\ (jittered attempt r <= inject_Z (2 ^ attempt * 250))%Q.
Proof.
  intros Hatt H0 H1. rw /jittered.
  assert (Hpow : 2 <= 2 ^ attempt).
  { change 2 with (2 ^ 1) at 1. apply Z.pow_le_mono_r; lia. }
  assert (Hr : (r * inject_Z 100 <= inject_Z 100)%Q).
  { rw -{2}(Qmult_1_l (inject_Z 100)). apply Qmult_le_compat_r; [by apply Qlt_le_weak|done]. }
  assert (Hr0 : (0 <= r * inject_Z 100)%Q) by (apply Qmult_le_0_compat; done).
  split.
  - rw -(Qplus_0_l 0). apply Qplus_le_compat; [|done].
    change 0%Q with (inject_Z 0). rw -Zle_Qle. lia.
  - eapply Qle_trans; [apply Qplus_le_compat; [apply Qle_refl|exact Hr]|].
    rw -inject_Z_plus -Zle_Qle. lia.
Qed.

Lemma request_loop_delay fuel : forall req attempt lastErr w o w',
  0 <= attempt ->
  names_no_delay (server w) -> unit_randoms (randoms w) ->
  request_loop fuel req attempt lastErr w = (o, w') ->
  exists ds, slept w' = ds ++ slept w /\
    Forall (fun d => (0 <= d)%Q) ds /\
    (total_delay ds <= inject_Z (delay_left attempt))%Q.
Proof.
  assert (Hnone : forall attempt w w', slept w' = slept w ->
            exists ds : list Q, slept w' = ds ++ slept w /\
            Forall (fun d => (0 <= d)%Q) ds /\
            (total_delay ds <= inject_Z (delay_left attempt))%Q).
  { intros attempt w w' Hsame. exists []. split; [done|]. split; [constructor|].
    rw /delay_left /=. change 0%Q with (inject_Z 0). rw -Zle_Qle.
    destruct (attempt <? 1); [lia|]. destruct (attempt <? 2); lia. }
  induction fuel as [|fuel IH]; intros req attempt lastErr w o w' Hatt Hsrv Hrnd; simpl.
  { destruct (attempt <? maxAttempts); intros [= <- <-]; by apply Hnone. }
  destruct (attempt <? maxAttempts) eqn:Hlt; [|intros [= <- <-]; by apply Hnone].
  rw {1}/bind {1}/fetch /=.
  set (w1 := {| server := server w; sent := req :: sent w |}).
  (* a sleep of [d] and then the rest of the run *)
  assert (Hgo : forall l w2 d,
    attempt + 1 < maxAttempts ->
    server w2 = server w -> randoms w2 = randoms w -> slept w2 = d :: slept w ->
    (0 <= d)%Q -> (d <= inject_Z (2 ^ (attempt + 1) * 250))%Q ->
    request_loop fuel req (attempt + 1) l w2 = (o, w') ->
    exists ds, slept w' = ds ++ slept w /\ Forall (fun d => (0 <= d)%Q) ds /\
      (total_delay ds <= inject_Z (delay_left attempt))%Q).
  { intros l w2 d Hmore Hs2 Hr2 Hsl Hd0 Hd Hrun.
    destruct (IH req (attempt + 1) l w2 o w') as (ds & Hds & Hpos & Hsum);
      [lia|by rw Hs2|by rw Hr2|done|].
    exists (ds ++ [d]). split; [by rw Hds Hsl -app_assoc|].
    split; [apply Forall_app; split; [done|by repeat constructor]|].
    assert (Hsplit : (total_delay (ds ++ [d]) == total_delay ds + d)%Q).
    { clear. induction ds as [|x ds IHds]; simpl; [ring|]. rw IHds. ring. }
    rw Hsplit.
    eapply Qle_trans; [apply Qplus_le_compat; [exact Hsum|exact Hd]|].
    rw -inject_Z_plus -Zle_Qle /delay_left. rw /maxAttempts in Hmore.
    assert (attempt = 0 \/ attempt = 1) as [->| ->] by lia; simpl; lia. }
  assert (Hcatch : forall err,
    (if attempt + 1 >=? maxAttempts then throw err
     else r <- Math_random ;; (sleep (jittered (attempt + 1) r) ;;;
          request_loop fuel req (attempt + 1) (Some err))) w1 = (o, w') ->
    exists ds, slept w' = ds ++ slept w /\ Forall (fun d => (0 <= d)%Q) ds /\
      (total_delay ds <= inject_Z (delay_left attempt))%Q).
  { intros err. destruct (attempt + 1 >=? maxAttempts) eqn:Hge.
    - intros [= <- <-]. by apply Hnone.
    - rw /bind /=. destruct (Hrnd (drawn w)) as [H0 H1].
      destruct (jittered_le (attempt + 1) (randoms w (drawn w))) as [Hj0 Hj]; [lia|done|done|].
      apply (Hgo _ _ (jittered (attempt + 1) (randoms w (drawn w)))); [lia|done..]. }
  destruct (server w (req :: sent w)) as [msg|res] eqn:Hres; [apply Hcatch|].
  destruct (status res =? 204); [intros [= <- <-]; by apply Hnone|].
  destruct (negb (res_ok res)).
  - destruct (((status res =? 429) || (status res >=? 500)) &&
              (attempt + 1 <? maxAttempts)) eqn:Hretry; [|apply Hcatch].
    apply andb_true_iff in Hretry as [_ Hmore].
    rw /bind /=.
    assert (Hra : retryAfter res (attempt + 1) = inject_Z (2 ^ (attempt + 1) * 250)).
    { apply retryAfter_silent. intros q Hq. by eapply Hsrv. }
    apply (Hgo _ _ (retryAfter res (attempt + 1)));
      [lia|done|done|done| |rw Hra; apply Qle_refl].
    rw Hra. change 0%Q with (inject_Z 0). rw -Zle_Qle.
    apply Z.mul_nonneg_nonneg; [apply Z.pow_nonneg|]; lia.
  - destruct (json res); [intros [= <- <-]; by apply Hnone|apply Hcatch].
Qed.

(** X19 (requestJsonByUrl, the time spent waiting). When no response
    names a delay in a [retry-after] header, the delays that one call
    hands to [setTimeout] are not negative and add up to 1500 ms at most:
    500 ms at most after the first attempt and 1000 ms at most after the
    second, the jittered delays of the network path staying below the
    plain ones of the status path. *)
Theorem retry_delay_bound c m u body w :
  names_no_delay (server w) -> unit_randoms (randoms w) ->
  exists ds,
    slept (after (requestJsonByUrl c m u body) w) = ds ++ slept w /\
    Forall (fun d => (0 <= d)%Q) ds /\
    (total_delay ds <= inject_Z 1500)%Q.
Proof.
  intros Hsrv Hrnd. rw /after.
  destruct (requestJsonByUrl c m u body w) as [o w'] eqn:Hrun.
  by apply (request_loop_delay _ _ 0 _ _ _ _ ltac:(lia) Hsrv Hrnd Hrun).
Qed.

Lemma retry_delay_bound_witness :
  let w := world_of (scripted [unavailable; NetFail "connection reset"]
                        (ok_person (person "p1" None 0))) (1 # 2) in
  exists ds,
    slept (after (requestJsonByUrl client0 GET "https://api.justsift.com/v1/people/p1" None)
             w) = ds ++ [] /\
    length ds = 2%nat /\
    (total_delay ds <= inject_Z 1500)%Q.
Proof.
  intros w.
  destruct (retry_delay_bound client0 GET "https://api.justsift.com/v1/people/p1" None w)
    as (ds & Hds & _ & Hsum).
  - intros h res q Hres Hq. rw /w /= /scripted in Hres.
    destruct (length h - 1)%nat as [|[|[|n]]]; simpl in Hres;
      try discriminate Hres; injection Hres as <-; discriminate Hq.
  - intros n. split; [vm_compute; discriminate|vm_compute; reflexivity].
  - exists ds. split; [exact Hds|]. split; [|exact Hsum].
    assert (Hlen : length (slept (after (requestJsonByUrl client0 GET
                     "https://api.justsift.com/v1/people/p1" None) w)) = 2%nat)
      by (vm_compute; reflexivity).
    rw Hds length_app /= in Hlen. lia.
Defined.

(** ** The media URL, parameter by parameter *)

Lemma params_get_filter_out key k ps :
  key <> k ->
  params_get key (List.filter (fun kv : string * string => negb (String.eqb kv.1 k)) ps)
    = params_get key ps.
Proof.
  intros Hne. induction ps as [|[k' v'] ps IH]; [done|]. rw /params_get /= in IH |- *.
  destruct (String.eqb_spec k' k) as [->|Hk]; simpl.
  - destruct (String.eqb_spec k key) as [->|]; [done|exact IH].
  - destruct (String.eqb_spec k' key); [by rw IH|exact IH].
Qed.

Lemma params_set_other key k v ps :
  key <> k -> params_get key (params_set k v ps) = params_get key ps.
Proof.
  intros Hne. induction ps as [|[k' v'] ps IH]; simpl.
  - rw /params_get /=. by destruct (String.eqb_spec k key) as [->|].
  - destruct (String.eqb_spec k' k) as [->|Hk].
    + rw /params_get /=. destruct (String.eqb_spec k key) as [->|]; [done|].
      by apply params_get_filter_out.
    + rw /params_get /= in IH |- *. destruct (String.eqb_spec k' key); [by rw IH|exact IH].
Qed.

Lemma params_get_set_if {A} (o : option A) k (f : A -> string) u key :
  params_get key (searchParams (set_if o k f u)) =
  match o with
  | Some a => if String.eqb key k then [(k, f a)] else params_get key (searchParams u)
  | None => params_get key (searchParams u)
  end.
Proof.
  destruct o as [a|]; [|done]. simpl.
  destruct (String.eqb_spec key k) as [->|Hne]; [apply params_set_only|].
  by apply params_set_other.
Qed.

(** X20 (makeMediaUrl, the query). The URL returned is the parsed
    [baseUrl + "/media/people/" + encoded id + "/" + kind] with its query
    edited: each option that is given ([preferredType], [height], [width],
    [fit], and the media token when [tokenInQuery] is set and the client
    has one) ends up as exactly one parameter of its name, whatever the
    parsed URL held under that name, and every other parameter, and every
    option that is not given, is left as parsed. *)
Theorem makeMediaUrl_params URL_new URL_toString String_of_number c i k opts :
  let parsed := URL_new (baseUrl c +:+ "/media/people/" +:+ encodeURIComponent i +:+ "/"
                           +:+ kind_string k) in
  exists u,
    makeMediaUrl URL_new URL_toString String_of_number c i k opts = URL_toString u /\
    href_base u = href_base parsed /\
    forall key,
      params_get key (searchParams u) =
      match media_param String_of_number c opts key with
      | Some v => [(key, v)]
      | None => params_get key (searchParams parsed)
      end.
Proof.
  intros parsed. rw /makeMediaUrl. fold parsed.
  eexists. split; [reflexivity|]. split.
  { destruct (tokenInQuery opts && truthy (mediaToken c)); simpl;
      by destruct (fit opts), (width opts), (height opts), (preferredType opts). }
  intros key. rw /media_param.
  assert (Htoken : forall u,
    params_get key (searchParams
      (if tokenInQuery opts && truthy (mediaToken c)
       then searchParams_set "token" (default "" (mediaToken c)) u else u)) =
    if String.eqb key "token"
    then (if tokenInQuery opts && truthy (mediaToken c)
          then [("token", default "" (mediaToken c))]
          else params_get key (searchParams u))
    else params_get key (searchParams u)).
  { intros u. destruct (tokenInQuery opts && truthy (mediaToken c)); simpl.
    - destruct (String.eqb_spec key "token") as [->|Hne]; [apply params_set_only|].
      by apply params_set_other.
    - by destruct (String.eqb key "token"). }
  rw Htoken !params_get_set_if. clear Htoken.
  destruct (String.eqb_spec key "token") as [->|_].
  { destruct (tokenInQuery opts && truthy (mediaToken c)) eqn:Htok; simpl.
    - apply andb_true_iff in Htok as [_ Htok]. by destruct (mediaToken c).
    - by destruct (fit opts), (width opts), (height opts), (preferredType opts). }
  destruct (String.eqb_spec key "fit") as [->|_].
  { destruct (fit opts); simpl; [done|].
    by destruct (width opts), (height opts), (preferredType opts). }
  destruct (String.eqb_spec key "width") as [->|_].
  { destruct (fit opts), (width opts); simpl; try done;
      by destruct (height opts), (preferredType opts). }
  destruct (String.eqb_spec key "height") as [->|_].
  { destruct (fit opts), (width opts), (height opts); simpl; try done;
      by destruct (preferredType opts). }
  destruct (String.eqb_spec key "preferredType") as [->|_].
  { by destruct (fit opts), (width opts), (height opts), (preferredType opts). }
  by destruct (fit opts), (width opts), (height opts), (preferredType opts).
Qed.

(** ** The subtree walker: breadth first *)

Lemma nondecreasing_nil : nondecreasing [].
Proof. by intros i j a b _ Hi. Qed.

Lemma nondecreasing_snoc l a :
  nondecreasing l -> Forall (fun x => x <= a) l -> nondecreasing (l ++ [a]).
Proof.
  intros Hl Hall i j x y Hij Hi Hj.
  destruct (decide (j < length l)%nat) as [Hjl|Hjl].
  - rw lookup_app_l in Hj; [done|]. rw lookup_app_l in Hi; [lia|]. exact (Hl i j x y Hij Hi Hj).
  - assert (y = a) as ->.
    { rw lookup_app_r in Hj; [lia|].
      destruct (j - length l)%nat as [|n]; [by injection Hj|by destruct n]. }
    destruct (decide (i < length l)%nat) as [Hil|Hil].
    + rw lookup_app_l in Hi; [done|]. rw Forall_forall in Hall.
      apply Hall. by eapply list_elem_of_lookup_2.
    + rw lookup_app_r in Hi; [lia|].
      destruct (i - length l)%nat as [|n]; [injection Hi as <-; lia|by destruct n].
Qed.

Lemma nondecreasing_cons x l :
  nondecreasing (x :: l) -> nondecreasing l /\ Forall (fun y => x <= y) l.
Proof.
  intros Hl. split.
  - intros i j a b Hij Hi Hj. apply (Hl (S i) (S j) a b); [lia|done|done].
  - apply Forall_forall. intros y Hy. apply list_elem_of_lookup_1 in Hy as (j & Hj).
    apply (Hl 0%nat (S j) x y); [lia|done|done].
Qed.

Lemma for_drs_level_order N item drs : forall st,
  level_order_at (QueueItem.depth item) st ->
  match for_drs N item drs st with
  | Returned st' | Completed st' => level_order_at (QueueItem.depth item) st'
  end.
Proof.
  induction drs as [|p drs IH]; intros st Hinv; [done|]. simpl.
  destruct Hinv as (Ho & Hq & Hod & Hqd).
  assert (Hedge : level_order_at (QueueItem.depth item)
            (W.push_edge (edge_of p) (QueueItem.id item, QueueItem.depth item) st)).
  { rw /level_order_at /edge_depths /queue_depths /= fmap_app /=.
    split; [by apply nondecreasing_snoc|]. split; [done|].
    split; [|done]. apply Forall_app. split; [done|]. repeat constructor. lia. }
  destruct (Map_has (id p) (W.nodesMap st)); simpl; [apply IH; exact Hedge|].
  destruct (Map_size (Map_set (id p) p (W.nodesMap st)) >=? N); [exact Hedge|].
  apply IH. destruct (default 0 (directReportCount p) >? 0); [|exact Hedge].
  destruct Hedge as (Ho' & Hq' & Hod' & Hqd').
  split; [exact Ho'|]. split; [|split; [exact Hod'|]].
  - rw /queue_depths /= fmap_app /=. apply nondecreasing_snoc; [exact Hq'|].
    eapply Forall_impl; [exact Hqd'|]. simpl. lia.
  - rw /queue_depths /= fmap_app /=. apply Forall_app. split; [exact Hqd'|].
    repeat constructor; lia.
Qed.

(** Taking the first item off the queue. *)
Lemma level_order_pop st item rest :
  level_order st -> W.queue st = item :: rest ->
  level_order (W.set_queue rest st) /\
  level_order_at (QueueItem.depth item) (W.set_queue rest st).
Proof.
  intros (Ho & Hq & Hoq & Hspread) Hqueue.
  rw /queue_depths Hqueue fmap_cons in Hq Hoq Hspread.
  apply nondecreasing_cons in Hq as [Hq Hfront].
  assert (Hhead : QueueItem.depth item ∈ QueueItem.depth item :: (QueueItem.depth <$> rest))
    by by left.
  split.
  - split; [done|]. split; [done|]. split.
    + intros o q Hoin Hqin. apply Hoq; [done|by right].
    + intros q1 q2 H1 H2. apply Hspread; by right.
  - split; [done|]. split; [done|]. split.
    + apply Forall_forall. intros o Hoin. by apply Hoq.
    + apply Forall_forall. intros q Hqin. rw Forall_forall in Hfront. split; [by apply Hfront|].
      apply Hspread; [done|by right].
Qed.

Lemma level_order_at_done d st : level_order_at d st -> level_order st.
Proof.
  intros (Ho & Hq & Hod & Hqd). split; [done|]. split; [done|].
  rw Forall_forall in Hod. rw Forall_forall in Hqd. split.
  - intros o q Hoin Hqin. specialize (Hod o Hoin). specialize (Hqd q Hqin). lia.
  - intros q1 q2 H1 H2. pose proof (Hqd q1 H1). pose proof (Hqd q2 H2). lia.
Qed.

Lemma walk_start_level_order m root opts : level_order (walk_start m root opts).
Proof.
  assert (Hq : queue_depths (walk_start m root opts) = [0])
    by by rw /queue_depths walk_start_queue.
  assert (Ho : edge_depths (walk_start m root opts) = []).
  { rw /edge_depths /walk_start. destruct m as [m|]; [|done].
    by destruct (seeded (Some m) opts). }
  rw /level_order Hq Ho. split; [apply nondecreasing_nil|]. split.
  - intros i j a b _ Hi Hj. destruct i, j; simpl in *; try done.
    injection Hi as <-. injection Hj as <-. lia.
  - split; [by intros o q Hoin%elem_of_nil|].
    intros q1 q2 ->%list_elem_of_singleton ->%list_elem_of_singleton. lia.
Qed.

Lemma bfs_loop_level_order pfuel c D N ps fuel st w st' t w' :
  level_order st ->
  bfs_loop fuel pfuel c D N ps st w = (Ok (st', t), w') ->
  nondecreasing (edge_depths st').
Proof.
  apply (bfs_loop_ind level_order (fun st _ => nondecreasing (edge_depths st))).
  - by intros st0 (Ho & _).
  - intros st0 item rest Hinv Hqueue _.
    by destruct (level_order_pop st0 item rest Hinv Hqueue) as [Hpop _].
  - intros st0 item rest drs w0 w1 Hinv Hqueue _ _.
    destruct (level_order_pop st0 item rest Hinv Hqueue) as [_ Hat].
    set (st1 := expanded_one _ _).
    pose proof (for_drs_level_order N item drs st1 Hat) as Hfor.
    destruct (for_drs N item drs st1) as [st2|st2]; [by destruct Hfor|].
    by eapply level_order_at_done.
Qed.

(** X21 (getOrgSubtree is breadth first). In every result the edges are
    listed level by level: the depth of the node that was being expanded
    when an edge was recorded never goes down along the edge list, so all
    the edges found at one depth come before any edge found deeper. *)
Theorem subtree_breadth_first fuel pfuel c root opts w m st t w' :
  getOrgSubtree_walk fuel pfuel c root opts w = (Ok (m, st, t), w') ->
  edges (mkResult m st t) = W.edges st /\
  length (edge_depths st) = length (W.edges st) /\
  nondecreasing (edge_depths st).
Proof.
  intros Hwalk. split; [done|].
  apply getOrgSubtree_walk_inv in Hwalk as (w0 & Hloop).
  split.
  - apply bfs_loop_origins with (D := eff_maxDepth opts) in Hloop as [Hlen _];
      [|apply walk_start_origins].
    by rw /edge_depths length_fmap.
  - eapply bfs_loop_level_order; [|exact Hloop]. apply walk_start_level_order.
Qed.

Lemma subtree_breadth_first_witness :
  match getOrgSubtree_walk 10 5 client0 "root"
          (scenario_opts false (Some 2) (Some 100)) scenario_world with
  | (Ok (m, st, t), _) =>
    personId <$> W.edges st = [Some "A"; Some "B"; Some "A1"; Some "A2"] /\
    edge_depths st = [0; 0; 1; 1] /\ nondecreasing (edge_depths st)
  | _ => False
  end.
Proof.
  destruct (getOrgSubtree_walk 10 5 client0 "root"
              (scenario_opts false (Some 2) (Some 100)) scenario_world)
    as [[[[m st] t]| |] w'] eqn:Hrun; [|vm_compute in Hrun; discriminate Hrun..].
  destruct (subtree_breadth_first _ _ _ _ _ _ _ _ _ _ Hrun) as (_ & _ & Hsorted).
  split; [|split; [|exact Hsorted]]; vm_compute in Hrun; by injection Hrun as _ <- _ _.
Defined.
